(** * API Extractor: symbol table, excerpts, canonical references

    A shallow embedding of the parts of [api-extractor] that build the
    symbol/declaration graph ([AstSymbolTable]), render excerpts
    ([Excerpt]), name overloaded members ([ApiMethod]) and drive a run
    ([Extractor]), together with the properties stated about them.

    Conventions.
    - A JavaScript [number] that holds an integer is a [Z].
    - A JavaScript string is a [string]; a character outside ASCII is
      written as its UTF-8 bytes, so that an ASCII byte is always an ASCII
      character.  [String.prototype.toUpperCase] depends on the Unicode
      case tables and is a parameter of the code that calls it.
    - An object with identity ([ts.Symbol], [ts.Node], [AstSymbol],
      [AstDeclaration]) is a handle of type [nat]; the mutable objects live
      in arenas of the table state.
    - A [Map] is a [gmap], a [Set] is a [gset]. *)

From Stdlib Require Import ZArith Lia Ascii String.
From stdpp Require Import base option list gmap strings pretty fin_maps.

Local Open Scope string_scope.
Local Open Scope Z_scope.
Local Open Scope list_scope.

(** ** JavaScript built-ins used by the sources *)

Module JS.

(** [String(n)] for an integer [n], as a template literal renders it. *)
Definition numberToString (n : Z) : string := pretty n.

(** [Array.prototype.slice(start, end)]: a negative index counts from the
    end of the array, and both ends are clamped to the array. *)
Definition slice {A} (l : list A) (start end_ : Z) : list A :=
  let len := Z.of_nat (length l) in
  let k := if start <? 0 then Z.max (len + start) 0 else Z.min start len in
  let final := if end_ <? 0 then Z.max (len + end_) 0 else Z.min end_ len in
  take (Z.to_nat (Z.max (final - k) 0)) (drop (Z.to_nat k) l).

(** [Array.prototype.join('')] on an array of strings. *)
Fixpoint join (l : list string) : string :=
  match l with
  | [] => EmptyString
  | s :: l' => s +:+ join l'
  end.

(** The upper case of an ASCII letter; every other character is left as
    it is. *)
Definition upperChar (c : ascii) : ascii :=
  let n := nat_of_ascii c in
  if ((97 <=? n) && (n <=? 122))%nat then ascii_of_nat (n - 32) else c.

(** The double-quote character, for the error messages that contain it. *)
Definition quote : string := String (ascii_of_nat 34) EmptyString.

End JS.

(** ** Excerpt.ts *)

Module Excerpt.

Inductive ExcerptTokenKind := Content | Reference.

Record ExcerptToken := mkExcerptToken {
  kind : ExcerptTokenKind;
  text : string
}.

Record IExcerptTokenRange := mkRange {
  startIndex : Z;
  endIndex : Z
}.

(** The class [Excerpt]; [_text] is the private cache, [None] for
    [undefined]. *)
Record Excerpt := mkExcerpt {
  tokenRange : IExcerptTokenRange;
  tokens : list ExcerptToken;
  _text : option string
}.

(** [new Excerpt(tokens, tokenRange)] *)
Definition new (tokens : list ExcerptToken) (tokenRange : IExcerptTokenRange)
  : Excerpt :=
  mkExcerpt tokenRange tokens None.

(** The value the getter computes on a cache miss. *)
Definition computeText (e : Excerpt) : string :=
  JS.join (text <$>
    JS.slice (tokens e) (startIndex (tokenRange e)) (endIndex (tokenRange e))).

(** [get text()]: returns the string and the object after the access. *)
Definition get_text (e : Excerpt) : string * Excerpt :=
  match _text e with
  | None =>
      let t := computeText e in
      (t, mkExcerpt (tokenRange e) (tokens e) (Some t))
  | Some t => (t, e)
  end.

(** The specification's wording: the tokens whose index lies in the
    half-open range [[s, e)], in order; [i] is the index of the head of
    [l]. *)
Fixpoint tokensInRange (i s e : Z) (l : list ExcerptToken)
  : list ExcerptToken :=
  match l with
  | [] => []
  | t :: l' =>
      if bool_decide (s ≤ i < e)
      then t :: tokensInRange (i + 1) s e l'
      else tokensInRange (i + 1) s e l'
  end.

Definition concatText (l : list ExcerptToken) : string :=
  JS.join (text <$> l).

End Excerpt.

(** ** ApiMethod.ts *)

Module ApiMethod.

(** The members of an [ApiMethod] that the canonical reference reads;
    they are supplied by the name, static and function-like mixins. *)
Record ApiMethod := mkApiMethod {
  name : string;
  isStatic : bool;
  overloadIndex : Z
}.

Definition getCanonicalReference (name : string) (isStatic : bool)
    (overloadIndex : Z) : string :=
  if isStatic
  then "(" +:+ name +:+ ":static," +:+ JS.numberToString overloadIndex +:+ ")"
  else "(" +:+ name +:+ ":instance," +:+ JS.numberToString overloadIndex +:+ ")".

(** [get canonicalReference()] *)
Definition canonicalReference (m : ApiMethod) : string :=
  getCanonicalReference (name m) (isStatic m) (overloadIndex m).

(** The format as the specification spells it:
    [(name:static|instance,overloadIndex)]. *)
Definition referenceFormat (name : string) (isStatic : bool)
    (overloadIndex : Z) : string :=
  "(" +:+ name +:+ ":" +:+ (if isStatic then "static" else "instance")
  +:+ "," +:+ JS.numberToString overloadIndex +:+ ")".

End ApiMethod.

(** ** Results of fallible code *)

(** A call either returns a value or throws an [Error] with a message. *)
Inductive result (A : Type) : Type :=
  | Ok (a : A)
  | Throw (message : string).
Arguments Ok {A} a.
Arguments Throw {A} message.

(** ** Extractor.ts *)

Module Extractor.

(** *** The regular expression [/\.d\.ts$/i] *)

(** Case-insensitive comparison of one pattern character with one input
    character: both are canonicalised to upper case. *)
Definition charMatches (p c : ascii) : bool :=
  bool_decide (JS.upperChar p = JS.upperChar c).

(** The pattern followed by [$], tried at the current position. *)
Fixpoint matchHere (pattern s : string) : bool :=
  match pattern, s with
  | EmptyString, EmptyString => true
  | String p pattern', String c s' => charMatches p c && matchHere pattern' s'
  | _, _ => false
  end.

(** [_declarationFileExtensionRegExp.test(s)]: the pattern is tried at
    every start position, left to right. *)
Fixpoint declarationFileExtensionRegExp_test (s : string) : bool :=
  matchHere ".d.ts" s ||
  match s with
  | EmptyString => false
  | String _ s' => declarationFileExtensionRegExp_test s'
  end.

(** *** generateFilePathsForAnalysis *)

Section GenerateFilePaths.

(** [String.prototype.toUpperCase]. *)
Variable toUpperCase : string → string.

(** [path.isAbsolute] of Node's path module. *)
Variable isAbsolute : string → bool.

(** The [for] loop, with the two locals it updates. *)
Fixpoint generateLoop (inputFilePaths : list string)
    (seenFiles : gset string) (analysisFilePaths : list string)
  : result (list string) :=
  match inputFilePaths with
  | [] => Ok analysisFilePaths
  | inputFilePath :: rest =>
      let inputFileToUpper := toUpperCase inputFilePath in
      if bool_decide (inputFileToUpper ∈ seenFiles)
      then generateLoop rest seenFiles analysisFilePaths
      else
        let seenFiles' := {[ inputFileToUpper ]} ∪ seenFiles in
        if negb (isAbsolute inputFilePath)
        then Throw ("Input file is not an absolute path: " +:+ inputFilePath)
        else if declarationFileExtensionRegExp_test inputFilePath
        then generateLoop rest seenFiles' (analysisFilePaths ++ [inputFilePath])
        else generateLoop rest seenFiles' analysisFilePaths
  end.

Definition generateFilePathsForAnalysis (inputFilePaths : list string)
  : result (list string) :=
  generateLoop inputFilePaths ∅ [].

(** The result in the specification's wording, for comparison with the
    loop. *)

(** Two paths that differ at most in letter case: their upper-case forms
    are equal. *)
Definition sameIgnoringCase (p q : string) : bool :=
  bool_decide (toUpperCase p = toUpperCase q).

(** The paths of [l] that no path before them equals up to letter case;
    [before] holds the paths that precede [l]. *)
Fixpoint firstOccurrencesAfter (before l : list string) : list string :=
  match l with
  | [] => []
  | p :: l' =>
      if existsb (sameIgnoringCase p) before
      then firstOccurrencesAfter (before ++ [p]) l'
      else p :: firstOccurrencesAfter (before ++ [p]) l'
  end.

Definition firstOccurrences (l : list string) : list string :=
  firstOccurrencesAfter [] l.

(** The loop's set [seen] holds the upper-case forms of the paths in
    [before], the paths already visited. *)
Definition seenOf (before : list string) (seen : gset string) : Prop :=
  ∀ u, u ∈ seen ↔ ∃ q, q ∈ before ∧ toUpperCase q = u.

End GenerateFilePaths.

(** The string with its ASCII letters in upper case: the form in which
    the pattern, whose letters are ASCII, compares characters. *)
Fixpoint canonical (s : string) : string :=
  match s with
  | EmptyString => EmptyString
  | String c s' => String (JS.upperChar c) (canonical s')
  end.

(** A path ends in [.d.ts], the case of these letters ignored. *)
Definition EndsInDts (s : string) : Prop :=
  ∃ stem ext, s = stem +:+ ext ∧ canonical ext = ".D.TS".

(** *** MonitoredLogger *)

(** Modelled from the spec: the class [MonitoredLogger] (its file is not
    among the sources).  User diagnostics are accumulated via counters:
    a warning or an error bumps its counter, verbose and informational
    messages bump none, and [resetCounters] clears both.  The counters
    count messages, so they are natural numbers. *)
Record MonitoredLogger := mkLogger {
  errorCount : N;
  warningCount : N
}.

Definition resetCounters (_ : MonitoredLogger) : MonitoredLogger :=
  mkLogger 0%N 0%N.
Definition logVerbose (_ : string) (lg : MonitoredLogger) : MonitoredLogger :=
  lg.
Definition logWarning (_ : string) (lg : MonitoredLogger) : MonitoredLogger :=
  mkLogger (errorCount lg) (warningCount lg + 1)%N.
Definition logError (_ : string) (lg : MonitoredLogger) : MonitoredLogger :=
  mkLogger (errorCount lg + 1)%N (warningCount lg).

(** *** Configuration (IExtractorConfig after defaults) *)

Record IExtractorDtsRollupConfig := mkDtsRollup {
  dts_enabled : bool;
  trimming : bool;
  publishFolder : string;
  publishFolderForInternal : string;
  publishFolderForBeta : string;
  publishFolderForPublic : string;
  mainDtsRollupPath : option string
}.

Record IExtractorApiJsonFileConfig := mkApiJsonFile {
  json_enabled : bool;
  outputFolder : string
}.

(** An absent member is [None]; [policies], [validationRules] and
    [apiReviewFile] are only tested for presence here. *)
Record IExtractorConfig := mkConfig {
  entryPointSourceFile : string;
  policies : option unit;
  validationRules : option unit;
  apiReviewFile : option unit;
  apiJsonFile : option IExtractorApiJsonFileConfig;
  dtsRollup : option IExtractorDtsRollupConfig
}.

(** What [processProject] reads from the [ExtractorContext]. *)
Record ExtractorContext := mkContext {
  packageName : string;
  packageFolder : string;
  typings : option string
}.

Inductive DtsRollupKind := InternalRelease | BetaRelease | PublicRelease.

(** The collaborators of a run: Node's [path], [Path.isUnder], the
    analyzer and the generators.  Each one that is handed the monitored
    logger may log through it and may throw. *)
Record Collaborators := mkCollaborators {
  path_isAbsolute : string → bool;
  path_resolve : list string → string;
  path_join : list string → string;
  path_basename : string → string;
  path_relative : string → string → string;
  Path_isUnder : string → string → bool;
  (** [new ExtractorContext(...)] then [modelBuilder.buildApiPackage()] *)
  buildApiPackage :
    string → MonitoredLogger → result (ExtractorContext * MonitoredLogger);
  (** [apiPackage.saveToJsonFile(...)] *)
  saveToJsonFile : string → MonitoredLogger → result MonitoredLogger;
  (** [new DtsRollupGenerator(context)] then [analyze()] *)
  dtsAnalyze : ExtractorContext → MonitoredLogger → result MonitoredLogger;
  writeTypingsFile :
    ExtractorContext → string → DtsRollupKind → MonitoredLogger →
    result MonitoredLogger
}.

Record Extractor := mkExtractor {
  _actualConfig : IExtractorConfig;
  _localBuild : bool;
  _monitoredLogger : MonitoredLogger;
  _absoluteRootFolder : string
}.

(** A string in a condition: [undefined] and [''] are falsy. *)
Definition truthy (s : option string) : option string :=
  match s with
  | Some EmptyString => None
  | _ => s
  end.

Definition bindR {A B} (r : result A) (k : A → result B) : result B :=
  match r with
  | Ok a => k a
  | Throw m => Throw m
  end.

Section Run.

Variable env : Collaborators.

Definition _generateRollupDtsFile (context : ExtractorContext)
    (mainDtsRollupFullPath : string) (dtsKind : DtsRollupKind)
    (lg : MonitoredLogger) : result MonitoredLogger :=
  let lg := logVerbose ("Writing package typings: " +:+ mainDtsRollupFullPath) lg in
  writeTypingsFile env context mainDtsRollupFullPath dtsKind lg.

(** The tail of [_generateRollupDtsFiles], once the rollup path is
    known. *)
Definition writeRollups (dtsRollup : IExtractorDtsRollupConfig)
    (context : ExtractorContext) (mainDtsRollupPath : string)
    (lg : MonitoredLogger) : result MonitoredLogger :=
  bindR (dtsAnalyze env context lg) (λ lg,
    if trimming dtsRollup then
      bindR (_generateRollupDtsFile context
               (path_resolve env [packageFolder context;
                  publishFolderForPublic dtsRollup; mainDtsRollupPath])
               PublicRelease lg) (λ lg,
      bindR (_generateRollupDtsFile context
               (path_resolve env [packageFolder context;
                  publishFolderForBeta dtsRollup; mainDtsRollupPath])
               BetaRelease lg) (λ lg,
      _generateRollupDtsFile context
        (path_resolve env [packageFolder context;
           publishFolderForInternal dtsRollup; mainDtsRollupPath])
        InternalRelease lg))
    else
      _generateRollupDtsFile context
        (path_resolve env [packageFolder context;
           publishFolder dtsRollup; mainDtsRollupPath])
        InternalRelease lg).

Definition _generateRollupDtsFiles (dtsRollup : IExtractorDtsRollupConfig)
    (context : ExtractorContext) (lg : MonitoredLogger)
  : result MonitoredLogger :=
  if negb (dts_enabled dtsRollup) then Ok lg else
  match truthy (mainDtsRollupPath dtsRollup) with
  | None =>
      match truthy (typings context) with
      | None =>
          Ok (logError ("Either the " +:+ JS.quote +:+ "mainDtsRollupPath" +:+ JS.quote
                +:+ " setting must be specified,"
                +:+ " or else the package.json file must contain a "
                +:+ JS.quote +:+ "typings" +:+ JS.quote +:+ " field.") lg)
      | Some typings =>
          let resolvedTypings :=
            path_resolve env [packageFolder context; typings] in
          if trimming dtsRollup then
            if negb (Path_isUnder env resolvedTypings
                       (publishFolderForInternal dtsRollup))
            then Ok (logError ("The " +:+ JS.quote +:+ "mainDtsRollupPath" +:+ JS.quote
                       +:+ " setting was not specified."
                       +:+ " In this case, the package.json " +:+ JS.quote +:+ "typings"
                       +:+ JS.quote +:+ " field must point to a file under"
                       +:+ " the " +:+ JS.quote +:+ "publishFolderForInternal"
                       +:+ JS.quote +:+ ": "
                       +:+ publishFolderForInternal dtsRollup) lg)
            else
              let inferred := path_relative env
                    (publishFolderForInternal dtsRollup) resolvedTypings in
              writeRollups dtsRollup context inferred
                (logVerbose ("The " +:+ JS.quote +:+ "mainDtsRollupPath" +:+ JS.quote
                   +:+ " setting was inferred from package.json: "
                   +:+ inferred) lg)
          else
            if negb (Path_isUnder env resolvedTypings (publishFolder dtsRollup))
            then Ok (logError ("The " +:+ JS.quote +:+ "mainDtsRollupPath" +:+ JS.quote
                       +:+ " setting was not specified."
                       +:+ " In this case, the package.json " +:+ JS.quote +:+ "typings"
                       +:+ JS.quote +:+ " field must point to a file under"
                       +:+ " the " +:+ JS.quote +:+ "publishFolder" +:+ JS.quote
                       +:+ ": " +:+ publishFolder dtsRollup) lg)
            else
              let inferred := path_relative env
                    (publishFolder dtsRollup) resolvedTypings in
              writeRollups dtsRollup context inferred
                (logVerbose ("The " +:+ JS.quote +:+ "mainDtsRollupPath" +:+ JS.quote
                   +:+ " setting was inferred from package.json: "
                   +:+ inferred) lg)
      end
  | Some mainPath =>
      let lg := logVerbose ("The " +:+ JS.quote +:+ "mainDtsRollupPath" +:+ JS.quote
                  +:+ " is: " +:+ mainPath) lg in
      if path_isAbsolute env mainPath
      then Ok (logError ("The " +:+ JS.quote +:+ "mainDtsRollupPath" +:+ JS.quote
                 +:+ " setting must be a relative path"
                 +:+ " that can be combined with one of the "
                 +:+ JS.quote +:+ "publishFolder" +:+ JS.quote +:+ " settings.") lg)
      else writeRollups dtsRollup context mainPath lg
  end.

(** [processProject(options)]; [projectConfig] is
    [options.projectConfig] when given.  The result pairs the returned
    boolean with the extractor after the call. *)
Definition processProject (this : Extractor) (projectConfig : option string)
  : result (bool * Extractor) :=
  let lg := resetCounters (_monitoredLogger this) in
  let config := _actualConfig this in
  let entryPoint :=
    match projectConfig with
    | Some e => e
    | None => entryPointSourceFile config
    end in
  match policies config, validationRules config, apiJsonFile config,
        apiReviewFile config, dtsRollup config with
  | Some _, Some _, Some apiJsonFileConfig, Some _, Some dtsRollupConfig =>
      if negb (declarationFileExtensionRegExp_test entryPoint)
      then Throw ("The entry point is not a declaration file: " +:+ entryPoint)
      else
        bindR (buildApiPackage env
                 (path_resolve env [_absoluteRootFolder this; entryPoint]) lg)
          (λ '(context, lg),
        let packageBaseName := path_basename env (packageName context) in
        bindR (if json_enabled apiJsonFileConfig then
                 let outputFolder := path_resolve env
                       [_absoluteRootFolder this; outputFolder apiJsonFileConfig] in
                 let apiJsonFilename :=
                   path_join env [outputFolder; packageBaseName +:+ ".api.json"] in
                 saveToJsonFile env apiJsonFilename
                   (logVerbose ("Writing: " +:+ apiJsonFilename) lg)
               else Ok lg) (λ lg,
        bindR (_generateRollupDtsFiles dtsRollupConfig context lg) (λ lg,
        let this' := mkExtractor (_actualConfig this) (_localBuild this) lg
                       (_absoluteRootFolder this) in
        if _localBuild this
        then Ok (bool_decide (errorCount lg = 0%N), this')
        else Ok (bool_decide ((errorCount lg + warningCount lg)%N = 0%N), this'))))
  | _, _, _, _, _ => Throw "The configuration object wasn't normalized properly"
  end.

End Run.

(** *** _updateCommandLineForTypescriptPackage *)

(** What the method reads and writes of a [ts.ParsedCommandLine]:
    [options.noLib], [options.lib] and [fileNames]; an absent member is
    [None]. *)
Record ParsedCommandLine := mkCommandLine {
  noLib : option bool;
  lib : option (list string);
  fileNames : option (list string)
}.

Definition DEFAULT_BUILTIN_LIBRARY : string := "lib.d.ts".
Definition OTHER_BUILTIN_LIBRARIES : list string :=
  ["lib.es5.d.ts"; "lib.es6.d.ts"].

Section TypescriptPackage.

(** [path.join] and [FileSystem.exists]. *)
Variable join : list string → string.
Variable fileExists : string → bool.

(** The [for] loop over [options.lib], with the two locals it updates. *)
Fixpoint libLoop (compilerLibFolder : string) (libs : list string)
    (foundBaseLib : bool) (filesToAdd : list string)
  : result (bool * list string) :=
  match libs with
  | [] => Ok (foundBaseLib, filesToAdd)
  | libFilename :: rest =>
      if bool_decide (libFilename = DEFAULT_BUILTIN_LIBRARY)
      then libLoop compilerLibFolder rest foundBaseLib filesToAdd
      else
        let foundBaseLib' :=
          if bool_decide (libFilename ∈ OTHER_BUILTIN_LIBRARIES)
          then true else foundBaseLib in
        let libPath := join [compilerLibFolder; libFilename] in
        if negb (fileExists libPath)
        then Throw ("lib " +:+ libFilename
                    +:+ " does not exist in the compiler specified in typescriptLibPackage")
        else libLoop compilerLibFolder rest foundBaseLib'
               (filesToAdd ++ [libPath])
  end.

(** The method; the result is the command line after the call. *)
Definition _updateCommandLineForTypescriptPackage
    (commandLine : ParsedCommandLine) (typescriptCompilerFolder : option string)
  : result ParsedCommandLine :=
  match truthy typescriptCompilerFolder with
  | None => Ok commandLine
  | Some folder =>
      let compilerLibFolder := join [folder; "lib"] in
      bindR (libLoop compilerLibFolder (default [] (lib commandLine)) false [])
        (λ '(foundBaseLib, filesToAdd),
         let filesToAdd :=
           if negb foundBaseLib
           then filesToAdd ++ [join [compilerLibFolder; "lib.d.ts"]]
           else filesToAdd in
         Ok (mkCommandLine (Some true) None
               (Some (default [] (fileNames commandLine) ++ filesToAdd))))
  end.

End TypescriptPackage.

End Extractor.

(** ** The TypeScript compiler API, as the symbol table sees it *)

Module ts.

(** Handles of compiler objects; two handles are the same object exactly
    when they are equal. *)
Abbreviation Symbol := nat (only parsing).
Abbreviation Node := nat (only parsing).

(** [ts.SyntaxKind]: the kinds the symbol table names, and the rest by
    number. *)
Inductive SyntaxKind :=
  | JSDocComment
  | TypeReference
  | ExpressionWithTypeArguments
  | ComputedPropertyName
  | Identifier
  | SourceFile
  | OtherKind (k : nat).

#[global] Instance SyntaxKind_eq_dec : EqDecision SyntaxKind.
Proof. solve_decision. Defined.

End ts.

(** ** AstImport.ts, SymbolAnalyzer.ts *)

Record AstImport := mkAstImport {
  modulePath : string;
  exportName : string
}.

(** Modelled from the spec: [AstImport.key] (the class is not among the
    sources), the identity key of the pair (packageName, exportedName). *)
Definition AstImport_key (i : AstImport) : string :=
  modulePath i +:+ ":" +:+ exportName i.

Record IFollowAliasesResult := mkFollowAliasesResult {
  followedSymbol : ts.Symbol;
  localName : string;
  astImport : option AstImport;
  isAmbient : bool
}.

(** Everything the symbol table reads and never writes: the program, its
    type checker, the syntax trees, and the helper classes whose files are
    not among the sources ([SymbolAnalyzer], [TypeScriptHelpers],
    [PackageMetadataManager]). *)
Record Provider := mkProvider {
  (** [ts.SymbolFlags.TypeParameter], [TypeLiteral], [Transient] *)
  SymbolFlags_TypeParameter : Z;
  SymbolFlags_TypeLiteral : Z;
  SymbolFlags_Transient : Z;
  (** [symbol.flags], [symbol.name], [symbol.declarations] *)
  flags : ts.Symbol → Z;
  symbolName : ts.Symbol → string;
  declarations : ts.Symbol → option (list ts.Node);
  (** [node.kind]; the chain [node.parent], [node.parent.parent], ... up to
      the root; [node.getChildren()]; [node.getSourceFile()];
      [node.getText()]; [sourceFile.fileName] *)
  kind : ts.Node → ts.SyntaxKind;
  ancestors : ts.Node → list ts.Node;
  getChildren : ts.Node → list ts.Node;
  getSourceFile : ts.Node → ts.Node;
  getText : ts.Node → string;
  fileName : ts.Node → string;
  (** [SymbolAnalyzer.followAliases], [SymbolAnalyzer.isAstDeclaration] *)
  followAliases : ts.Symbol → IFollowAliasesResult;
  isAstDeclaration : ts.SyntaxKind → bool;
  (** [TypeScriptHelpers.getSymbolForDeclaration],
      [TypeScriptHelpers.findFirstChildNode] *)
  getSymbolForDeclaration : ts.Node → option ts.Symbol;
  findFirstChildNode : ts.Node → ts.SyntaxKind → option ts.Node;
  (** [typeChecker.getSymbolAtLocation],
      [typeChecker.getExportsOfModule],
      [program.isSourceFileFromExternalLibrary] *)
  getSymbolAtLocation : ts.Node → option ts.Symbol;
  getExportsOfModule : ts.Symbol → list ts.Symbol;
  isSourceFileFromExternalLibrary : ts.Node → bool;
  (** [packageMetadataManager.isAedocSupportedFor] *)
  isAedocSupportedFor : string → bool
}.

(** ** AstSymbol.ts, AstDeclaration.ts, AstEntryPoint.ts *)

Abbreviation AstSymbolRef := nat (only parsing).
Abbreviation AstDeclarationRef := nat (only parsing).

Record AstSymbol := mkAstSymbol {
  sym_localName : string;
  sym_followedSymbol : ts.Symbol;
  sym_astImport : option AstImport;
  nominal : bool;
  parentAstSymbol : option AstSymbolRef;
  rootAstSymbol : AstSymbolRef;
  astDeclarations : list AstDeclarationRef;
  _analyzed : bool
}.

Record AstDeclaration := mkAstDeclaration {
  declaration : ts.Node;
  astSymbol : AstSymbolRef;
  parent : option AstDeclarationRef;
  children : list AstDeclarationRef;
  referencedAstSymbols : list AstSymbolRef
}.

Record IExportedMember := mkExportedMember {
  member_name : string;
  member_astSymbol : AstSymbolRef
}.

(** ** AstSymbolTable.ts *)

Module AstSymbolTable.

(** The table with the objects it has built.  [symbols] and [decls] are the
    arenas of [AstSymbol] and [AstDeclaration] objects: a handle is an
    index, [new] appends.  The other fields are the private maps. *)
Record AstSymbolTable := mkTable {
  symbols : list AstSymbol;
  decls : list AstDeclaration;
  _astSymbolsBySymbol : gmap ts.Symbol AstSymbolRef;
  _astDeclarationsByDeclaration : gmap ts.Node AstDeclarationRef;
  _astSymbolsByImportKey : gmap string AstSymbolRef;
  _astEntryPointsBySourceFile : gmap ts.Node (list IExportedMember)
}.

(** [new AstSymbolTable(...)] *)
Definition empty : AstSymbolTable := mkTable [] [] ∅ ∅ ∅ ∅.

(** A call returns a value and the table after it, throws, or is cut off
    because the recursion budget of the model ran out. *)
Inductive outcome (A : Type) : Type :=
  | Returns (a : A) (t : AstSymbolTable)
  | Throws (message : string)
  | OutOfFuel.
Arguments Returns {A} a t.
Arguments Throws {A} message.
Arguments OutOfFuel {A}.

Definition throws {A} (o : outcome A) : bool :=
  match o with Throws _ => true | _ => false end.

Definition M (A : Type) : Type := AstSymbolTable → outcome A.

Definition ret {A} (a : A) : M A := λ t, Returns a t.
Definition throw {A} (message : string) : M A := λ _, Throws message.
Definition bind {A B} (m : M A) (k : A → M B) : M B :=
  λ t, match m t with
       | Returns a t' => k a t'
       | Throws e => Throws e
       | OutOfFuel => OutOfFuel
       end.
Definition get : M AstSymbolTable := λ t, Returns t t.
Definition modify (f : AstSymbolTable → AstSymbolTable) : M unit :=
  λ t, Returns tt (f t).

Notation "x <- m ;; k" := (bind m (λ x, k))
  (at level 100, m at next level, right associativity, only parsing).
Notation "m ;;; k" := (bind m (λ _, k))
  (at level 100, right associativity, only parsing).

(** [for (const x of xs) body(x)] over an array the body does not touch. *)
Fixpoint forEach {A} (xs : list A) (body : A → M unit) : M unit :=
  match xs with
  | [] => ret tt
  | x :: xs' => body x ;;; forEach xs' body
  end.

(** [for (const x of xs) body(x)] over an array owned by an object of the
    table: the iterator reads the array again before each step, so it sees
    what the body appends.  [read] fetches the array, [i] is the next
    index. *)
Fixpoint forOfLive {A} (fuel : nat) (read : AstSymbolTable → list A)
    (i : nat) (body : A → M unit) : M unit :=
  λ t,
    match read t !! i with
    | None => Returns tt t
    | Some x =>
        match fuel with
        | O => OutOfFuel
        | S fuel' =>
            (body x ;;; forOfLive fuel' read (S i) body) t
        end
    end.

(** *** Field updates *)

Definition set_symbols (f : list AstSymbol → list AstSymbol)
    (t : AstSymbolTable) : AstSymbolTable :=
  mkTable (f (symbols t)) (decls t) (_astSymbolsBySymbol t)
    (_astDeclarationsByDeclaration t) (_astSymbolsByImportKey t)
    (_astEntryPointsBySourceFile t).

Definition set_decls (f : list AstDeclaration → list AstDeclaration)
    (t : AstSymbolTable) : AstSymbolTable :=
  mkTable (symbols t) (f (decls t)) (_astSymbolsBySymbol t)
    (_astDeclarationsByDeclaration t) (_astSymbolsByImportKey t)
    (_astEntryPointsBySourceFile t).

Definition set_astSymbolsBySymbol (k : ts.Symbol) (a : AstSymbolRef)
    (t : AstSymbolTable) : AstSymbolTable :=
  mkTable (symbols t) (decls t) (<[k := a]> (_astSymbolsBySymbol t))
    (_astDeclarationsByDeclaration t) (_astSymbolsByImportKey t)
    (_astEntryPointsBySourceFile t).

Definition set_astDeclarationsByDeclaration (k : ts.Node)
    (d : AstDeclarationRef) (t : AstSymbolTable) : AstSymbolTable :=
  mkTable (symbols t) (decls t) (_astSymbolsBySymbol t)
    (<[k := d]> (_astDeclarationsByDeclaration t)) (_astSymbolsByImportKey t)
    (_astEntryPointsBySourceFile t).

Definition set_astSymbolsByImportKey (k : string) (a : AstSymbolRef)
    (t : AstSymbolTable) : AstSymbolTable :=
  mkTable (symbols t) (decls t) (_astSymbolsBySymbol t)
    (_astDeclarationsByDeclaration t) (<[k := a]> (_astSymbolsByImportKey t))
    (_astEntryPointsBySourceFile t).

Definition set_astEntryPointsBySourceFile (k : ts.Node)
    (e : list IExportedMember) (t : AstSymbolTable) : AstSymbolTable :=
  mkTable (symbols t) (decls t) (_astSymbolsBySymbol t)
    (_astDeclarationsByDeclaration t) (_astSymbolsByImportKey t)
    (<[k := e]> (_astEntryPointsBySourceFile t)).

(** *** Members of AstSymbol and AstDeclaration

    The two classes are not among the sources; what follows is what the
    specification says of them. *)

(** Modelled from the spec: the getter [AstSymbol.analyzed].  Being
    analyzed is a property of the tree a symbol belongs to: the flag is
    set on the root once the whole tree is walked. *)
Definition analyzed (t : AstSymbolTable) (a : AstSymbolRef) : bool :=
  match symbols t !! a with
  | Some s =>
      match symbols t !! rootAstSymbol s with
      | Some r => _analyzed r
      | None => false
      end
  | None => false
  end.

(** Modelled from the spec: the getter [AstSymbol.imported], true when an
    import origin is found at the root of the symbol's tree (the source
    walks up to the root of the tree, looking for any imports along the
    way). *)
Definition imported (t : AstSymbolTable) (a : AstSymbolRef) : bool :=
  match symbols t !! a with
  | Some s =>
      match symbols t !! rootAstSymbol s with
      | Some r => bool_decide (is_Some (sym_astImport r))
      | None => false
      end
  | None => false
  end.

(** Modelled from the spec: [AstSymbol._notifyAnalyzed], the flag goes
    from false to true. *)
Definition _notifyAnalyzed (a : AstSymbolRef) : M unit :=
  modify (set_symbols (alter (λ s,
    mkAstSymbol (sym_localName s) (sym_followedSymbol s) (sym_astImport s)
      (nominal s) (parentAstSymbol s) (rootAstSymbol s) (astDeclarations s)
      true) a)).

(** Modelled from the spec: [new AstSymbol(parameters)].  The root is the
    one handed in, or the new symbol itself when there is none. *)
Definition newAstSymbol (localName : string) (followedSymbol : ts.Symbol)
    (astImport : option AstImport) (parentAstSymbol : option AstSymbolRef)
    (rootAstSymbol : option AstSymbolRef) (nominal : bool)
  : M AstSymbolRef :=
  λ t,
    let a := length (symbols t) in
    Returns a (set_symbols (λ l, l ++ [
      mkAstSymbol localName followedSymbol astImport nominal parentAstSymbol
        (default a rootAstSymbol) [] false ]) t).

(** Modelled from the spec: [owner.analyzed] for the declaration [d], the
    getter [analyzed] of the symbol that owns it. *)
Definition ownerAnalyzed (t : AstSymbolTable) (d : AstDeclarationRef) : bool :=
  from_option (λ x, analyzed t (astSymbol x)) false (decls t !! d).

(** Modelled from the spec: what [new AstDeclaration(parameters)] attaches.
    The new declaration joins the declarations of its symbol and the
    children of its parent. *)
Definition attachAstDeclaration (node : ts.Node) (owner : AstSymbolRef)
    (parentDeclaration : option AstDeclarationRef) : M AstDeclarationRef :=
  λ t,
    let d := length (decls t) in
    let t := set_decls (λ l, l ++ [
               mkAstDeclaration node owner parentDeclaration [] [] ]) t in
    let t := set_symbols (alter (λ s,
               mkAstSymbol (sym_localName s) (sym_followedSymbol s)
                 (sym_astImport s) (nominal s) (parentAstSymbol s)
                 (rootAstSymbol s) (astDeclarations s ++ [d]) (_analyzed s))
               owner) t in
    let t := match parentDeclaration with
             | Some p =>
                 set_decls (alter (λ x,
                   mkAstDeclaration (declaration x) (astSymbol x) (parent x)
                     (children x ++ [d]) (referencedAstSymbols x)) p) t
             | None => t
             end in
    Returns d t.

(** Modelled from the spec: [new AstDeclaration(parameters)].  The
    children of a declaration grow only while its owner is not analyzed
    and are frozen afterwards: a new declaration whose parent is owned by
    an analyzed symbol violates that invariant, and a violated invariant
    is a fatal error. *)
Definition newAstDeclaration (node : ts.Node) (owner : AstSymbolRef)
    (parentDeclaration : option AstDeclarationRef) : M AstDeclarationRef :=
  λ t,
    if from_option (ownerAnalyzed t) false parentDeclaration
    then Throws "Program Bug: a child was attached to a declaration after its symbol was analyzed"
    else attachAstDeclaration node owner parentDeclaration t.

(** Modelled from the spec: [AstDeclaration._notifyReferencedAstSymbol].
    The references are kept without duplicates, in insertion order; they
    grow only while the owner of the declaration is not analyzed, so a new
    reference for a declaration of an analyzed symbol is a fatal error. *)
Definition _notifyReferencedAstSymbol (d : AstDeclarationRef)
    (referencedAstSymbol : AstSymbolRef) : M unit :=
  λ t,
    if from_option (λ x, negb (bool_decide
                                 (referencedAstSymbol ∈ referencedAstSymbols x)))
         false (decls t !! d)
       && ownerAnalyzed t d
    then Throws "Program Bug: a reference was added to a declaration after its symbol was analyzed"
    else
      Returns tt (set_decls (alter (λ x,
        if bool_decide (referencedAstSymbol ∈ referencedAstSymbols x) then x
        else mkAstDeclaration (declaration x) (astSymbol x) (parent x)
               (children x) (referencedAstSymbols x ++ [referencedAstSymbol]))
        d) t).

(** *** The methods of the table *)

(** [ts.SyntaxKind[kind]]: the name of a kind; a kind the table does not
    name prints as its number. *)
Definition SyntaxKind_name (k : ts.SyntaxKind) : string :=
  match k with
  | ts.JSDocComment => "JSDocComment"
  | ts.TypeReference => "TypeReference"
  | ts.ExpressionWithTypeArguments => "ExpressionWithTypeArguments"
  | ts.ComputedPropertyName => "ComputedPropertyName"
  | ts.Identifier => "Identifier"
  | ts.SourceFile => "SourceFile"
  | ts.OtherKind n => pretty n
  end.

Section WithProvider.

Variable p : Provider.

(** The first parent satisfying [isAstDeclaration], if any. *)
Definition _tryFindFirstAstDeclarationParent (node : ts.Node)
  : option ts.Node :=
  List.find (λ currentNode, isAstDeclaration p (kind p currentNode))
    (ancestors p node).

(** [TypeParameter | TypeLiteral | Transient] *)
Definition discardedFlags : Z :=
  Z.lor (Z.lor (SymbolFlags_TypeParameter p) (SymbolFlags_TypeLiteral p))
    (SymbolFlags_Transient p).

(** The end of [_fetchAstSymbol]: the consistency check on the import
    status, then [return astSymbol]. *)
Definition checkImportStatus (followAliasesResult : IFollowAliasesResult)
    (a : AstSymbolRef) : M (option AstSymbolRef) :=
  λ t,
    if bool_decide (is_Some (astImport followAliasesResult))
       && negb (imported t a)
    then Throws ("Program Bug: The symbol "
                 +:+ from_option sym_localName EmptyString (symbols t !! a)
                 +:+ " is being imported"
                 +:+ " after it was already registered as non-imported")
    else Returns (Some a) t.

(** The first loop of the creation path: every declaration of a symbol
    that is not nominal must be of a kind the graph holds. *)
Definition checkDeclarationKinds (followedSymbol : ts.Symbol)
    (followedDeclarations : list ts.Node) : M unit :=
  forEach followedDeclarations (λ declaration,
    if negb (isAstDeclaration p (kind p declaration))
    then throw ("Program Bug: The " +:+ JS.quote +:+ symbolName p followedSymbol
                +:+ JS.quote +:+ " symbol uses the construct "
                +:+ JS.quote +:+ SyntaxKind_name (kind p declaration) +:+ JS.quote
                +:+ " which may be an unimplemented language feature")
    else ret tt).

(** The second loop of the creation path: one [AstDeclaration] for each
    declaration, wired to its parent declaration. *)
Definition createDeclarations (astSymbol : AstSymbolRef)
    (parentAstSymbol : option AstSymbolRef)
    (followedDeclarations : list ts.Node) : M unit :=
  forEach followedDeclarations (λ declaration,
    parentAstDeclaration <-
      match parentAstSymbol with
      | Some _ =>
          match _tryFindFirstAstDeclarationParent declaration with
          | None => throw "Program bug: Missing parent declaration"
          | Some parentDeclaration =>
              t <- get ;;
              match _astDeclarationsByDeclaration t !! parentDeclaration with
              | None => throw "Program bug: Missing parent AstDeclaration"
              | Some parentAstDeclaration => ret (Some parentAstDeclaration)
              end
          end
      | None => ret None
      end ;;
    astDeclaration <- newAstDeclaration declaration astSymbol parentAstDeclaration ;;
    modify (set_astDeclarationsByDeclaration declaration astDeclaration)).

(** The value of [nominal] for a new symbol. *)
Definition computeNominal (followedDeclarations : list ts.Node)
    (declaration0 : ts.Node) : bool :=
  let nominal := false in
  let nominal :=
    if bool_decide (length followedDeclarations = 1%nat)
       && bool_decide (kind p declaration0 = ts.SourceFile)
    then true else nominal in
  let followedSymbolSourceFile := getSourceFile p declaration0 in
  if isSourceFileFromExternalLibrary p followedSymbolSourceFile
  then if negb (isAedocSupportedFor p (fileName p followedSymbolSourceFile))
       then true else nominal
  else nominal.

(** The creation path of [_fetchAstSymbol] once the parent symbol is
    known: the new [AstSymbol], its registration in the maps, its
    declarations, and the final check. *)
Definition constructAstSymbol (followAliasesResult : IFollowAliasesResult)
    (followedDeclarations : list ts.Node) (nominal : bool)
    (parentAstSymbol : option AstSymbolRef) : M (option AstSymbolRef) :=
  let followedSymbol := followedSymbol followAliasesResult in
  let astImport := astImport followAliasesResult in
  t <- get ;;
  astSymbol <-
    newAstSymbol (localName followAliasesResult) followedSymbol
      astImport parentAstSymbol
      (parentAstSymbol ≫= (λ pa, rootAstSymbol <$> symbols t !! pa))
      nominal ;;
  modify (set_astSymbolsBySymbol followedSymbol astSymbol) ;;;
  match astImport with
  | Some i => modify (set_astSymbolsByImportKey (AstImport_key i) astSymbol)
  | None => ret tt
  end ;;;
  createDeclarations astSymbol parentAstSymbol followedDeclarations ;;;
  checkImportStatus followAliasesResult astSymbol.

(** [_fetchAstSymbol(symbol, addIfMissing)].  The budget [fuel] bounds the
    depth of the recursion on parent symbols. *)
Fixpoint _fetchAstSymbol (fuel : nat) (symbol : ts.Symbol)
    (addIfMissing : bool) {struct fuel} : M (option AstSymbolRef) :=
  let followAliasesResult := followAliases p symbol in
  let followedSymbol := followedSymbol followAliasesResult in
  if bool_decide (Z.land (flags p followedSymbol) discardedFlags ≠ 0)
  then ret None
  else if isAmbient followAliasesResult then ret None
  else
    t <- get ;;
    match _astSymbolsBySymbol t !! followedSymbol with
    | Some astSymbol => checkImportStatus followAliasesResult astSymbol
    | None =>
        match declarations p followedSymbol with
        | None | Some [] =>
            throw "Program Bug: Followed a symbol with no declarations"
        | Some ((declaration0 :: _) as followedDeclarations) =>
            let astImport := astImport followAliasesResult in
            match astImport ≫= (λ i, _astSymbolsByImportKey t !! AstImport_key i) with
            | Some astSymbol =>
                modify (set_astSymbolsBySymbol followedSymbol astSymbol) ;;;
                checkImportStatus followAliasesResult astSymbol
            | None =>
                let nominal := computeNominal followedDeclarations declaration0 in
                parentAstSymbol <-
                  (if nominal then ret None else
                   checkDeclarationKinds followedSymbol followedDeclarations ;;;
                   match _tryFindFirstAstDeclarationParent declaration0 with
                   | None => ret None
                   | Some arbitaryParentDeclaration =>
                       match getSymbolForDeclaration p arbitaryParentDeclaration with
                       | None =>
                           throw "TypeError: Cannot read property of undefined"
                       | Some parentSymbol =>
                           match fuel with
                           | O => λ _, OutOfFuel
                           | S fuel' =>
                               parentAstSymbol <-
                                 _fetchAstSymbol fuel' parentSymbol addIfMissing ;;
                               match parentAstSymbol with
                               | None =>
                                   throw ("Program bug: Unable to construct a parent AstSymbol for "
                                          +:+ symbolName p followedSymbol)
                               | Some _ => ret parentAstSymbol
                               end
                           end
                       end
                   end) ;;
                constructAstSymbol followAliasesResult followedDeclarations
                  nominal parentAstSymbol
            end
        end
    end.

Definition tryGetAstSymbol (fuel : nat) (symbol : ts.Symbol)
  : M (option AstSymbolRef) :=
  _fetchAstSymbol fuel symbol false.

Definition _fetchAstSymbolForNode (fuel : nat) (node : ts.Node)
  : M (option AstSymbolRef) :=
  if negb (isAstDeclaration p (kind p node)) then ret None else
  match getSymbolForDeclaration p node with
  | None => throw "Program Bug: Unable to find symbol for node"
  | Some symbol => _fetchAstSymbol fuel symbol true
  end.

Definition _fetchAstDeclaration (fuel : nat) (node : ts.Node)
  : M (option AstDeclarationRef) :=
  astSymbol <- _fetchAstSymbolForNode fuel node ;;
  match astSymbol with
  | None => ret None
  | Some _ =>
      t <- get ;;
      match _astDeclarationsByDeclaration t !! node with
      | None => throw "Program Bug: Unable to find constructed AstDeclaration"
      | Some astDeclaration => ret (Some astDeclaration)
      end
  end.

(** The [switch] at the head of [_analyzeChildTree] for a node that may be
    a reference to another symbol. *)
Definition noteReference (fuel : nat) (node : ts.Node)
    (governingAstDeclaration : AstDeclarationRef) : M unit :=
  match findFirstChildNode p node ts.Identifier with
  | None => ret tt
  | Some symbolNode =>
      match getSymbolAtLocation p symbolNode with
      | None =>
          throw ("Symbol not found for identifier: " +:+ getText p symbolNode)
      | Some symbol =>
          referencedAstSymbol <- _fetchAstSymbol fuel symbol true ;;
          match referencedAstSymbol with
          | Some r => _notifyReferencedAstSymbol governingAstDeclaration r
          | None => ret tt
          end
      end
  end.

(** [_analyzeChildTree(node, governingAstDeclaration)]; [fuel] bounds the
    depth of the syntax tree and of the parent chains. *)
Fixpoint _analyzeChildTree (fuel : nat) (node : ts.Node)
    (governingAstDeclaration : AstDeclarationRef) {struct fuel} : M unit :=
  match fuel with
  | O => λ _, OutOfFuel
  | S fuel' =>
      match kind p node with
      | ts.JSDocComment => ret tt
      | k =>
          match k with
          | ts.TypeReference | ts.ExpressionWithTypeArguments
          | ts.ComputedPropertyName =>
              noteReference fuel' node governingAstDeclaration
          | _ => ret tt
          end ;;;
          newGoverningAstDeclaration <- _fetchAstDeclaration fuel' node ;;
          forEach (getChildren p node) (λ childNode,
            _analyzeChildTree fuel' childNode
              (default governingAstDeclaration newGoverningAstDeclaration))
      end
  end.

(** Modelled from the spec: [AstDeclaration.forEachDeclarationRecursive],
    the action on the declaration, then on its children in order. *)
Fixpoint forEachDeclarationRecursive (fuel : nat) (d : AstDeclarationRef)
    (action : AstDeclarationRef → M unit) {struct fuel} : M unit :=
  match fuel with
  | O => λ _, OutOfFuel
  | S fuel' =>
      action d ;;;
      forOfLive fuel' (λ t, from_option children [] (decls t !! d)) 0
        (λ child, forEachDeclarationRecursive fuel' child action)
  end.

(** [analyze(astSymbol)]; [fuel] bounds the nesting of the calls. *)
Fixpoint analyze (fuel : nat) (a : AstSymbolRef) {struct fuel} : M unit :=
  λ t,
    if analyzed t a then Returns tt t else
    match fuel with
    | O => OutOfFuel
    | S fuel' =>
        match symbols t !! a with
        | None => Throws "TypeError: Cannot read property of undefined"
        | Some s =>
            if nominal s then _notifyAnalyzed a t else
            let rootAstSymbol := rootAstSymbol s in
            (forOfLive fuel'
               (λ t, from_option astDeclarations [] (symbols t !! rootAstSymbol)) 0
               (λ astDeclaration,
                  t <- get ;;
                  match decls t !! astDeclaration with
                  | None => throw "TypeError: Cannot read property of undefined"
                  | Some d =>
                      _analyzeChildTree fuel' (declaration d) astDeclaration
                  end) ;;;
             _notifyAnalyzed rootAstSymbol ;;;
             match sym_astImport s with
             | Some _ => ret tt
             | None =>
                 forOfLive fuel'
                   (λ t, from_option astDeclarations [] (symbols t !! rootAstSymbol)) 0
                   (λ rootDeclaration,
                      forEachDeclarationRecursive fuel' rootDeclaration
                        (λ astDeclaration,
                           forOfLive fuel'
                             (λ t, from_option referencedAstSymbols []
                                     (decls t !! astDeclaration)) 0
                             (λ referencedAstSymbol,
                                t <- get ;;
                                if negb (imported t referencedAstSymbol)
                                then analyze fuel' referencedAstSymbol
                                else ret tt)))
             end) t
        end
    end.

(** [getChildAstDeclarationByNode(node, parentAstDeclaration)] *)
Definition getChildAstDeclarationByNode (node : ts.Node)
    (parentAstDeclaration : AstDeclarationRef) : M AstDeclarationRef :=
  λ t,
    if negb (from_option (λ d, analyzed t (astSymbol d)) false
               (decls t !! parentAstDeclaration))
    then Throws "getChildDeclarationByNode() cannot be used for an AstSymbol that was not analyzed"
    else
      match _astDeclarationsByDeclaration t !! node with
      | None => Throws "Child declaration not found for the specified node"
      | Some childAstDeclaration =>
          if bool_decide ((decls t !! childAstDeclaration) ≫= parent
                          = Some parentAstDeclaration)
          then Returns childAstDeclaration t
          else Throws "Program Bug: The found child is not attached to the parent AstDeclaration"
      end.

(** The loop of [fetchEntryPoint] over the exports of the module. *)
Fixpoint collectExports (fuel : nat) (exportSymbols : list ts.Symbol)
    (exportedMembers : list IExportedMember) : M (list IExportedMember) :=
  match exportSymbols with
  | [] => ret exportedMembers
  | exportSymbol :: rest =>
      astSymbol <- _fetchAstSymbol fuel exportSymbol true ;;
      match astSymbol with
      | None => throw ("Unsupported export: " +:+ symbolName p exportSymbol)
      | Some a =>
          analyze fuel a ;;;
          collectExports fuel rest
            (exportedMembers ++
               [mkExportedMember (symbolName p exportSymbol) a])
      end
  end.

(** [fetchEntryPoint(sourceFile)] *)
Definition fetchEntryPoint (fuel : nat) (sourceFile : ts.Node)
  : M (list IExportedMember) :=
  t <- get ;;
  match _astEntryPointsBySourceFile t !! sourceFile with
  | Some astEntryPoint => ret astEntryPoint
  | None =>
      match getSymbolForDeclaration p sourceFile with
      | None => throw "TypeError: Cannot read property of undefined"
      | Some rootFileSymbol =>
          match declarations p rootFileSymbol with
          | None | Some [] =>
              throw ("Unable to find a root declaration for "
                     +:+ fileName p sourceFile)
          | Some _ =>
              exportedMembers <-
                collectExports fuel (getExportsOfModule p rootFileSymbol) [] ;;
              modify (set_astEntryPointsBySourceFile sourceFile exportedMembers) ;;;
              ret exportedMembers
          end
      end
  end.

End WithProvider.

End AstSymbolTable.

(** ** A small program to run the table on

    A local file [widget.d.ts] declares [class Widget] with a method
    [render(h: Helper)] and [interface Helper]; an external library
    re-exports a second declaration under the same origin. *)

Module Demo.

(** Syntax kinds of the compiler that the table does not name. *)
Definition ClassDeclaration : ts.SyntaxKind := ts.OtherKind 1.
Definition MethodDeclaration : ts.SyntaxKind := ts.OtherKind 2.
Definition InterfaceDeclaration : ts.SyntaxKind := ts.OtherKind 3.
Definition ParameterDeclaration : ts.SyntaxKind := ts.OtherKind 4.
Definition TypeLiteralNode : ts.SyntaxKind := ts.OtherKind 5.

(** Symbols. *)
Definition Widget : ts.Symbol := 0%nat.
Definition WidgetAlias : ts.Symbol := 1%nat.
Definition WidgetTwin : ts.Symbol := 2%nat.
Definition TypeParam : ts.Symbol := 4%nat.
Definition AmbientSym : ts.Symbol := 5%nat.
Definition render : ts.Symbol := 6%nat.
Definition FileModule : ts.Symbol := 7%nat.
Definition Odd : ts.Symbol := 8%nat.
Definition Helper : ts.Symbol := 9%nat.

(** Nodes. *)
Definition widgetClass : ts.Node := 10%nat.
Definition widgetFile : ts.Node := 11%nat.
Definition renderMethod : ts.Node := 12%nat.
Definition helperRef : ts.Node := 13%nat.
Definition helperIdent : ts.Node := 14%nat.
Definition helperInterface : ts.Node := 15%nat.
Definition oddLiteral : ts.Node := 16%nat.
Definition twinClass : ts.Node := 20%nat.
Definition twinFile : ts.Node := 21%nat.

Definition widgetOrigin : AstImport := mkAstImport "widget-lib" "Widget".

Definition demo_followAliases (s : ts.Symbol) : IFollowAliasesResult :=
  match s with
  | 1%nat => mkFollowAliasesResult Widget "W" (Some widgetOrigin) false
  | 3%nat => mkFollowAliasesResult WidgetTwin "W2" (Some widgetOrigin) false
  | 5%nat => mkFollowAliasesResult AmbientSym "Promise" None true
  | _ => mkFollowAliasesResult s "sym" None false
  end.

Definition demo_declarations (s : ts.Symbol) : option (list ts.Node) :=
  match s with
  | 0%nat => Some [widgetClass]
  | 2%nat => Some [twinClass]
  | 6%nat => Some [renderMethod]
  | 7%nat => Some [widgetFile]
  | 8%nat => Some [oddLiteral]
  | 9%nat => Some [helperInterface]
  | _ => None
  end.

Definition demo_kind (n : ts.Node) : ts.SyntaxKind :=
  match n with
  | 10%nat => ClassDeclaration
  | 11%nat => ts.SourceFile
  | 12%nat => MethodDeclaration
  | 13%nat => ts.TypeReference
  | 14%nat => ts.Identifier
  | 15%nat => InterfaceDeclaration
  | 16%nat => TypeLiteralNode
  | 20%nat => ClassDeclaration
  | 21%nat => ts.SourceFile
  | _ => ParameterDeclaration
  end.

Definition demo_ancestors (n : ts.Node) : list ts.Node :=
  match n with
  | 10%nat | 15%nat | 16%nat => [widgetFile]
  | 12%nat => [widgetClass; widgetFile]
  | 13%nat => [renderMethod; widgetClass; widgetFile]
  | 14%nat => [helperRef; renderMethod; widgetClass; widgetFile]
  | 20%nat => [twinFile]
  | _ => []
  end.

Definition demo_getChildren (n : ts.Node) : list ts.Node :=
  match n with
  | 11%nat => [widgetClass; helperInterface]
  | 10%nat => [renderMethod]
  | 12%nat => [helperRef]
  | 13%nat => [helperIdent]
  | 21%nat => [twinClass]
  | _ => []
  end.

Definition demo_getSymbolForDeclaration (n : ts.Node) : option ts.Symbol :=
  match n with
  | 10%nat => Some Widget
  | 11%nat => Some FileModule
  | 12%nat => Some render
  | 15%nat => Some Helper
  | 16%nat => Some Odd
  | 20%nat => Some WidgetTwin
  | _ => None
  end.

Definition demo : Provider := {|
  SymbolFlags_TypeParameter := 262144;
  SymbolFlags_TypeLiteral := 2048;
  SymbolFlags_Transient := 33554432;
  flags := λ s, match s with 4%nat => 262144 | 0%nat | 2%nat => 32 | _ => 64 end;
  symbolName := λ s, match s with
                     | 0%nat => "Widget" | 6%nat => "render"
                     | 9%nat => "Helper" | _ => "sym" end;
  declarations := demo_declarations;
  kind := demo_kind;
  ancestors := demo_ancestors;
  getChildren := demo_getChildren;
  getSourceFile := λ n, match n with 20%nat | 21%nat => twinFile | _ => widgetFile end;
  getText := λ _, "Helper";
  fileName := λ n, match n with 21%nat => "/node_modules/widget-lib/index.d.ts"
                                | _ => "/src/widget.d.ts" end;
  followAliases := demo_followAliases;
  isAstDeclaration := λ k, match k with
                           | ts.OtherKind 1 | ts.OtherKind 2 | ts.OtherKind 3 => true
                           | _ => false end;
  getSymbolForDeclaration := demo_getSymbolForDeclaration;
  findFirstChildNode := λ n k, match n with 13%nat => Some helperIdent | _ => None end;
  getSymbolAtLocation := λ n, match n with 14%nat => Some Helper | _ => None end;
  getExportsOfModule := λ _, [Widget];
  isSourceFileFromExternalLibrary := λ n, match n with 21%nat => true | _ => false end;
  isAedocSupportedFor := λ _, true
|}.

(** The table after a first discovery of [Widget]: through the import
    alias, and directly. *)
Definition afterImport : AstSymbolTable.AstSymbolTable :=
  match AstSymbolTable._fetchAstSymbol demo 1 WidgetAlias true
          AstSymbolTable.empty with
  | AstSymbolTable.Returns _ t => t
  | _ => AstSymbolTable.empty
  end.

Definition afterLocal : AstSymbolTable.AstSymbolTable :=
  match AstSymbolTable._fetchAstSymbol demo 1 Widget true
          AstSymbolTable.empty with
  | AstSymbolTable.Returns _ t => t
  | _ => AstSymbolTable.empty
  end.






(** The table after [analyze] of [Widget], discovered directly. *)
Definition afterAnalyze : AstSymbolTable.AstSymbolTable :=
  match AstSymbolTable.analyze demo 8 0%nat afterLocal with
  | AstSymbolTable.Returns _ t => t
  | _ => AstSymbolTable.empty
  end.

(** [String.prototype.toUpperCase] on the paths of the examples, which
    are made of ASCII characters and the long s (U+017F, in UTF-8 the bytes
    197 and 191): the ASCII letters go to upper case and the long s goes to
    [S].  Characters that the examples do not use are left as they are. *)
Fixpoint upperCase (s : string) : string :=
  match s with
  | EmptyString => EmptyString
  | String c s' =>
      match c, s' with
      | "197"%char, String "191"%char s'' => String "S"%char (upperCase s'')
      | _, _ => String (JS.upperChar c) (upperCase s')
      end
  end.

(** Two tokens of an excerpt. *)
Definition tokClass : Excerpt.ExcerptToken :=
  Excerpt.mkExcerptToken Excerpt.Content "class ".
Definition tokName : Excerpt.ExcerptToken :=
  Excerpt.mkExcerptToken Excerpt.Content "Widget".

(** Collaborators of a run that log nothing and write nothing, with POSIX
    paths. *)
Definition quiet : Extractor.Collaborators := {|
  Extractor.path_isAbsolute := λ s, match s with String "/" _ => true | _ => false end;
  Extractor.path_resolve := λ l, String.concat "/" l;
  Extractor.path_join := λ l, String.concat "/" l;
  Extractor.path_basename := λ s, s;
  Extractor.path_relative := λ _ s, s;
  Extractor.Path_isUnder := λ _ _, true;
  Extractor.buildApiPackage := λ _ lg,
    Ok (Extractor.mkContext "widget" "/pkg" (Some "dist/index.d.ts"),
        Extractor.logWarning "missing release tag" lg);
  Extractor.saveToJsonFile := λ _ lg, Ok lg;
  Extractor.dtsAnalyze := λ _ lg, Ok lg;
  Extractor.writeTypingsFile := λ _ _ _ lg, Ok lg
|}.

Definition config : Extractor.IExtractorConfig := {|
  Extractor.entryPointSourceFile := "lib/index.d.ts";
  Extractor.policies := Some tt;
  Extractor.validationRules := Some tt;
  Extractor.apiReviewFile := Some tt;
  Extractor.apiJsonFile := Some (Extractor.mkApiJsonFile true "./dist");
  Extractor.dtsRollup :=
    Some (Extractor.mkDtsRollup true false "./dist" "./dist/internal"
            "./dist/beta" "./dist/public" (Some "index.d.ts"))
|}.

Definition extractor (localBuild : bool) : Extractor.Extractor :=
  Extractor.mkExtractor config localBuild (Extractor.mkLogger 7%N 7%N) "/pkg".

(** Collaborators that log nothing at all, and a complete configuration
    without rollup or JSON output. *)
Definition silent : Extractor.Collaborators := {|
  Extractor.path_isAbsolute := Extractor.path_isAbsolute quiet;
  Extractor.path_resolve := Extractor.path_resolve quiet;
  Extractor.path_join := Extractor.path_join quiet;
  Extractor.path_basename := Extractor.path_basename quiet;
  Extractor.path_relative := Extractor.path_relative quiet;
  Extractor.Path_isUnder := Extractor.Path_isUnder quiet;
  Extractor.buildApiPackage := λ _ lg,
    Ok (Extractor.mkContext "widget" "/pkg" None, lg);
  Extractor.saveToJsonFile := Extractor.saveToJsonFile quiet;
  Extractor.dtsAnalyze := Extractor.dtsAnalyze quiet;
  Extractor.writeTypingsFile := Extractor.writeTypingsFile quiet
|}.

Definition plainConfig : Extractor.IExtractorConfig :=
  Extractor.mkConfig "lib/index.d.ts" (Some tt) (Some tt) (Some tt)
    (Some (Extractor.mkApiJsonFile false "./dist"))
    (Some (Extractor.mkDtsRollup false false "./dist" "./dist/internal"
             "./dist/beta" "./dist/public" None)).

(** A configuration whose rollup path is absolute. *)
Definition absoluteRollup : Extractor.IExtractorDtsRollupConfig :=
  Extractor.mkDtsRollup true false "./dist" "./dist/internal"
    "./dist/beta" "./dist/public" (Some "/abs/index.d.ts").

Definition absoluteRollupConfig : Extractor.IExtractorConfig :=
  Extractor.mkConfig "lib/index.d.ts" (Some tt) (Some tt) (Some tt)
    (Some (Extractor.mkApiJsonFile false "./dist")) (Some absoluteRollup).

(** The table after the entry point [widget.d.ts] is fetched. *)
Definition afterEntryPoint : AstSymbolTable.AstSymbolTable :=
  match AstSymbolTable.fetchEntryPoint demo 8 widgetFile
          AstSymbolTable.empty with
  | AstSymbolTable.Returns _ t => t
  | _ => AstSymbolTable.empty
  end.

(** The same program, with a module that exports an ambient symbol
    before [Widget]. *)
Definition ambientExport : Provider := {|
  SymbolFlags_TypeParameter := SymbolFlags_TypeParameter demo;
  SymbolFlags_TypeLiteral := SymbolFlags_TypeLiteral demo;
  SymbolFlags_Transient := SymbolFlags_Transient demo;
  flags := flags demo;
  symbolName := symbolName demo;
  declarations := declarations demo;
  kind := kind demo;
  ancestors := ancestors demo;
  getChildren := getChildren demo;
  getSourceFile := getSourceFile demo;
  getText := getText demo;
  fileName := fileName demo;
  followAliases := followAliases demo;
  isAstDeclaration := isAstDeclaration demo;
  getSymbolForDeclaration := getSymbolForDeclaration demo;
  findFirstChildNode := findFirstChildNode demo;
  getSymbolAtLocation := getSymbolAtLocation demo;
  getExportsOfModule := λ _, [AmbientSym; Widget];
  isSourceFileFromExternalLibrary := isSourceFileFromExternalLibrary demo;
  isAedocSupportedFor := isAedocSupportedFor demo
|}.

End Demo.

(** ** Repeated resolution *)

(** [n] calls of [_fetchAstSymbol] on the same symbol, one after the other;
    the results are collected in order. *)
Fixpoint resolveTimes (p : Provider) (fuel : nat) (symbol : ts.Symbol)
    (addIfMissing : bool) (n : nat)
  : AstSymbolTable.M (list (option AstSymbolRef)) :=
  match n with
  | O => AstSymbolTable.ret []
  | S n' =>
      AstSymbolTable.bind
        (AstSymbolTable._fetchAstSymbol p fuel symbol addIfMissing) (λ r,
      AstSymbolTable.bind (resolveTimes p fuel symbol addIfMissing n') (λ rs,
      AstSymbolTable.ret (r :: rs)))
  end.

(** ** Relating the table before and after a call *)

(** [s'] is the symbol [s] later in the run: declarations may have been
    attached and the analyzed flag may have been set, nothing else
    differs, and the flag is never reset. *)
Definition laterSymbol (s s' : AstSymbol) : Prop :=
  sym_localName s' = sym_localName s
  ∧ sym_followedSymbol s' = sym_followedSymbol s
  ∧ sym_astImport s' = sym_astImport s
  ∧ nominal s' = nominal s
  ∧ parentAstSymbol s' = parentAstSymbol s
  ∧ rootAstSymbol s' = rootAstSymbol s
  ∧ (_analyzed s = true → _analyzed s' = true).

(** Every symbol of [t] is still there in [t'], under the same handle. *)
Definition extends (t t' : AstSymbolTable.AstSymbolTable) : Prop :=
  ∀ a s, AstSymbolTable.symbols t !! a = Some s →
         ∃ s', AstSymbolTable.symbols t' !! a = Some s' ∧ laterSymbol s s'.

(** The two maps that resolve a symbol are the same in [t] and [t']. *)
Definition sameResolution (t t' : AstSymbolTable.AstSymbolTable) : Prop :=
  AstSymbolTable._astSymbolsBySymbol t' = AstSymbolTable._astSymbolsBySymbol t
  ∧ AstSymbolTable._astSymbolsByImportKey t'
    = AstSymbolTable._astSymbolsByImportKey t.

(** Whenever [m] returns, the tables before and after are related by [R]. *)
Definition preserves {A} (R : relation AstSymbolTable.AstSymbolTable)
    (m : AstSymbolTable.M A) : Prop :=
  ∀ t x t', m t = AstSymbolTable.Returns x t' → R t t'.

(** The handle [a] denotes a symbol of [t] whose root is a symbol of [t],
    and a nominal symbol is its own root, as it is for every symbol the
    table builds. *)
Definition validSymbol (t : AstSymbolTable.AstSymbolTable) (a : AstSymbolRef)
  : Prop :=
  ∃ s, AstSymbolTable.symbols t !! a = Some s
       ∧ is_Some (AstSymbolTable.symbols t !! rootAstSymbol s)
       ∧ (nominal s = true → rootAstSymbol s = a).

(** The shape of every table the methods build: each symbol is valid and
    the two resolution maps hold handles of symbols. *)
Definition wellFormed (t : AstSymbolTable.AstSymbolTable) : Prop :=
  (∀ a s, AstSymbolTable.symbols t !! a = Some s → validSymbol t a)
  ∧ (∀ k a, AstSymbolTable._astSymbolsBySymbol t !! k = Some a →
            is_Some (AstSymbolTable.symbols t !! a))
  ∧ (∀ k a, AstSymbolTable._astSymbolsByImportKey t !! k = Some a →
            is_Some (AstSymbolTable.symbols t !! a)).

(** A call that starts on a well-formed table ends on one. *)
Definition keepsWellFormed (t t' : AstSymbolTable.AstSymbolTable) : Prop :=
  wellFormed t → wellFormed t'.

(** The condition under which a new symbol is nominal, in the words of the
    specification. *)
Definition nominalCondition (p : Provider) (followedDeclarations : list ts.Node)
  : Prop :=
  (∃ d, followedDeclarations = [d] ∧ kind p d = ts.SourceFile)
  ∨ (∃ d rest, followedDeclarations = d :: rest
       ∧ isSourceFileFromExternalLibrary p (getSourceFile p d) = true
       ∧ isAedocSupportedFor p (fileName p (getSourceFile p d)) = false).

(** ** What stays while the table grows *)

(** [x'] is the declaration [x] later in the run: its node, its symbol and
    its parent are the same, children and references were only appended. *)
Definition laterDeclaration (x x' : AstDeclaration) : Prop :=
  declaration x' = declaration x
  ∧ astSymbol x' = astSymbol x
  ∧ parent x' = parent x
  ∧ children x `prefix_of` children x'
  ∧ referencedAstSymbols x `prefix_of` referencedAstSymbols x'.

(** Nothing built is lost from [t] to [t']: every symbol and every
    declaration is still there under its handle, changed at most by
    appending to its lists and by setting the analyzed flag, and every
    entry point that was recorded is still recorded. *)
Definition grows (t t' : AstSymbolTable.AstSymbolTable) : Prop :=
  (∀ a s, AstSymbolTable.symbols t !! a = Some s →
     ∃ s', AstSymbolTable.symbols t' !! a = Some s'
           ∧ laterSymbol s s'
           ∧ astDeclarations s `prefix_of` astDeclarations s')
  ∧ (∀ d x, AstSymbolTable.decls t !! d = Some x →
       ∃ x', AstSymbolTable.decls t' !! d = Some x' ∧ laterDeclaration x x')
  ∧ (∀ k e, AstSymbolTable._astEntryPointsBySourceFile t !! k = Some e →
            AstSymbolTable._astEntryPointsBySourceFile t' !! k = Some e).

(** The recorded entry points are the same in [t] and [t']. *)
Definition sameEntryPoints (t t' : AstSymbolTable.AstSymbolTable) : Prop :=
  AstSymbolTable._astEntryPointsBySourceFile t'
  = AstSymbolTable._astEntryPointsBySourceFile t.

(** The relation [R] holds across each of the steps by which the methods
    change the table, entry points apart: a symbol or a declaration is
    built, a flag or a reference is noted, a symbol is recorded in a
    map. *)
Definition primitivesPreserve (R : relation AstSymbolTable.AstSymbolTable)
  : Prop :=
  (∀ a, preserves R (AstSymbolTable._notifyAnalyzed a))
  ∧ (∀ localName followedSymbol astImport parentAstSymbol rootAstSymbol nominal,
       preserves R
         (AstSymbolTable.newAstSymbol localName followedSymbol astImport
            parentAstSymbol rootAstSymbol nominal))
  ∧ (∀ node owner parentDeclaration,
       preserves R
         (AstSymbolTable.bind
            (AstSymbolTable.newAstDeclaration node owner parentDeclaration)
            (λ astDeclaration,
               AstSymbolTable.modify
                 (AstSymbolTable.set_astDeclarationsByDeclaration node
                    astDeclaration))))
  ∧ (∀ d r, preserves R (AstSymbolTable._notifyReferencedAstSymbol d r))
  ∧ (∀ k a, preserves R
              (AstSymbolTable.modify (AstSymbolTable.set_astSymbolsBySymbol k a)))
  ∧ (∀ k a, preserves R
              (AstSymbolTable.modify
                 (AstSymbolTable.set_astSymbolsByImportKey k a))).

(** The map from nodes to declarations is sound: the handle recorded for
    a node is a declaration of the table, built for that node. *)
Definition declsIndexed (t : AstSymbolTable.AstSymbolTable) : Prop :=
  ∀ n h, AstSymbolTable._astDeclarationsByDeclaration t !! n = Some h →
         ∃ x, AstSymbolTable.decls t !! h = Some x ∧ declaration x = n.

Definition keepsIndexed (t t' : AstSymbolTable.AstSymbolTable) : Prop :=
  declsIndexed t → declsIndexed t'.

(** The parent links of the declarations are sound: the index by node
    is sound, and the parent of a declaration is a declaration of the
    table that was built before it, for the nearest enclosing node that
    declares something. *)
Definition declsLinked (p : Provider) (t : AstSymbolTable.AstSymbolTable)
  : Prop :=
  declsIndexed t
  ∧ (∀ h y ph, AstSymbolTable.decls t !! h = Some y → parent y = Some ph →
       (ph < h)%nat
       ∧ ∃ py, AstSymbolTable.decls t !! ph = Some py
               ∧ AstSymbolTable._tryFindFirstAstDeclarationParent p (declaration y)
                 = Some (declaration py)).

Definition keepsLinked (p : Provider) (t t' : AstSymbolTable.AstSymbolTable)
  : Prop :=
  declsLinked p t → declsLinked p t'.

(** Every node recorded in the index of [t] is recorded in that of [t']. *)
Definition indexKept (t t' : AstSymbolTable.AstSymbolTable) : Prop :=
  ∀ n, is_Some (AstSymbolTable._astDeclarationsByDeclaration t !! n) →
       is_Some (AstSymbolTable._astDeclarationsByDeclaration t' !! n).

Definition growsIndexed (t t' : AstSymbolTable.AstSymbolTable) : Prop :=
  grows t t' ∧ indexKept t t'.

(** The nodes that [_analyzeChildTree] walks from [node]: the node itself
    and the nodes below it, without the JSDoc comments and what is below
    them. *)
Inductive visited (p : Provider) : ts.Node → ts.Node → Prop :=
  | visited_here node :
      kind p node ≠ ts.JSDocComment → visited p node node
  | visited_below node childNode d :
      kind p node ≠ ts.JSDocComment →
      childNode ∈ getChildren p node →
      visited p childNode d →
      visited p node d.

(** The symbol [s] under the handle [a] sits in a forest: without parent
    it is its own root; with a parent it was built after its parent and
    has the root of its parent; a nominal symbol has no parent. *)
Definition rootedAt (t : AstSymbolTable.AstSymbolTable) (a : AstSymbolRef)
    (s : AstSymbol) : Prop :=
  match parentAstSymbol s with
  | None => rootAstSymbol s = a
  | Some q =>
      nominal s = false
      ∧ (q < a)%nat
      ∧ ∃ sq, AstSymbolTable.symbols t !! q = Some sq
              ∧ rootAstSymbol s = rootAstSymbol sq
  end.

(** The parent links of the symbols form a forest. *)
Definition rooted (t : AstSymbolTable.AstSymbolTable) : Prop :=
  ∀ a s, AstSymbolTable.symbols t !! a = Some s → rootedAt t a s.

(** A call that starts on a well-formed, rooted table ends on one. *)
Definition keepsRooted (t t' : AstSymbolTable.AstSymbolTable) : Prop :=
  wellFormed t ∧ rooted t → wellFormed t' ∧ rooted t'.

(** The number of symbols is the same in [t] and [t']. *)
Definition sameSymbolCount (t t' : AstSymbolTable.AstSymbolTable) : Prop :=
  length (AstSymbolTable.symbols t') = length (AstSymbolTable.symbols t).

(** The tables of a run: the new table, and the table after any public
    method that changes it has returned. *)
Inductive reachable (p : Provider) : AstSymbolTable.AstSymbolTable → Prop :=
  | reachable_new : reachable p AstSymbolTable.empty
  | reachable_tryGetAstSymbol fuel symbol t x t' :
      reachable p t →
      AstSymbolTable.tryGetAstSymbol p fuel symbol t
      = AstSymbolTable.Returns x t' →
      reachable p t'
  | reachable_analyze fuel a t t' :
      reachable p t →
      AstSymbolTable.analyze p fuel a t = AstSymbolTable.Returns tt t' →
      reachable p t'
  | reachable_fetchEntryPoint fuel sourceFile t ms t' :
      reachable p t →
      AstSymbolTable.fetchEntryPoint p fuel sourceFile t
      = AstSymbolTable.Returns ms t' →
      reachable p t'.

(** ** Occurrences of a character *)

(** Whether the character [c] occurs in [s]. *)
Fixpoint occurs (c : ascii) (s : string) : bool :=
  match s with
  | EmptyString => false
  | String d s' => bool_decide (d = c) || occurs c s'
  end.

(** ** Runs of the extractor *)

(** The same extractor constructed with another [localBuild] option. *)
Definition withLocalBuild (localBuild : bool) (this : Extractor.Extractor)
  : Extractor.Extractor :=
  Extractor.mkExtractor (Extractor._actualConfig this) localBuild
    (Extractor._monitoredLogger this) (Extractor._absoluteRootFolder this).

(** The entry point of a run: [options.projectConfig] when given, else the
    one of the configuration. *)
Definition entryPointOf (this : Extractor.Extractor)
    (projectConfig : option string) : string :=
  default (Extractor.entryPointSourceFile (Extractor._actualConfig this))
    projectConfig.

(** * Properties *)

(** ** Strings *)

Lemma append_cons (c : ascii) (a b : string) :
  String c a +:+ b = String c (a +:+ b).
Proof. reflexivity. Qed.

Lemma append_nil_l (b : string) : EmptyString +:+ b = b.
Proof. reflexivity. Qed.

Lemma append_nil_r (s : string) : s +:+ EmptyString = s.
Proof.
  induction s as [|c s IH]; [done|]. by rewrite append_cons, IH.
Qed.

Lemma append_assoc (a b c : string) : (a +:+ b) +:+ c = a +:+ (b +:+ c).
Proof.
  induction a as [|x a IH]; [done|]. by rewrite !append_cons, IH.
Qed.

(** ** Canonical references *)

(** C9.  [getCanonicalReference] returns [(name:static,i)] for a static
    member and [(name:instance,i)] otherwise, which is the format the
    specification spells out, and [canonicalReference] is that function
    applied to the item's own name, static flag and overload index. *)
Theorem getCanonicalReference_format (name : string) (i : Z)
    (m : ApiMethod.ApiMethod) :
  ApiMethod.getCanonicalReference name true i
    = "(" +:+ name +:+ ":static," +:+ JS.numberToString i +:+ ")"
  ∧ ApiMethod.getCanonicalReference name false i
    = "(" +:+ name +:+ ":instance," +:+ JS.numberToString i +:+ ")"
  ∧ (∀ isStatic, ApiMethod.getCanonicalReference name isStatic i
                 = ApiMethod.referenceFormat name isStatic i)
  ∧ ApiMethod.canonicalReference m
    = ApiMethod.getCanonicalReference (ApiMethod.name m)
        (ApiMethod.isStatic m) (ApiMethod.overloadIndex m).
Proof.
  repeat split. by intros [|].
Qed.

(** The two overloads of [foo] in the specification's scenario. *)
Example canonicalReference_overloads :
  ApiMethod.canonicalReference (ApiMethod.mkApiMethod "foo" false 0)
    = "(foo:instance,0)"
  ∧ ApiMethod.canonicalReference (ApiMethod.mkApiMethod "foo" false 1)
    = "(foo:instance,1)"
  ∧ ApiMethod.canonicalReference (ApiMethod.mkApiMethod "create" true 12)
    = "(create:static,12)".
Proof. by vm_compute. Qed.

(** ** Excerpts *)

Lemma tokensInRange_shift (l : list Excerpt.ExcerptToken) (i s e d : Z) :
  Excerpt.tokensInRange (i + d) (s + d) (e + d) l = Excerpt.tokensInRange i s e l.
Proof.
  revert i. induction l as [|t l IH]; intros i; simpl; [done|].
  replace (i + d + 1) with (i + 1 + d) by lia. rewrite IH.
  destruct (bool_decide (s ≤ i < e)) eqn:E.
  - rewrite bool_decide_eq_true_2; [done|]. apply bool_decide_eq_true in E. lia.
  - rewrite bool_decide_eq_false_2; [done|]. apply bool_decide_eq_false in E. lia.
Qed.

(** The tokens in a range, as a window cut with [take] and [drop]. *)
Lemma tokensInRange_window (l : list Excerpt.ExcerptToken) (s e : Z) :
  Excerpt.tokensInRange 0 s e l
  = take (Z.to_nat (e - Z.max s 0)) (drop (Z.to_nat s) l).
Proof.
  revert s e. induction l as [|t l IH]; intros s e; simpl.
  { by rewrite drop_nil, take_nil. }
  pose proof (tokensInRange_shift l 0 (s - 1) (e - 1) 1) as Hs.
  replace (s - 1 + 1) with s in Hs by lia.
  replace (e - 1 + 1) with e in Hs by lia.
  simpl in Hs. rewrite Hs, IH. clear Hs IH.
  destruct (bool_decide (s ≤ 0 < e)) eqn:E.
  - apply bool_decide_eq_true in E.
    replace (Z.to_nat s) with 0%nat by lia.
    replace (Z.to_nat (s - 1)) with 0%nat by lia.
    replace (Z.to_nat (e - Z.max s 0)) with (S (Z.to_nat (e - 1 - Z.max (s - 1) 0)))
      by lia.
    done.
  - apply bool_decide_eq_false in E.
    destruct (decide (s ≤ 0)) as [Hs|Hs].
    + replace (Z.to_nat (e - 1 - Z.max (s - 1) 0)) with 0%nat by lia.
      replace (Z.to_nat (e - Z.max s 0)) with 0%nat by lia.
      by rewrite !take_0.
    + replace (Z.to_nat s) with (S (Z.to_nat (s - 1))) by lia.
      simpl. f_equal. lia.
Qed.

(** With indices that are not negative, [slice] cuts the half-open range. *)
Lemma slice_nonneg (l : list Excerpt.ExcerptToken) (s e : Z) :
  0 ≤ s → 0 ≤ e → JS.slice l s e = Excerpt.tokensInRange 0 s e l.
Proof.
  intros Hs He. rewrite tokensInRange_window. unfold JS.slice.
  rewrite (proj2 (Z.ltb_ge s 0)), (proj2 (Z.ltb_ge e 0)) by lia.
  set (len := Z.of_nat (length l)).
  destruct (decide (len ≤ s)) as [Hge|Hlt].
  - rewrite !drop_ge by lia. by rewrite !take_nil.
  - replace (Z.min s len) with s by lia.
    destruct (decide (e ≤ len)) as [Hel|Hel].
    + f_equal. lia.
    + rewrite (take_ge _ (Z.to_nat (e - Z.max s 0))).
      2:{ rewrite length_drop. lia. }
      rewrite take_ge; [done|]. rewrite length_drop. lia.
Qed.

Lemma tokensInRange_full (l : list Excerpt.ExcerptToken) :
  Excerpt.tokensInRange 0 0 (Z.of_nat (length l)) l = l.
Proof.
  rewrite tokensInRange_window. simpl. rewrite drop_0.
  apply take_ge. lia.
Qed.

(** C8, as the code has it.  For a range whose two indices are not
    negative, a fresh excerpt's [text] is the concatenation, in order, of
    the text of the tokens in the half-open range; over the full range it
    is the concatenation of all tokens; and for every excerpt the first
    access stores the string it returns in the cache and leaves the tokens
    and the range as they are, after which an access returns the same
    string and leaves the excerpt as it is, whatever its tokens are. *)
Theorem Excerpt_text_nonnegative_range
    (tokens : list Excerpt.ExcerptToken) (s e : Z) (x : Excerpt.Excerpt) :
  0 ≤ s → 0 ≤ e →
  (Excerpt.get_text (Excerpt.new tokens (Excerpt.mkRange s e))).1
    = Excerpt.concatText (Excerpt.tokensInRange 0 s e tokens)
  ∧ (Excerpt.get_text
       (Excerpt.new tokens (Excerpt.mkRange 0 (Z.of_nat (length tokens))))).1
    = Excerpt.concatText tokens
  ∧ Excerpt.get_text (Excerpt.get_text x).2
    = ((Excerpt.get_text x).1, (Excerpt.get_text x).2)
  ∧ (∀ v tokens' range',
       Excerpt.get_text (Excerpt.mkExcerpt range' tokens' (Some v))
       = (v, Excerpt.mkExcerpt range' tokens' (Some v)))
  ∧ Excerpt._text (Excerpt.get_text x).2 = Some (Excerpt.get_text x).1
  ∧ Excerpt.tokens (Excerpt.get_text x).2 = Excerpt.tokens x
  ∧ Excerpt.tokenRange (Excerpt.get_text x).2 = Excerpt.tokenRange x
  ∧ (Excerpt._text x = None →
     (Excerpt.get_text x).1 = Excerpt.computeText x).
Proof.
  intros Hs He. split; [|split; [|split; [|split; [done|]]]].
  - unfold Excerpt.get_text, Excerpt.computeText, Excerpt.concatText. simpl.
    by rewrite slice_nonneg.
  - unfold Excerpt.get_text, Excerpt.computeText, Excerpt.concatText. simpl.
    rewrite slice_nonneg by lia. by rewrite tokensInRange_full.
  - unfold Excerpt.get_text. destruct (Excerpt._text x) eqn:E; simpl.
    + by rewrite E.
    + done.
  - unfold Excerpt.get_text.
    destruct (Excerpt._text x) eqn:E; simpl; [|done].
    repeat split; [done|]. intros [=].
Qed.

Lemma Excerpt_text_nonnegative_range_witness :
  (Excerpt.get_text (Excerpt.new [Demo.tokClass; Demo.tokName]
                       (Excerpt.mkRange 1 2))).1 = "Widget".
Proof.
  pose proof (Excerpt_text_nonnegative_range [Demo.tokClass; Demo.tokName] 1 2
                (Excerpt.new [] (Excerpt.mkRange 0 0))
                ltac:(lia) ltac:(lia)) as [H _].
  rewrite H. reflexivity.
Defined.

(** C8 as stated fails for a negative index: [slice] counts it from the
    end of the array.  Over two tokens the range [[-1, 1)] covers index 0,
    but [slice(-1, 1)] is empty. *)
Lemma Excerpt_text_negative_start :
  Excerpt.concatText
    (Excerpt.tokensInRange 0 (-1) 1 [Demo.tokClass; Demo.tokName]) = "class "
  ∧ (Excerpt.get_text (Excerpt.new [Demo.tokClass; Demo.tokName]
                         (Excerpt.mkRange (-1) 1))).1 = EmptyString
  ∧ (Excerpt.get_text (Excerpt.new [Demo.tokClass; Demo.tokName]
                         (Excerpt.mkRange (-1) 1))).1
    ≠ Excerpt.concatText
        (Excerpt.tokensInRange 0 (-1) 1 [Demo.tokClass; Demo.tokName]).
Proof. repeat split. by vm_compute. Qed.

(** ** The declaration-file pattern *)

Lemma matchHere_iff (pattern s : string) :
  Extractor.matchHere pattern s = true
  ↔ Extractor.canonical pattern = Extractor.canonical s.
Proof.
  revert s. induction pattern as [|c pattern IH]; intros [|d s]; simpl;
    try (split; [done | discriminate]); [done|].
  rewrite andb_true_iff, IH. unfold Extractor.charMatches.
  rewrite bool_decide_eq_true. split.
  - intros [-> ->]. done.
  - intros H. by injection H.
Qed.



Lemma test_iff_EndsInDts (s : string) :
  Extractor.declarationFileExtensionRegExp_test s = true
  ↔ Extractor.EndsInDts s.
Proof.
  unfold Extractor.EndsInDts. induction s as [|c s IH].
  - cbn [Extractor.declarationFileExtensionRegExp_test]. split; [done|].
    intros (stem & ext & H & Hu). destruct stem, ext; discriminate.
  - cbn [Extractor.declarationFileExtensionRegExp_test].
    rewrite orb_true_iff, IH, matchHere_iff. split.
    + intros [H | (stem & ext & -> & Hu)].
      * exists EmptyString, (String c s). split; [done|]. by rewrite <- H.
      * exists (String c stem), ext. by rewrite append_cons.
    + intros (stem & ext & H & Hu). destruct stem as [|c' stem].
      * left. rewrite append_nil_l in H. subst ext. by rewrite Hu.
      * right. rewrite append_cons in H. injection H as -> ->. eauto.
Qed.

(** ** generateFilePathsForAnalysis *)

Section GenerateFilePathsFacts.

Variable toUpperCase : string → string.
Variable isAbsolute : string → bool.

Lemma seenOf_empty : Extractor.seenOf toUpperCase [] ∅.
Proof.
  intros u. split.
  - intros H. by apply not_elem_of_empty in H.
  - intros (q & Hq & _). by apply elem_of_nil in Hq.
Qed.

Lemma seenOf_has (before : list string) (seen : gset string) (p : string) :
  Extractor.seenOf toUpperCase before seen →
  bool_decide (toUpperCase p ∈ seen)
  = existsb (Extractor.sameIgnoringCase toUpperCase p) before.
Proof.
  intros Hs. apply eq_true_iff_eq.
  rewrite bool_decide_eq_true, existsb_exists, (Hs _). split.
  - intros (q & Hq & Hu). exists q. split; [by apply list_elem_of_In|].
    unfold Extractor.sameIgnoringCase. by rewrite bool_decide_eq_true.
  - intros (q & Hq & Hu). exists q. split; [by apply list_elem_of_In|].
    unfold Extractor.sameIgnoringCase in Hu. by apply bool_decide_eq_true in Hu.
Qed.

Lemma seenOf_skip (before : list string) (seen : gset string) (p : string) :
  Extractor.seenOf toUpperCase before seen → toUpperCase p ∈ seen →
  Extractor.seenOf toUpperCase (before ++ [p]) seen.
Proof.
  intros Hs Hp u. rewrite (Hs u). split.
  - intros (q & Hq & Hu). exists q. split; [apply elem_of_app; by left | done].
  - intros (q & Hq & Hu). apply elem_of_app in Hq as [Hq | Hq].
    + eauto.
    + apply list_elem_of_singleton in Hq as ->. subst u. by apply Hs.
Qed.

Lemma seenOf_add (before : list string) (seen : gset string) (p : string) :
  Extractor.seenOf toUpperCase before seen →
  Extractor.seenOf toUpperCase (before ++ [p]) ({[ toUpperCase p ]} ∪ seen).
Proof.
  intros Hs u. rewrite elem_of_union, elem_of_singleton, (Hs u). split.
  - intros [-> | (q & Hq & Hu)].
    + exists p. split; [|done].
      apply elem_of_app. right. by apply list_elem_of_singleton.
    + exists q. split; [apply elem_of_app; by left | done].
  - intros (q & Hq & Hu). apply elem_of_app in Hq as [Hq | Hq].
    + right. eauto.
    + apply list_elem_of_singleton in Hq as ->. by left.
Qed.

(** What the loop computes from any point on. *)
Lemma generateLoop_spec (l before : list string) (seen : gset string)
    (acc : list string) :
  Extractor.seenOf toUpperCase before seen →
  Extractor.generateLoop toUpperCase isAbsolute l seen acc
  = match List.find (λ p, negb (isAbsolute p))
            (Extractor.firstOccurrencesAfter toUpperCase before l) with
    | Some p => Throw ("Input file is not an absolute path: " +:+ p)
    | None =>
        Ok (acc ++ List.filter Extractor.declarationFileExtensionRegExp_test
                     (Extractor.firstOccurrencesAfter toUpperCase before l))
    end.
Proof.
  revert before seen acc.
  induction l as [|p l IH]; intros before seen acc Hs; simpl.
  { by rewrite app_nil_r. }
  rewrite (seenOf_has before seen p Hs).
  destruct (existsb (Extractor.sameIgnoringCase toUpperCase p) before) eqn:E.
  - apply IH, seenOf_skip; [done|].
    rewrite <- (seenOf_has before seen p Hs) in E.
    by apply bool_decide_eq_true in E.
  - simpl. destruct (isAbsolute p); simpl; [|done].
    destruct (Extractor.declarationFileExtensionRegExp_test p).
    + rewrite (IH (before ++ [p]) _ (acc ++ [p])) by by apply seenOf_add.
      destruct (List.find _ _); [done|]. by rewrite <- app_assoc.
    + by apply IH, seenOf_add.
Qed.

Lemma firstOccurrencesAfter_distinct (l before : list string) :
  NoDup (toUpperCase <$> Extractor.firstOccurrencesAfter toUpperCase before l)
  ∧ ∀ x, x ∈ Extractor.firstOccurrencesAfter toUpperCase before l →
         x ∈ l ∧ (toUpperCase x ∉ (toUpperCase <$> before)).
Proof.
  revert before. induction l as [|p l IH]; intros before; simpl.
  { split; [constructor | intros x Hx; by apply elem_of_nil in Hx]. }
  destruct (IH (before ++ [p])) as [Hnd Hin].
  assert (Hrest : ∀ x,
            x ∈ Extractor.firstOccurrencesAfter toUpperCase (before ++ [p]) l →
            x ∈ p :: l ∧ (toUpperCase x ∉ (toUpperCase <$> before))
            ∧ toUpperCase x ≠ toUpperCase p).
  { intros x Hx. destruct (Hin x Hx) as [Hl Hb].
    rewrite fmap_app, elem_of_app in Hb. simpl in Hb.
    repeat split;
      [apply elem_of_cons; by right | intros ?; apply Hb; by left |].
    intros Heq. apply Hb. right. rewrite Heq. by apply list_elem_of_singleton. }
  destruct (existsb (Extractor.sameIgnoringCase toUpperCase p) before) eqn:E.
  - split; [done|]. intros x Hx. destruct (Hrest x Hx) as (? & ? & ?). done.
  - split.
    + rewrite fmap_cons. constructor; [|done].
      intros Hp. apply list_elem_of_fmap in Hp as (x & Hu & Hx).
      destruct (Hrest x Hx) as (_ & _ & Hne). congruence.
    + intros x Hx. apply elem_of_cons in Hx as [-> | Hx].
      * split; [apply elem_of_cons; by left|]. intros Hp.
        apply list_elem_of_fmap in Hp as (q & Hu & Hq).
        apply not_true_iff_false in E. apply E.
        apply existsb_exists. exists q. split; [by apply list_elem_of_In|].
        unfold Extractor.sameIgnoringCase. by rewrite bool_decide_eq_true.
      * destruct (Hrest x Hx) as (? & ? & ?). done.
Qed.

(** Dropping elements keeps the upper-case forms distinct. *)
Lemma NoDup_fmap_filter (f : string → bool) (l : list string) :
  NoDup (toUpperCase <$> l) → NoDup (toUpperCase <$> List.filter f l).
Proof.
  induction l as [|x l IH]; simpl; [done|].
  intros Hnd. apply NoDup_cons in Hnd as [Hx Hnd].
  destruct (f x); [|by apply IH].
  rewrite fmap_cons. apply NoDup_cons. split; [|by apply IH].
  intros Hin. apply Hx. apply list_elem_of_fmap in Hin as (y & -> & Hy).
  apply list_elem_of_fmap_2. apply list_elem_of_In, filter_In in Hy as [Hy _].
  by apply list_elem_of_In.
Qed.

(** When paths with the same upper-case form are declaration files
    together or not at all, removing duplicates and keeping the declaration
    files commute. *)
Section SameCaseSameKind.

Hypothesis Hkind : ∀ x y,
  toUpperCase x = toUpperCase y →
  Extractor.declarationFileExtensionRegExp_test x
  = Extractor.declarationFileExtensionRegExp_test y.



End SameCaseSameKind.

End GenerateFilePathsFacts.




(** A run of the function: duplicates up to case are dropped, files that
    are not declaration files are dropped, and a relative path throws even
    when it is not a declaration file. *)
Example generateFilePathsForAnalysis_runs :
  Extractor.generateFilePathsForAnalysis Demo.upperCase
    (Extractor.path_isAbsolute Demo.quiet)
    ["/a/x.d.ts"; "/A/X.D.TS"; "/a/y.ts"; "/a/z.D.Ts"; "/a/x.d.ts"]
  = Ok ["/a/x.d.ts"; "/a/z.D.Ts"]
  ∧ Extractor.generateFilePathsForAnalysis Demo.upperCase
      (Extractor.path_isAbsolute Demo.quiet)
      ["/a/x.d.ts"; "rel/y.ts"]
    = Throw "Input file is not an absolute path: rel/y.ts"
  ∧ Extractor.generateFilePathsForAnalysis Demo.upperCase
      (Extractor.path_isAbsolute Demo.quiet)
      ["/a/x.d.ts"; "/A/X.D.TS"; "/a/X.d.ts"]
    = Ok ["/a/x.d.ts"].
Proof. by vm_compute. Qed.

(** ** processProject *)

(** C7.  When [processProject] returns, its boolean is decided by the
    counters of the monitored logger at the end of the call: for a local
    build it is true exactly when no error was counted, otherwise exactly
    when neither an error nor a warning was counted.  The counters are
    reset when the call starts, so what they held before has no influence
    on the call. *)
Theorem processProject_result (env : Extractor.Collaborators)
    (this this' : Extractor.Extractor) (projectConfig : option string)
    (b : bool) :
  Extractor.processProject env this projectConfig = Ok (b, this') →
  (b = true ↔
     if Extractor._localBuild this
     then Extractor.errorCount (Extractor._monitoredLogger this') = 0%N
     else Extractor.errorCount (Extractor._monitoredLogger this') = 0%N
          ∧ Extractor.warningCount (Extractor._monitoredLogger this') = 0%N)
  ∧ ∀ before,
      Extractor.processProject env
        (Extractor.mkExtractor (Extractor._actualConfig this)
           (Extractor._localBuild this) before
           (Extractor._absoluteRootFolder this)) projectConfig
      = Ok (b, this').
Proof.
  intros H. split.
  - unfold Extractor.processProject, Extractor.bindR in H.
    repeat match type of H with
           | context [match ?x with _ => _ end] =>
               destruct x eqn:?; try discriminate
           end.
    all: injection H as <- <-; simpl.
    all: rewrite bool_decide_eq_true; lia.
  - intros before. rewrite <- H. by destruct this.
Qed.

Lemma processProject_result_witness :
  ∃ this',
    Extractor.processProject Demo.quiet (Demo.extractor true) None
    = Ok (true, this')
    ∧ Extractor.errorCount (Extractor._monitoredLogger this') = 0%N
    ∧ Extractor.warningCount (Extractor._monitoredLogger this') = 1%N.
Proof.
  eexists. split; [by vm_compute|].
  split; [|by vm_compute].
  eapply (processProject_result Demo.quiet (Demo.extractor true) _ None true);
    [by vm_compute | done].
Defined.

(** One warning and no error: a local build passes, any other build
    fails. *)
Example processProject_warning_only :
  fst <$> (match Extractor.processProject Demo.quiet (Demo.extractor true) None
           with Ok r => Some r | Throw _ => None end) = Some true
  ∧ fst <$> (match Extractor.processProject Demo.quiet (Demo.extractor false) None
             with Ok r => Some r | Throw _ => None end) = Some false.
Proof. by vm_compute. Qed.

(** ** The symbol table: how calls compose *)

Import AstSymbolTable.

#[local] Instance laterSymbol_refl : Reflexive laterSymbol.
Proof. intros s. by repeat split. Qed.

#[local] Instance laterSymbol_trans : Transitive laterSymbol.
Proof.
  intros s1 s2 s3 (?&?&?&?&?&?&?) (?&?&?&?&?&?&?).
  repeat split; try congruence. eauto.
Qed.

#[local] Instance extends_preorder : PreOrder extends.
Proof.
  split.
  - intros t a s H. by exists s.
  - intros t1 t2 t3 H12 H23 a s H.
    destruct (H12 a s H) as (s2 & H2 & L2).
    destruct (H23 a s2 H2) as (s3 & H3 & L3).
    exists s3. split; [done|]. by transitivity s2.
Qed.

#[local] Instance sameResolution_preorder : PreOrder sameResolution.
Proof.
  split.
  - by intros t.
  - intros t1 t2 t3 [? ?] [? ?]. split; congruence.
Qed.

Lemma extends_length (t t' : AstSymbolTable) :
  extends t t' → (length (symbols t) ≤ length (symbols t'))%nat.
Proof.
  intros H. destruct (symbols t) as [|s0 l] eqn:E using rev_ind.
  { simpl. lia. }
  clear IHl. destruct (H (length l) s0) as (s' & Hs' & _).
  { rewrite E. by apply list_lookup_middle. }
  apply lookup_lt_Some in Hs'. rewrite length_app. simpl. lia.
Qed.

Section Composition.

Context (R : relation AstSymbolTable) `{!PreOrder R}.

Lemma preserves_ret {A} (x : A) : preserves R (ret x).
Proof. intros t y t' H. injection H as _ <-. reflexivity. Qed.

Lemma preserves_throw {A} (e : string) : preserves R (@throw A e).
Proof. intros t y t' H. discriminate. Qed.

Lemma preserves_OutOfFuel {A} : preserves R (λ _, @OutOfFuel A).
Proof. intros t y t' H. discriminate. Qed.

Lemma preserves_get : preserves R get.
Proof. intros t y t' H. injection H as _ <-. reflexivity. Qed.

Lemma preserves_modify (f : AstSymbolTable → AstSymbolTable) :
  (∀ t, R t (f t)) → preserves R (modify f).
Proof. intros Hf t y t' H. injection H as _ <-. apply Hf. Qed.

Lemma preserves_bind {A B} (m : M A) (k : A → M B) :
  preserves R m → (∀ x, preserves R (k x)) → preserves R (bind m k).
Proof.
  intros Hm Hk t y t' H. unfold bind in H.
  destruct (m t) as [x t1| |] eqn:E; try discriminate.
  transitivity t1; [by eapply Hm | by eapply Hk].
Qed.

Lemma preserves_forEach {A} (xs : list A) (body : A → M unit) :
  (∀ x, preserves R (body x)) → preserves R (forEach xs body).
Proof.
  intros Hb. induction xs as [|x xs IH]; simpl.
  - apply preserves_ret.
  - apply preserves_bind; [apply Hb | by intros _].
Qed.

Lemma preserves_forOfLive {A} (fuel : nat) (read : AstSymbolTable → list A)
    (i : nat) (body : A → M unit) :
  (∀ x, preserves R (body x)) → preserves R (forOfLive fuel read i body).
Proof.
  intros Hb. revert i. induction fuel as [|fuel IH]; intros i t y t' H;
    simpl in H; destruct (read t !! i) as [x|] eqn:E; try discriminate.
  - injection H as _ <-. reflexivity.
  - revert H. apply (preserves_bind (body x) (λ _, forOfLive fuel read (S i) body)).
    + apply Hb.
    + intros _. apply IH.
  - injection H as _ <-. reflexivity.
Qed.

Lemma preserves_fun {A} (m : M A) :
  (∀ t, preserves R (λ _, m t)) → preserves R m.
Proof. intros H t y t' E. by apply (H t t y t'). Qed.

End Composition.

(** Side goals about the relation itself. *)
Ltac solve_preorder :=
  try lazymatch goal with |- PreOrder _ => apply _ end.

(** One step of a preservation proof: peel the outermost construct. *)
Ltac preserves_step :=
  lazymatch goal with
  | |- preserves _ (bind _ _) =>
      apply preserves_bind; solve_preorder; [| intros ?]
  | |- preserves _ (ret _) => apply preserves_ret; solve_preorder
  | |- preserves _ (throw _) => apply preserves_throw
  | |- preserves _ get => apply preserves_get; solve_preorder
  | |- preserves _ (forEach _ _) =>
      apply preserves_forEach; solve_preorder; intros ?
  | |- preserves _ (forOfLive _ _ _ _) =>
      apply preserves_forOfLive; solve_preorder; intros ?
  | |- preserves _ (λ _, OutOfFuel) => apply preserves_OutOfFuel
  | |- preserves _ (match ?x with _ => _ end) => destruct x eqn:?
  end.

Create HintDb preserves discriminated.

(** ** The symbol table: what each primitive touches *)

(** A construction that returned passed the check and attached. *)
Lemma newAstDeclaration_Returns node owner pd t d t' :
  newAstDeclaration node owner pd t = Returns d t' →
  from_option (ownerAnalyzed t) false pd = false
  ∧ attachAstDeclaration node owner pd t = Returns d t'.
Proof.
  unfold newAstDeclaration. by destruct (from_option _ _ _).
Qed.

Lemma preserves_newAstDeclaration (R : relation AstSymbolTable) node owner pd :
  preserves R (attachAstDeclaration node owner pd) →
  preserves R (newAstDeclaration node owner pd).
Proof.
  intros Ha t d t' H. apply newAstDeclaration_Returns in H as [_ H].
  by eapply Ha.
Qed.

(** A reference is noted by changing one declaration, when it is noted. *)
Lemma preserves_notifyReferencedAstSymbol (R : relation AstSymbolTable) d r :
  (∀ t, R t (set_decls (alter (λ x,
          if bool_decide (r ∈ referencedAstSymbols x) then x
          else mkAstDeclaration (declaration x) (astSymbol x) (parent x)
                 (children x) (referencedAstSymbols x ++ [r])) d) t)) →
  preserves R (_notifyReferencedAstSymbol d r).
Proof.
  intros HR t x t' H. unfold _notifyReferencedAstSymbol in H.
  destruct (_ && _); [discriminate|]. injection H as _ <-. apply HR.
Qed.

(** The table after a declaration was built and recorded: [H] is the run
    of the constructor followed by the update of the index. *)
Ltac attached H :=
  cbv beta iota delta [bind newAstDeclaration] in H;
  destruct (from_option (ownerAnalyzed _) false _) eqn:?;
    [cbv beta iota in H; discriminate|];
  cbv beta zeta iota delta [bind attachAstDeclaration modify] in H.

Lemma extends_same_symbols (t t' : AstSymbolTable) :
  symbols t' = symbols t → extends t t'.
Proof. intros E a s H. exists s. by rewrite E. Qed.

Lemma extends_alter (f : AstSymbol → AstSymbol) (a : AstSymbolRef)
    (t : AstSymbolTable) :
  (∀ s, laterSymbol s (f s)) → extends t (set_symbols (alter f a) t).
Proof.
  intros Hf b s H. simpl. destruct (decide (a = b)) as [->|Hne].
  - exists (f s). rewrite list_lookup_alter_eq, H. done.
  - exists s. by rewrite list_lookup_alter_ne.
Qed.

Lemma extends_push (l : list AstSymbol) (t : AstSymbolTable) :
  extends t (set_symbols (λ old, old ++ l) t).
Proof.
  intros a s H. exists s. split; [|done]. simpl.
  rewrite lookup_app_l; [done|]. by eapply lookup_lt_Some.
Qed.

Lemma extends_notifyAnalyzed (a : AstSymbolRef) :
  preserves extends (_notifyAnalyzed a).
Proof.
  apply preserves_modify; solve_preorder. intros t.
  apply extends_alter. intros s. by repeat split.
Qed.

Lemma extends_newAstSymbol localName followedSymbol astImport parentAstSymbol
    rootAstSymbol nominal :
  preserves extends
    (newAstSymbol localName followedSymbol astImport parentAstSymbol
       rootAstSymbol nominal).
Proof. intros t a t' H. injection H as _ <-. apply extends_push. Qed.

Lemma extends_newAstDeclaration node owner parentDeclaration :
  preserves extends (newAstDeclaration node owner parentDeclaration).
Proof.
  apply preserves_newAstDeclaration.
  intros t d t' H. injection H as _ <-.
  transitivity (set_symbols (alter (λ s,
      mkAstSymbol (sym_localName s) (sym_followedSymbol s) (sym_astImport s)
        (nominal s) (parentAstSymbol s) (rootAstSymbol s)
        (astDeclarations s ++ [length (decls t)]) (_analyzed s)) owner) t).
  - apply extends_alter. intros s. by repeat split.
  - apply extends_same_symbols. by destruct parentDeclaration.
Qed.

Lemma extends_notifyReferencedAstSymbol d r :
  preserves extends (_notifyReferencedAstSymbol d r).
Proof.
  apply preserves_notifyReferencedAstSymbol; solve_preorder. intros t. by apply extends_same_symbols.
Qed.

Lemma extends_set_astSymbolsBySymbol k a :
  preserves extends (modify (set_astSymbolsBySymbol k a)).
Proof.
  apply preserves_modify; solve_preorder. intros t. by apply extends_same_symbols.
Qed.

Lemma extends_set_astSymbolsByImportKey k a :
  preserves extends (modify (set_astSymbolsByImportKey k a)).
Proof.
  apply preserves_modify; solve_preorder. intros t. by apply extends_same_symbols.
Qed.

Lemma extends_set_astDeclarationsByDeclaration k d :
  preserves extends (modify (set_astDeclarationsByDeclaration k d)).
Proof.
  apply preserves_modify; solve_preorder. intros t. by apply extends_same_symbols.
Qed.

Lemma extends_set_astEntryPointsBySourceFile k e :
  preserves extends (modify (set_astEntryPointsBySourceFile k e)).
Proof.
  apply preserves_modify; solve_preorder. intros t. by apply extends_same_symbols.
Qed.

Lemma preserves_checkImportStatus (R : relation AstSymbolTable)
    `{!PreOrder R} (r : IFollowAliasesResult) (a : AstSymbolRef) :
  preserves R (checkImportStatus r a).
Proof.
  intros t x t' H. unfold checkImportStatus in H.
  destruct (_ && _); [discriminate|]. injection H as _ <-. reflexivity.
Qed.

#[local] Hint Resolve extends_notifyAnalyzed extends_newAstSymbol
  extends_newAstDeclaration extends_notifyReferencedAstSymbol
  extends_set_astSymbolsBySymbol extends_set_astSymbolsByImportKey
  extends_set_astDeclarationsByDeclaration
  extends_set_astEntryPointsBySourceFile : preserves.
#[local] Hint Extern 1 (preserves _ (checkImportStatus _ _)) =>
  apply preserves_checkImportStatus; solve_preorder : preserves.

Section TableFacts.

Variable p : Provider.

Lemma extends_checkDeclarationKinds followedSymbol followedDeclarations :
  preserves extends (checkDeclarationKinds p followedSymbol followedDeclarations).
Proof.
  unfold checkDeclarationKinds. repeat preserves_step.
Qed.

Lemma extends_createDeclarations astSymbol parentAstSymbol followedDeclarations :
  preserves extends
    (createDeclarations p astSymbol parentAstSymbol followedDeclarations).
Proof.
  unfold createDeclarations. repeat preserves_step; auto with preserves.
Qed.

Lemma extends_constructAstSymbol r followedDeclarations nominal parentAstSymbol :
  preserves extends
    (constructAstSymbol p r followedDeclarations nominal parentAstSymbol).
Proof.
  unfold constructAstSymbol. cbv zeta.
  repeat preserves_step; auto using extends_createDeclarations with preserves.
Qed.

Lemma extends_fetchAstSymbol fuel symbol addIfMissing :
  preserves extends (_fetchAstSymbol p fuel symbol addIfMissing).
Proof.
  revert symbol addIfMissing.
  induction fuel as [|fuel IH]; intros symbol addIfMissing;
    cbn [_fetchAstSymbol]; cbv zeta;
    repeat preserves_step;
    auto using extends_checkDeclarationKinds, extends_constructAstSymbol
      with preserves.
Qed.

End TableFacts.

Section AnalyzeFacts.

Variable p : Provider.

Lemma extends_fetchAstDeclaration fuel node :
  preserves extends (_fetchAstDeclaration p fuel node).
Proof.
  unfold _fetchAstDeclaration, _fetchAstSymbolForNode.
  repeat preserves_step; auto using extends_fetchAstSymbol.
Qed.

Lemma extends_noteReference fuel node governingAstDeclaration :
  preserves extends (noteReference p fuel node governingAstDeclaration).
Proof.
  unfold noteReference.
  repeat preserves_step; auto using extends_fetchAstSymbol with preserves.
Qed.

Lemma extends_analyzeChildTree fuel node governingAstDeclaration :
  preserves extends (_analyzeChildTree p fuel node governingAstDeclaration).
Proof.
  revert node governingAstDeclaration.
  induction fuel as [|fuel IH]; intros node governingAstDeclaration;
    cbn [_analyzeChildTree]; repeat preserves_step;
    auto using extends_fetchAstDeclaration, extends_noteReference.
Qed.

Lemma extends_forEachDeclarationRecursive fuel d action :
  (∀ x, preserves extends (action x)) →
  preserves extends (forEachDeclarationRecursive fuel d action).
Proof.
  intros Ha. revert d.
  induction fuel as [|fuel IH]; intros d;
    cbn [forEachDeclarationRecursive]; repeat preserves_step; auto.
Qed.

Lemma extends_analyze fuel a : preserves extends (analyze p fuel a).
Proof.
  revert a. induction fuel as [|fuel IH]; intros a t x t' H;
    cbn [analyze] in H; destruct (analyzed t a);
    try (injection H as _ <-; reflexivity); try discriminate.
  destruct (symbols t !! a) as [s|]; [|discriminate].
  destruct (nominal s); [by eapply extends_notifyAnalyzed|].
  revert H.
  match goal with
  | |- ?m t = _ → _ => cut (preserves extends m); [intros Hp; apply Hp|]
  end.
  repeat preserves_step;
    auto using extends_analyzeChildTree, extends_forEachDeclarationRecursive
      with preserves.
  apply extends_forEachDeclarationRecursive. intros d.
  repeat preserves_step; auto.
Qed.

End AnalyzeFacts.

(** ** Resolution of a symbol *)

Lemma bind_Returns {A B} (m : M A) (k : A → M B) t y t' :
  bind m k t = Returns y t' →
  ∃ x t1, m t = Returns x t1 ∧ k x t1 = Returns y t'.
Proof.
  unfold bind. destruct (m t) as [x t1| |]; try discriminate. eauto.
Qed.

Lemma bind_Throws {A B} (m : M A) (k : A → M B) t e :
  m t = Throws e → bind m k t = Throws e.
Proof. unfold bind. by intros ->. Qed.

Lemma land_discardedFlags (p : Provider) (f : Z) :
  Z.land f (discardedFlags p) = 0
  ↔ Z.land f (SymbolFlags_TypeParameter p) = 0
    ∧ Z.land f (SymbolFlags_TypeLiteral p) = 0
    ∧ Z.land f (SymbolFlags_Transient p) = 0.
Proof.
  unfold discardedFlags.
  rewrite !Z.land_lor_distr_r, !Z.lor_eq_0_iff. tauto.
Qed.

Section Resolution.

Variable p : Provider.

(** Steps 1 and 2: a symbol of a discarded kind, or an ambient one. *)
Lemma fetch_discarded fuel symbol addIfMissing t :
  Z.land (flags p (followedSymbol (followAliases p symbol))) (discardedFlags p) ≠ 0
  ∨ isAmbient (followAliases p symbol) = true →
  _fetchAstSymbol p fuel symbol addIfMissing t = Returns None t.
Proof.
  intros H. destruct fuel; cbn [_fetchAstSymbol]; cbv zeta.
  all: destruct (bool_decide _) eqn:E; [done|].
  all: apply bool_decide_eq_false in E.
  all: destruct H as [H | ->]; [by destruct E | done].
Qed.

(** Step 3: the followed symbol is mapped by identity. *)
Lemma fetch_by_identity fuel symbol addIfMissing t a :
  Z.land (flags p (followedSymbol (followAliases p symbol))) (discardedFlags p) = 0 →
  isAmbient (followAliases p symbol) = false →
  _astSymbolsBySymbol t !! followedSymbol (followAliases p symbol) = Some a →
  _fetchAstSymbol p fuel symbol addIfMissing t
  = checkImportStatus (followAliases p symbol) a t.
Proof.
  intros Hf Ha Hm. destruct fuel; cbn [_fetchAstSymbol]; cbv zeta.
  all: rewrite bool_decide_eq_false_2 by (intros Hn; by apply Hn).
  all: rewrite Ha; unfold bind, get; by rewrite Hm.
Qed.

(** A followed symbol that is not mapped and has no declaration. *)
Lemma fetch_no_declarations fuel symbol addIfMissing t :
  Z.land (flags p (followedSymbol (followAliases p symbol))) (discardedFlags p) = 0 →
  isAmbient (followAliases p symbol) = false →
  _astSymbolsBySymbol t !! followedSymbol (followAliases p symbol) = None →
  declarations p (followedSymbol (followAliases p symbol)) = None
  ∨ declarations p (followedSymbol (followAliases p symbol)) = Some [] →
  _fetchAstSymbol p fuel symbol addIfMissing t
  = Throws "Program Bug: Followed a symbol with no declarations".
Proof.
  intros Hf Ha Hm Hd. destruct fuel; cbn [_fetchAstSymbol]; cbv zeta.
  all: rewrite bool_decide_eq_false_2 by (intros Hn; by apply Hn).
  all: rewrite Ha; unfold bind at 1, get; rewrite Hm.
  all: by destruct Hd as [-> | ->].
Qed.

(** Step 4: the followed symbol is new, its import key is mapped. *)
Lemma fetch_by_import_key fuel symbol addIfMissing t a i d ds :
  Z.land (flags p (followedSymbol (followAliases p symbol))) (discardedFlags p) = 0 →
  isAmbient (followAliases p symbol) = false →
  _astSymbolsBySymbol t !! followedSymbol (followAliases p symbol) = None →
  declarations p (followedSymbol (followAliases p symbol)) = Some (d :: ds) →
  astImport (followAliases p symbol) = Some i →
  _astSymbolsByImportKey t !! AstImport_key i = Some a →
  _fetchAstSymbol p fuel symbol addIfMissing t
  = checkImportStatus (followAliases p symbol) a
      (set_astSymbolsBySymbol (followedSymbol (followAliases p symbol)) a t).
Proof.
  intros Hf Ha Hm Hd Hi Hk. destruct fuel; cbn [_fetchAstSymbol]; cbv zeta.
  all: rewrite bool_decide_eq_false_2 by (intros Hn; by apply Hn).
  all: rewrite Ha; unfold bind at 1, get; rewrite Hm, Hd, Hi; simpl.
  all: by rewrite Hk.
Qed.

End Resolution.

(** C5.  When the followed symbol is a type parameter, an anonymous type
    literal or a transient construct, or when alias-following reports the
    symbol as ambient, [_fetchAstSymbol] returns absent and leaves the
    table as it was, whatever [addIfMissing] is; so any number of
    resolutions of such a symbol return absent each time and build
    nothing. *)
Theorem fetchAstSymbol_discards (p : Provider) (fuel : nat) (symbol : ts.Symbol)
    (addIfMissing : bool) (t : AstSymbolTable) (n : nat) :
  Z.land (flags p (followedSymbol (followAliases p symbol)))
    (SymbolFlags_TypeParameter p) ≠ 0
  ∨ Z.land (flags p (followedSymbol (followAliases p symbol)))
      (SymbolFlags_TypeLiteral p) ≠ 0
  ∨ Z.land (flags p (followedSymbol (followAliases p symbol)))
      (SymbolFlags_Transient p) ≠ 0
  ∨ isAmbient (followAliases p symbol) = true →
  _fetchAstSymbol p fuel symbol addIfMissing t = Returns None t
  ∧ resolveTimes p fuel symbol addIfMissing n t = Returns (replicate n None) t.
Proof.
  intros H.
  assert (Hd : Z.land (flags p (followedSymbol (followAliases p symbol)))
                 (discardedFlags p) ≠ 0
               ∨ isAmbient (followAliases p symbol) = true).
  { destruct H as [H | [H | [H | H]]]; [left | left | left | by right];
      rewrite land_discardedFlags; tauto. }
  split; [by apply fetch_discarded|].
  induction n as [|n IH]; simpl; [done|].
  unfold bind at 1. rewrite (fetch_discarded p fuel symbol addIfMissing t Hd).
  unfold bind at 1. by rewrite IH.
Qed.

Lemma fetchAstSymbol_discards_witness :
  _fetchAstSymbol Demo.demo 0 Demo.TypeParam true empty = Returns None empty
  ∧ resolveTimes Demo.demo 3 Demo.AmbientSym true 2 Demo.afterLocal
    = Returns [None; None] Demo.afterLocal.
Proof.
  split.
  - apply (fetchAstSymbol_discards Demo.demo 0 Demo.TypeParam true empty 0).
    left. by vm_compute.
  - apply (fetchAstSymbol_discards Demo.demo 3 Demo.AmbientSym true
             Demo.afterLocal 2).
    right. right. right. reflexivity.
Defined.

(** ** Import status *)

Lemma imported_stable (t t' : AstSymbolTable) (a : AstSymbolRef) :
  extends t t' → validSymbol t a → imported t' a = imported t a.
Proof.
  intros He (s & Hs & [r Hr] & _). unfold imported.
  destruct (He a s Hs) as (s' & Hs' & L).
  destruct (He _ r Hr) as (r' & Hr' & Lr).
  destruct L as (_ & _ & _ & _ & _ & Hroot & _).
  destruct Lr as (_ & _ & Himp & _).
  by rewrite Hs, Hs', Hroot, Hr, Hr', Himp.
Qed.

Lemma analyzed_mono (t t' : AstSymbolTable) (a : AstSymbolRef) :
  extends t t' → analyzed t a = true → analyzed t' a = true.
Proof.
  intros He. unfold analyzed.
  destruct (symbols t !! a) as [s|] eqn:Hs; [|discriminate].
  destruct (symbols t !! rootAstSymbol s) as [r|] eqn:Hr; [|discriminate].
  destruct (He a s Hs) as (s' & Hs' & L).
  destruct (He _ r Hr) as (r' & Hr' & Lr).
  destruct L as (_ & _ & _ & _ & _ & Hroot & _).
  destruct Lr as (_ & _ & _ & _ & _ & _ & Han).
  rewrite Hs', Hroot, Hr'. exact Han.
Qed.

(** C2, as the code has it.  Let the followed symbol be registered
    already.  Resolving it with an external import while the registered
    symbol is not imported throws.  Resolving it without an external
    import returns the registered symbol and changes nothing, also when
    the registered symbol is imported.  Further resolutions of any symbol
    never change whether the registered symbol is imported. *)
Theorem import_status_conflict (p : Provider) (fuel : nat) (symbol : ts.Symbol)
    (addIfMissing : bool) (t : AstSymbolTable) (a : AstSymbolRef) :
  Z.land (flags p (followedSymbol (followAliases p symbol))) (discardedFlags p) = 0 →
  isAmbient (followAliases p symbol) = false →
  _astSymbolsBySymbol t !! followedSymbol (followAliases p symbol) = Some a →
  (is_Some (astImport (followAliases p symbol)) → imported t a = false →
     throws (_fetchAstSymbol p fuel symbol addIfMissing t) = true)
  ∧ (astImport (followAliases p symbol) = None →
       _fetchAstSymbol p fuel symbol addIfMissing t = Returns (Some a) t)
  ∧ (∀ fuel' symbol' addIfMissing' x t',
       validSymbol t a →
       _fetchAstSymbol p fuel' symbol' addIfMissing' t = Returns x t' →
       imported t' a = imported t a).
Proof.
  intros Hf Ha Hm.
  rewrite (fetch_by_identity p fuel symbol addIfMissing t a Hf Ha Hm).
  unfold checkImportStatus. repeat split.
  - intros Hi Himp. rewrite Himp, bool_decide_eq_true_2 by done. done.
  - intros ->. rewrite bool_decide_eq_false_2; [done|]. by intros [? ?].
  - intros fuel' symbol' addIfMissing' x t' Hv H.
    apply imported_stable; [|done]. by eapply extends_fetchAstSymbol.
Qed.

Lemma import_status_conflict_witness :
  throws (_fetchAstSymbol Demo.demo 1 Demo.WidgetAlias true Demo.afterLocal)
  = true
  ∧ _fetchAstSymbol Demo.demo 1 Demo.Widget true Demo.afterLocal
    = Returns (Some 0%nat) Demo.afterLocal.
Proof.
  split.
  - destruct (import_status_conflict Demo.demo 1 Demo.WidgetAlias true
                Demo.afterLocal 0) as (H & _ & _);
      [by vm_compute | reflexivity | by vm_compute |].
    apply H; [by eexists | by vm_compute].
  - destruct (import_status_conflict Demo.demo 1 Demo.Widget true
                Demo.afterLocal 0) as (_ & H & _);
      [by vm_compute | reflexivity | by vm_compute |].
    by apply H.
Defined.

(** C2 as stated fails in one direction: [Widget] is registered as
    imported (first reached through an import alias), and resolving it
    afterwards without an external import does not throw; it returns the
    registered symbol. *)
Lemma import_status_reverse_not_fatal :
  _astSymbolsBySymbol Demo.afterImport !! Demo.Widget = Some 0%nat
  ∧ imported Demo.afterImport 0 = true
  ∧ followedSymbol (followAliases Demo.demo Demo.Widget) = Demo.Widget
  ∧ astImport (followAliases Demo.demo Demo.Widget) = None
  ∧ throws (_fetchAstSymbol Demo.demo 1 Demo.Widget true Demo.afterImport)
    = false
  ∧ _fetchAstSymbol Demo.demo 1 Demo.Widget true Demo.afterImport
    = Returns (Some 0%nat) Demo.afterImport.
Proof. repeat split; by vm_compute. Qed.

(** ** tryGetAstSymbol *)

Lemma bind_pointwise {A B} (m m' : M A) (k k' : A → M B) :
  pointwise_relation _ eq m m' →
  (∀ x, pointwise_relation _ eq (k x) (k' x)) →
  pointwise_relation _ eq (bind m k) (bind m' k').
Proof.
  intros Hm Hk t. unfold bind. rewrite (Hm t).
  destruct (m' t); [apply Hk | done | done].
Qed.

(** The flag [addIfMissing] has no influence on a resolution. *)
Lemma fetchAstSymbol_ignores_addIfMissing (p : Provider) (fuel : nat)
    (symbol : ts.Symbol) (b b' : bool) (t : AstSymbolTable) :
  _fetchAstSymbol p fuel symbol b t = _fetchAstSymbol p fuel symbol b' t.
Proof.
  revert symbol t.
  cut (∀ symbol, pointwise_relation _ eq (_fetchAstSymbol p fuel symbol b)
                   (_fetchAstSymbol p fuel symbol b')); [by intros H|].
  induction fuel as [|fuel IH]; intros symbol;
    cbn [_fetchAstSymbol]; cbv zeta; [done|].
  repeat first
    [ reflexivity
    | apply IH
    | lazymatch goal with
      | |- pointwise_relation _ eq (bind _ _) (bind _ _) =>
          apply bind_pointwise; [| intros ?]
      | |- pointwise_relation _ eq (match ?x with _ => _ end)
             (match ?x with _ => _ end) => destruct x eqn:?
      end ].
Qed.

(** C1 fails on the code.  On a table that holds nothing, [tryGetAstSymbol]
    of a class symbol builds an [AstSymbol] and an [AstDeclaration] and
    fills the maps: it behaves as [_fetchAstSymbol] with [addIfMissing]
    set. *)
Theorem tryGetAstSymbol_constructs :
  tryGetAstSymbol Demo.demo 1 Demo.Widget empty
  = Returns (Some 0%nat) Demo.afterLocal
  ∧ tryGetAstSymbol Demo.demo 1 Demo.Widget empty
    = _fetchAstSymbol Demo.demo 1 Demo.Widget true empty
  ∧ length (symbols empty) = 0%nat
  ∧ length (symbols Demo.afterLocal) = 1%nat
  ∧ length (decls Demo.afterLocal) = 1%nat
  ∧ _astSymbolsBySymbol empty !! Demo.Widget = None
  ∧ _astSymbolsBySymbol Demo.afterLocal !! Demo.Widget = Some 0%nat
  ∧ _astDeclarationsByDeclaration Demo.afterLocal !! Demo.widgetClass
    = Some 0%nat.
Proof. repeat split; by vm_compute. Qed.

(** ** The creation path *)

Section Creation.

Variable p : Provider.

Lemma sameResolution_createDeclarations astSymbol parentAstSymbol ds :
  preserves sameResolution (createDeclarations p astSymbol parentAstSymbol ds).
Proof.
  unfold createDeclarations. repeat preserves_step.
  - apply preserves_newAstDeclaration.
    intros t d t' H. injection H as _ <-. by destruct x0; split.
  - apply preserves_modify; solve_preorder. by intros t.
Qed.

(** Without a parent symbol the declarations are always created. *)
Lemma createDeclarations_no_parent astSymbol ds t :
  ∃ t', createDeclarations p astSymbol None ds t = Returns tt t'.
Proof.
  revert t. induction ds as [|d ds IH]; intros t.
  - by exists t.
  - unfold createDeclarations in *. cbn [forEach]. unfold bind at 1 2 3.
    unfold ret at 1.
    cbn [newAstDeclaration attachAstDeclaration from_option modify]. apply IH.
Qed.

(** A declaration of a kind the graph does not hold makes the check
    throw. *)
Lemma checkDeclarationKinds_throws followedSymbol ds t :
  (∃ d, d ∈ ds ∧ isAstDeclaration p (kind p d) = false) →
  throws (checkDeclarationKinds p followedSymbol ds t) = true.
Proof.
  intros (d & Hd & Hk). unfold checkDeclarationKinds.
  induction ds as [|d' ds IH]; [by apply elem_of_nil in Hd|].
  cbn [forEach]. unfold bind.
  destruct (isAstDeclaration p (kind p d')) eqn:E; simpl; [|done].
  apply IH. apply elem_of_cons in Hd as [-> | Hd]; [congruence | done].
Qed.

(** When every declaration is of a kind the graph holds, the check
    passes and leaves the table as it is. *)
Lemma checkDeclarationKinds_passes followedSymbol ds t :
  (∀ d, d ∈ ds → isAstDeclaration p (kind p d) = true) →
  checkDeclarationKinds p followedSymbol ds t = Returns tt t.
Proof.
  intros Hall. unfold checkDeclarationKinds.
  induction ds as [|d ds IH]; [done|].
  cbn [forEach]. unfold bind.
  rewrite (Hall d) by (apply elem_of_cons; by left). simpl.
  apply IH. intros d' Hd'. apply Hall. apply elem_of_cons. by right.
Qed.

Lemma computeNominal_iff (d : ts.Node) (ds : list ts.Node) :
  computeNominal p (d :: ds) d = true ↔ nominalCondition p (d :: ds).
Proof.
  unfold computeNominal, nominalCondition. cbv zeta. split.
  - intros H.
    destruct (isSourceFileFromExternalLibrary p (getSourceFile p d)) eqn:Ex;
      [destruct (isAedocSupportedFor p (fileName p (getSourceFile p d))) eqn:Ae|].
    2:{ right. by exists d, ds. }
    all: left; destruct (_ && _) eqn:E; [|discriminate].
    all: apply andb_true_iff in E as [E1 E2].
    all: apply bool_decide_eq_true in E1, E2.
    all: destruct ds; [|discriminate]; by exists d.
  - intros [(d' & Heq & Hk) | (d' & rest & Heq & Hex & Hae)].
    + injection Heq as <- ->. simpl.
      rewrite (bool_decide_eq_true_2 _ Hk). simpl.
      destruct (isSourceFileFromExternalLibrary p (getSourceFile p d));
        [|done].
      by destruct (isAedocSupportedFor p (fileName p (getSourceFile p d))).
    + injection Heq as <- <-. by rewrite Hex, Hae.
Qed.

(** What the creation path leaves behind when it returns. *)
Lemma constructAstSymbol_spec r ds nominal0 pa t x t' :
  constructAstSymbol p r ds nominal0 pa t = Returns x t' →
  x = Some (length (symbols t))
  ∧ extends t t'
  ∧ (∃ s, symbols t' !! length (symbols t) = Some s
          ∧ nominal s = nominal0
          ∧ sym_followedSymbol s = followedSymbol r
          ∧ sym_astImport s = astImport r
          ∧ parentAstSymbol s = pa)
  ∧ _astSymbolsBySymbol t' !! followedSymbol r = Some (length (symbols t))
  ∧ (∀ i, astImport r = Some i →
          _astSymbolsByImportKey t' !! AstImport_key i = Some (length (symbols t))
          ∧ imported t' (length (symbols t)) = true).
Proof.
  intros H.
  pose proof (extends_constructAstSymbol p r ds nominal0 pa t x t' H) as Hext.
  unfold constructAstSymbol in H. cbv zeta in H.
  apply bind_Returns in H as (t0 & t1 & Hget & H). injection Hget as <- <-.
  apply bind_Returns in H as (a & t2 & Hnew & H).
  injection Hnew as <- <-.
  apply bind_Returns in H as ([] & t3 & Hreg & H). injection Hreg as <-.
  apply bind_Returns in H as ([] & t4 & Hkey & H).
  apply bind_Returns in H as ([] & t5 & Hdecl & H).
  unfold checkImportStatus in H.
  destruct (bool_decide (is_Some (astImport r)) && negb (imported t5 _)) eqn:Hc;
    [discriminate|].
  injection H as <- <-.
  pose proof (sameResolution_createDeclarations _ _ _ _ _ _ Hdecl) as [Hs Hk].
  pose proof (extends_createDeclarations p _ _ _ _ _ _ Hdecl) as Hext45.
  assert (Hsym4 : symbols t4 !! length (symbols t)
            = Some (mkAstSymbol (localName r) (followedSymbol r) (astImport r)
                      nominal0 pa
                      (default (length (symbols t))
                         (pa ≫= λ pa, rootAstSymbol <$> symbols t !! pa))
                      [] false)).
  { destruct (astImport r); injection Hkey as <-; simpl;
      by apply list_lookup_middle. }
  destruct (Hext45 _ _ Hsym4) as (s & Hs5 & L).
  destruct L as (_ & Hfol & Himp & Hnom & Hpar & _).
  split; [done|]. split; [done|]. split; [by exists s|]. split.
  - rewrite Hs. destruct (astImport r); injection Hkey as <-; simpl;
      apply lookup_insert_eq.
  - intros i Hi. split.
    + rewrite Hk. rewrite Hi in Hkey. injection Hkey as <-. simpl.
      apply lookup_insert_eq.
    + rewrite Hi in Hc. rewrite bool_decide_eq_true_2 in Hc by done.
      simpl in Hc. by apply negb_false_iff in Hc.
Qed.

End Creation.

Section CacheMiss.

Variable p : Provider.

Lemma throws_bind {A B} (m : M A) (k : A → M B) t :
  throws (m t) = true → throws (bind m k t) = true.
Proof. unfold bind. by destruct (m t). Qed.

Lemma imported_of_root (t : AstSymbolTable) (a : AstSymbolRef) (s : AstSymbol) :
  symbols t !! a = Some s → rootAstSymbol s = a →
  imported t a = bool_decide (is_Some (sym_astImport s)).
Proof. intros Hs Hr. unfold imported. by rewrite Hs, Hr, Hs. Qed.

(** With no parent symbol the creation path always returns. *)
Lemma constructAstSymbol_no_parent r ds nominal0 t :
  ∃ t', constructAstSymbol p r ds nominal0 None t
        = Returns (Some (length (symbols t))) t'.
Proof.
  unfold constructAstSymbol. cbv zeta.
  unfold bind at 1, get. unfold bind at 1. cbn [newAstSymbol].
  unfold bind at 1. cbn [modify]. unfold bind at 1.
  match goal with
  | |- ∃ _, match ?m ?t4 with _ => _ end = _ =>
      assert (∃ t4', m t4 = Returns tt t4'
                     ∧ symbols t4' = symbols t4) as (t4' & -> & Hsym)
  end.
  { destruct (astImport r); eexists; split; reflexivity. }
  destruct (createDeclarations_no_parent p (length (symbols t)) ds t4')
    as [t5 H5].
  unfold bind. rewrite H5.
  destruct (extends_createDeclarations p _ _ _ _ _ _ H5 (length (symbols t))
              (mkAstSymbol (localName r) (followedSymbol r) (astImport r)
                 nominal0 None (length (symbols t)) [] false))
    as (s & Hs & L).
  { rewrite Hsym. simpl. by apply list_lookup_middle. }
  destruct L as (_ & _ & Himp & _ & _ & Hroot & _). simpl in Himp, Hroot.
  exists t5. unfold checkImportStatus.
  rewrite (imported_of_root t5 _ s Hs Hroot), Himp.
  by destruct (bool_decide _).
Qed.

(** Step 5: neither the followed symbol nor its import key is mapped. *)
Lemma fetch_creates fuel symbol addIfMissing t x t' :
  Z.land (flags p (followedSymbol (followAliases p symbol))) (discardedFlags p) = 0 →
  isAmbient (followAliases p symbol) = false →
  _astSymbolsBySymbol t !! followedSymbol (followAliases p symbol) = None →
  (∀ i, astImport (followAliases p symbol) = Some i →
        _astSymbolsByImportKey t !! AstImport_key i = None) →
  _fetchAstSymbol p fuel symbol addIfMissing t = Returns x t' →
  ∃ a s d ds,
    x = Some a
    ∧ declarations p (followedSymbol (followAliases p symbol)) = Some (d :: ds)
    ∧ (length (symbols t) ≤ a)%nat
    ∧ symbols t' !! a = Some s
    ∧ nominal s = computeNominal p (d :: ds) d
    ∧ sym_followedSymbol s = followedSymbol (followAliases p symbol)
    ∧ sym_astImport s = astImport (followAliases p symbol)
    ∧ _astSymbolsBySymbol t' !! followedSymbol (followAliases p symbol) = Some a
    ∧ (∀ i, astImport (followAliases p symbol) = Some i →
            _astSymbolsByImportKey t' !! AstImport_key i = Some a
            ∧ imported t' a = true).
Proof.
  intros Hf Ha Hm Hk H.
  assert (Hk' : astImport (followAliases p symbol)
                ≫= (λ i, _astSymbolsByImportKey t !! AstImport_key i) = None).
  { destruct (astImport (followAliases p symbol)) as [i|]; [by apply Hk | done]. }
  destruct fuel; cbn [_fetchAstSymbol] in H; cbv zeta in H.
  all: rewrite bool_decide_eq_false_2 in H by (intros Hn; by apply Hn).
  all: rewrite Ha in H; unfold bind at 1, get in H; rewrite Hm in H.
  all: destruct (declarations p _) as [[|d ds]|]; try discriminate.
  all: rewrite Hk' in H.
  all: apply bind_Returns in H as (pa & t1 & Hpa & H).
  all: match type of Hpa with
       | ?m _ = _ =>
           assert (Hext : preserves extends m)
             by (repeat preserves_step;
                 auto using extends_checkDeclarationKinds,
                   extends_fetchAstSymbol)
       end.
  all: apply Hext, extends_length in Hpa.
  all: apply constructAstSymbol_spec in H
         as (-> & _ & (s & Hs & Hnom & Hfol & Himp & _) & Hreg & Hkey).
  all: exists (length (symbols t1)), s, d, ds; repeat (split; [done|]); exact Hkey.
Qed.

End CacheMiss.

(** C6.  Let the followed symbol pass the filters, have declarations, and
    be mapped neither by identity nor by import key.  If [_fetchAstSymbol]
    returns, it returns a symbol that was not in the table before, and
    that symbol is nominal exactly when the followed symbol has a single
    declaration that is a source file, or its first declaration's source
    file comes from an external library without AEDoc support.  When that
    condition holds the call does return.  When it does not hold and some
    declaration is not of a kind the graph holds, the call throws; when it
    does not hold, every declaration is of such a kind and the first one
    has no enclosing declaration, the call returns. *)
Theorem new_symbol_nominal (p : Provider) (fuel : nat) (symbol : ts.Symbol)
    (addIfMissing : bool) (t : AstSymbolTable) (d : ts.Node) (ds : list ts.Node) :
  Z.land (flags p (followedSymbol (followAliases p symbol))) (discardedFlags p) = 0 →
  isAmbient (followAliases p symbol) = false →
  _astSymbolsBySymbol t !! followedSymbol (followAliases p symbol) = None →
  (∀ i, astImport (followAliases p symbol) = Some i →
        _astSymbolsByImportKey t !! AstImport_key i = None) →
  declarations p (followedSymbol (followAliases p symbol)) = Some (d :: ds) →
  (∀ x t', _fetchAstSymbol p fuel symbol addIfMissing t = Returns x t' →
     ∃ a s, x = Some a
            ∧ (length (symbols t) ≤ a)%nat
            ∧ symbols t' !! a = Some s
            ∧ (nominal s = true ↔ nominalCondition p (d :: ds)))
  ∧ (nominalCondition p (d :: ds) →
       ∃ a t', _fetchAstSymbol p fuel symbol addIfMissing t = Returns (Some a) t')
  ∧ (¬ nominalCondition p (d :: ds) →
     (∃ d', d' ∈ d :: ds ∧ isAstDeclaration p (kind p d') = false) →
     throws (_fetchAstSymbol p fuel symbol addIfMissing t) = true)
  ∧ (¬ nominalCondition p (d :: ds) →
     (∀ d', d' ∈ d :: ds → isAstDeclaration p (kind p d') = true) →
     _tryFindFirstAstDeclarationParent p d = None →
     ∃ a t', _fetchAstSymbol p fuel symbol addIfMissing t = Returns (Some a) t').
Proof.
  intros Hf Ha Hm Hk Hd. split; [|split; [|split]].
  - intros x t' H.
    destruct (fetch_creates p fuel symbol addIfMissing t x t' Hf Ha Hm Hk H)
      as (a & s & d0 & ds0 & -> & Hd0 & Hlen & Hs & Hnom & _).
    rewrite Hd in Hd0. injection Hd0 as <- <-.
    exists a, s. repeat split; try done; rewrite Hnom; apply computeNominal_iff.
  - intros Hn. apply computeNominal_iff in Hn.
    assert (Hk' : astImport (followAliases p symbol)
                  ≫= (λ i, _astSymbolsByImportKey t !! AstImport_key i) = None).
    { destruct (astImport (followAliases p symbol)) as [i|]; [by apply Hk | done]. }
    destruct (constructAstSymbol_no_parent p (followAliases p symbol) (d :: ds)
                true t) as [t' Ht'].
    exists (length (symbols t)), t'.
    destruct fuel; cbn [_fetchAstSymbol]; cbv zeta.
    all: rewrite bool_decide_eq_false_2 by (intros Hx; by apply Hx).
    all: rewrite Ha; unfold bind at 1, get; rewrite Hm, Hd, Hk', Hn.
    all: exact Ht'.
  - intros Hn Hbad.
    assert (Hc : computeNominal p (d :: ds) d = false).
    { apply not_true_iff_false. by rewrite computeNominal_iff. }
    assert (Hk' : astImport (followAliases p symbol)
                  ≫= (λ i, _astSymbolsByImportKey t !! AstImport_key i) = None).
    { destruct (astImport (followAliases p symbol)) as [i|]; [by apply Hk | done]. }
    destruct fuel; cbn [_fetchAstSymbol]; cbv zeta.
    all: rewrite bool_decide_eq_false_2 by (intros Hx; by apply Hx).
    all: rewrite Ha; unfold bind at 1, get; rewrite Hm, Hd, Hk', Hc.
    all: apply throws_bind, throws_bind.
    all: by apply checkDeclarationKinds_throws.
  - intros Hn Hall Hnone.
    assert (Hc : computeNominal p (d :: ds) d = false).
    { apply not_true_iff_false. by rewrite computeNominal_iff. }
    assert (Hk' : astImport (followAliases p symbol)
                  ≫= (λ i, _astSymbolsByImportKey t !! AstImport_key i) = None).
    { destruct (astImport (followAliases p symbol)) as [i|]; [by apply Hk | done]. }
    destruct (constructAstSymbol_no_parent p (followAliases p symbol) (d :: ds)
                false t) as [t' Ht'].
    exists (length (symbols t)), t'.
    destruct fuel; cbn [_fetchAstSymbol]; cbv zeta.
    all: rewrite bool_decide_eq_false_2 by (intros Hx; by apply Hx).
    all: rewrite Ha; unfold bind at 1, get; rewrite Hm, Hd, Hk', Hc, Hnone.
    all: unfold bind at 1 2.
    all: rewrite (checkDeclarationKinds_passes p _ _ _ Hall).
    all: exact Ht'.
Qed.

Lemma new_symbol_nominal_witness :
  (∃ a t', _fetchAstSymbol Demo.demo 0 Demo.FileModule true empty
           = Returns (Some a) t')
  ∧ throws (_fetchAstSymbol Demo.demo 0 Demo.Odd true empty) = true.
Proof.
  split.
  - destruct (new_symbol_nominal Demo.demo 0 Demo.FileModule true empty
                Demo.widgetFile []) as (_ & H & _ & _);
      [by vm_compute | done | by vm_compute | by vm_compute | done |].
    apply H. left. by exists Demo.widgetFile.
  - destruct (new_symbol_nominal Demo.demo 0 Demo.Odd true empty
                Demo.oddLiteral []) as (_ & _ & H & _);
      [by vm_compute | done | by vm_compute | by vm_compute | done |].
    apply H.
    + intros [(d & Heq & Hk) | (d & rest & Heq & Hex & _)];
        injection Heq as <-; discriminate.
    + exists Demo.oddLiteral. split; [by apply list_elem_of_singleton | done].
Defined.

(** ** Import-origin deduplication *)




(** ** analyze *)

Lemma analyzed_after_notify (t t2 : AstSymbolTable) (a : AstSymbolRef)
    (s r : AstSymbol) :
  symbols t !! a = Some s →
  symbols t !! rootAstSymbol s = Some r →
  _notifyAnalyzed (rootAstSymbol s) t = Returns tt t2 →
  analyzed t2 a = true.
Proof.
  intros Hs Hr H. injection H as <-. unfold analyzed. simpl.
  destruct (decide (rootAstSymbol s = a)) as [E|E].
  - rewrite E, list_lookup_alter_eq, Hs. simpl.
    rewrite E, list_lookup_alter_eq, Hs. done.
  - rewrite list_lookup_alter_ne, Hs by done.
    rewrite list_lookup_alter_eq, Hr. done.
Qed.

(** Once [analyze] has returned for a valid symbol, the symbol is analyzed
    and a second call returns at once. *)
Lemma analyze_twice (p : Provider) (fuel fuel' : nat) (a : AstSymbolRef)
    (t t' : AstSymbolTable) :
  validSymbol t a →
  analyze p fuel a t = Returns tt t' →
  analyzed t' a = true ∧ analyze p fuel' a t' = Returns tt t'.
Proof.
  intros (s & Hs & [r Hr] & Hnom) H.
  assert (Han : analyzed t' a = true).
  { destruct fuel as [|fuel]; cbn [analyze] in H;
      destruct (analyzed t a) eqn:E;
      try (injection H as <-; exact E); try discriminate.
    rewrite Hs in H. destruct (nominal s) eqn:En.
    - specialize (Hnom eq_refl). subst a.
      by eapply (analyzed_after_notify t t' (rootAstSymbol s) s s).
    - apply bind_Returns in H as ([] & t1 & Hwalk & H).
      apply bind_Returns in H as ([] & t2 & Hnote & H).
      assert (Hext1 : extends t t1).
      { revert Hwalk.
        match goal with
        | |- ?m t = _ → _ => cut (preserves extends m); [intros Hp; apply Hp|]
        end.
        repeat preserves_step; auto using extends_analyzeChildTree. }
      assert (Hext2 : extends t2 t').
      { revert H.
        match goal with
        | |- ?m t2 = _ → _ => cut (preserves extends m); [intros Hp; apply Hp|]
        end.
        repeat preserves_step.
        apply extends_forEachDeclarationRecursive. intros d.
        repeat preserves_step; auto using extends_analyze. }
      destruct (Hext1 a s Hs) as (s1 & Hs1 & L1).
      destruct (Hext1 _ r Hr) as (r1 & Hr1 & _).
      destruct L1 as (_ & _ & _ & _ & _ & Hroot & _).
      rewrite <- Hroot in Hnote, Hr1.
      eapply analyzed_mono; [exact Hext2|].
      by eapply (analyzed_after_notify t1 t2 a s1 r1). }
  split; [done|]. destruct fuel'; cbn [analyze]; by rewrite Han.
Qed.

(** ** Tables built by the methods are well formed *)

#[local] Instance keepsWellFormed_preorder : PreOrder keepsWellFormed.
Proof.
  split.
  - by intros t H.
  - intros t1 t2 t3 H12 H23 H. by apply H23, H12.
Qed.

Lemma wellFormed_empty : wellFormed empty.
Proof.
  split; [|split].
  - intros a s H. by destruct a.
  - intros k a H. simpl in H. by rewrite lookup_empty in H.
  - intros k a H. simpl in H. by rewrite lookup_empty in H.
Qed.

(** Changing only the declarations or the analyzed flag of a symbol. *)
Lemma wellFormed_alter (f : AstSymbol → AstSymbol) (a : AstSymbolRef)
    (t : AstSymbolTable) :
  (∀ s, rootAstSymbol (f s) = rootAstSymbol s ∧ nominal (f s) = nominal s) →
  keepsWellFormed t (set_symbols (alter f a) t).
Proof.
  intros Hf (Hsym & Hid & Hkey).
  assert (Hkeep : ∀ b, is_Some (symbols t !! b) →
                       is_Some (alter f a (symbols t) !! b)).
  { intros b [s Hs]. destruct (decide (a = b)) as [->|Hne].
    - exists (f s). by rewrite list_lookup_alter_eq, Hs.
    - exists s. by rewrite list_lookup_alter_ne. }
  split; [|split]; simpl.
  - intros b s' Hb.
    assert (∃ s, symbols t !! b = Some s
                 ∧ rootAstSymbol s' = rootAstSymbol s
                 ∧ nominal s' = nominal s) as (s & Hs & Hr & Hn).
    { destruct (decide (a = b)) as [->|Hne].
      - rewrite list_lookup_alter_eq in Hb.
        destruct (symbols t !! b) as [s|]; [|discriminate].
        injection Hb as <-. exists s. destruct (Hf s). by repeat split.
      - rewrite list_lookup_alter_ne in Hb by done. by exists s'. }
    destruct (Hsym b s Hs) as (s0 & Hs0 & Hroot & Hnom).
    rewrite Hs in Hs0. injection Hs0 as <-.
    exists s'. simpl. split; [done|]. rewrite Hr, Hn. split; [|done].
    by apply Hkeep.
  - intros k b Hb. apply Hkeep. by eapply Hid.
  - intros k b Hb. apply Hkeep. by eapply Hkey.
Qed.

(** Changing nothing that well-formedness reads. *)
Lemma wellFormed_same (t t' : AstSymbolTable) :
  symbols t' = symbols t →
  _astSymbolsBySymbol t' = _astSymbolsBySymbol t →
  _astSymbolsByImportKey t' = _astSymbolsByImportKey t →
  keepsWellFormed t t'.
Proof.
  intros Es Ei Ek (Hsym & Hid & Hkey). unfold wellFormed, validSymbol.
  rewrite Es, Ei, Ek. done.
Qed.

Lemma wellFormed_set_astSymbolsBySymbol (k : ts.Symbol) (a : AstSymbolRef)
    (t : AstSymbolTable) :
  is_Some (symbols t !! a) → keepsWellFormed t (set_astSymbolsBySymbol k a t).
Proof.
  intros Ha (Hsym & Hid & Hkey). split; [done|]. split; [|done].
  intros k' b. simpl. rewrite lookup_insert. case_decide.
  - by intros [= <-].
  - apply Hid.
Qed.

Lemma wellFormed_set_astSymbolsByImportKey (k : string) (a : AstSymbolRef)
    (t : AstSymbolTable) :
  is_Some (symbols t !! a) → keepsWellFormed t (set_astSymbolsByImportKey k a t).
Proof.
  intros Ha (Hsym & Hid & Hkey). split; [done|]. split; [done|].
  intros k' b. simpl. rewrite lookup_insert. case_decide.
  - by intros [= <-].
  - apply Hkey.
Qed.

(** A new symbol whose root is itself or the root of an existing symbol. *)
Lemma wellFormed_push (s : AstSymbol) (t : AstSymbolTable) :
  is_Some ((symbols t ++ [s]) !! rootAstSymbol s) →
  (nominal s = true → rootAstSymbol s = length (symbols t)) →
  keepsWellFormed t (set_symbols (λ l, l ++ [s]) t).
Proof.
  intros Hroot Hnom (Hsym & Hid & Hkey).
  assert (Hkeep : ∀ b, is_Some (symbols t !! b) →
                       is_Some ((symbols t ++ [s]) !! b)).
  { intros b [x Hx]. exists x. rewrite lookup_app_l; [done|].
    by eapply lookup_lt_Some. }
  split; [|split]; simpl.
  - intros b x Hb. destruct (decide (b < length (symbols t))%nat) as [Hlt|Hge].
    + rewrite lookup_app_l in Hb by done.
      destruct (Hsym b x Hb) as (x0 & Hx0 & Hr & Hn).
      rewrite Hb in Hx0. injection Hx0 as <-.
      exists x. simpl. split; [by rewrite lookup_app_l|].
      split; [by apply Hkeep | done].
    + assert (b = length (symbols t)) as ->.
      { apply lookup_lt_Some in Hb. rewrite length_app in Hb. simpl in Hb. lia. }
      rewrite list_lookup_middle in Hb by done. injection Hb as <-.
      exists s. simpl. split; [by apply list_lookup_middle | done].
  - intros k b Hb. apply Hkeep. by eapply Hid.
  - intros k b Hb. apply Hkeep. by eapply Hkey.
Qed.

Section WellFormed.

Variable p : Provider.

Lemma wellFormed_notifyAnalyzed a : preserves keepsWellFormed (_notifyAnalyzed a).
Proof.
  apply preserves_modify; solve_preorder. intros t.
  by apply wellFormed_alter.
Qed.

Lemma wellFormed_notifyReferencedAstSymbol d r :
  preserves keepsWellFormed (_notifyReferencedAstSymbol d r).
Proof.
  apply preserves_notifyReferencedAstSymbol; solve_preorder. intros t. by apply wellFormed_same.
Qed.

Lemma wellFormed_newAstDeclaration node owner parentDeclaration :
  preserves keepsWellFormed (newAstDeclaration node owner parentDeclaration).
Proof.
  apply preserves_newAstDeclaration.
  intros t d t' H. injection H as _ <-.
  transitivity (set_symbols (alter (λ s,
      mkAstSymbol (sym_localName s) (sym_followedSymbol s) (sym_astImport s)
        (nominal s) (parentAstSymbol s) (rootAstSymbol s)
        (astDeclarations s ++ [length (decls t)]) (_analyzed s)) owner) t).
  - by apply wellFormed_alter.
  - apply wellFormed_same; by destruct parentDeclaration.
Qed.

Lemma wellFormed_createDeclarations astSymbol parentAstSymbol ds :
  preserves keepsWellFormed
    (createDeclarations p astSymbol parentAstSymbol ds).
Proof.
  unfold createDeclarations. repeat preserves_step.
  - apply wellFormed_newAstDeclaration.
  - apply preserves_modify; solve_preorder. intros t. by apply wellFormed_same.
Qed.

Lemma unchanged_checkDeclarationKinds followedSymbol ds t x t' :
  checkDeclarationKinds p followedSymbol ds t = Returns x t' → t' = t.
Proof.
  unfold checkDeclarationKinds. revert t.
  induction ds as [|d ds IH]; intros t H; cbn [forEach] in H.
  - by injection H as _ <-.
  - apply bind_Returns in H as ([] & t1 & H1 & H).
    destruct (negb _); [discriminate|]. injection H1 as <-. by apply IH.
Qed.

(** The creation path, given a parent that is a symbol of the table and is
    absent for a nominal symbol. *)
Lemma wellFormed_constructAstSymbol r ds nominal0 pa t x t' :
  wellFormed t →
  (nominal0 = true → pa = None) →
  (∀ a, pa = Some a → is_Some (symbols t !! a)) →
  constructAstSymbol p r ds nominal0 pa t = Returns x t' →
  wellFormed t'.
Proof.
  intros Hwf Hnom Hpa H.
  unfold constructAstSymbol in H. cbv zeta in H.
  apply bind_Returns in H as (t0 & t1 & Hget & H). injection Hget as <- <-.
  apply bind_Returns in H as (a & t2 & Hnew & H). injection Hnew as <- <-.
  apply bind_Returns in H as ([] & t3 & Hreg & H). injection Hreg as <-.
  apply bind_Returns in H as ([] & t4 & Hkey & H).
  apply bind_Returns in H as ([] & t5 & Hdecl & H).
  unfold checkImportStatus in H. destruct (_ && _); [discriminate|].
  injection H as _ <-.
  apply (wellFormed_createDeclarations _ _ _ _ _ _ Hdecl).
  set (s := mkAstSymbol (localName r) (followedSymbol r) (astImport r) nominal0
              pa (default (length (symbols t))
                    (pa ≫= λ pa, rootAstSymbol <$> symbols t !! pa)) [] false)
    in *.
  assert (Hnew : is_Some ((symbols t ++ [s]) !! length (symbols t))).
  { exists s. by apply list_lookup_middle. }
  assert (Hwf3 : wellFormed
            (set_astSymbolsBySymbol (followedSymbol r) (length (symbols t))
               (set_symbols (λ l, l ++ [s]) t))).
  { apply wellFormed_set_astSymbolsBySymbol; [exact Hnew|].
    apply wellFormed_push; [| |done].
    - simpl. destruct pa as [q|]; simpl; [|exact Hnew].
      destruct (Hpa q eq_refl) as [sq Hq]. rewrite Hq. simpl.
      destruct Hwf as (Hsym & _). destruct (Hsym q sq Hq) as (x0 & Hx0 & [y Hy] & _).
      rewrite Hq in Hx0. injection Hx0 as <-.
      exists y. rewrite lookup_app_l; [done|]. by eapply lookup_lt_Some.
    - simpl. intros Hn. by rewrite (Hnom Hn). }
  destruct (astImport r); injection Hkey as <-; [|done].
  by apply wellFormed_set_astSymbolsByImportKey.
Qed.

(** The two cache hits of a resolution. *)
Lemma wellFormed_hit_identity r a t x t' :
  wellFormed t → is_Some (symbols t !! a) →
  checkImportStatus r a t = Returns x t' →
  wellFormed t' ∧ ∀ b, x = Some b → validSymbol t' b.
Proof.
  intros Hwf [s Hs] H. unfold checkImportStatus in H.
  destruct (_ && _); [discriminate|]. injection H as <- <-.
  split; [done|]. intros b [= <-]. destruct Hwf as (Hsym & _). by eapply Hsym.
Qed.

Lemma wellFormed_hit_import_key r k a t x t' :
  wellFormed t → is_Some (symbols t !! a) →
  bind (modify (set_astSymbolsBySymbol k a)) (λ _, checkImportStatus r a) t
  = Returns x t' →
  wellFormed t' ∧ ∀ b, x = Some b → validSymbol t' b.
Proof.
  intros Hwf Ha H. apply bind_Returns in H as ([] & t1 & Hset & H).
  injection Hset as <-.
  apply (wellFormed_hit_identity r a (set_astSymbolsBySymbol k a t));
    [by apply wellFormed_set_astSymbolsBySymbol | exact Ha | exact H].
Qed.

(** The end of the creation path. *)
Lemma wellFormed_created r ds nominal0 pa t x t' :
  wellFormed t →
  (nominal0 = true → pa = None) →
  (∀ a, pa = Some a → is_Some (symbols t !! a)) →
  constructAstSymbol p r ds nominal0 pa t = Returns x t' →
  wellFormed t' ∧ ∀ b, x = Some b → validSymbol t' b.
Proof.
  intros Hwf Hnom Hvalid H.
  pose proof (wellFormed_constructAstSymbol _ _ _ _ _ _ _ Hwf Hnom Hvalid H)
    as Hwf'.
  split; [done|].
  apply constructAstSymbol_spec in H as (-> & _ & (s & Hs & _) & _).
  intros a [= <-]. destruct Hwf' as (Hsym & _). by eapply Hsym.
Qed.

(** Every resolution keeps the table well formed and returns a symbol of
    the table. *)
Lemma wellFormed_fetchAstSymbol fuel symbol addIfMissing t x t' :
  wellFormed t →
  _fetchAstSymbol p fuel symbol addIfMissing t = Returns x t' →
  wellFormed t' ∧ ∀ a, x = Some a → validSymbol t' a.
Proof.
  revert symbol addIfMissing t x t'.
  induction fuel as [|fuel IH]; intros symbol addIfMissing t x t' Hwf H.
  all: cbn [_fetchAstSymbol] in H; cbv zeta in H.
  all: destruct (bool_decide _); [injection H as <- <-; by split|].
  all: destruct (isAmbient _); [injection H as <- <-; by split|].
  all: unfold bind at 1, get in H.
  all: destruct (_astSymbolsBySymbol t !! _) as [a|] eqn:Hm;
    [eapply wellFormed_hit_identity; [done| |exact H];
     destruct Hwf as (_ & Hid & _); by eapply Hid|].
  all: destruct (declarations p _) as [[|d ds]|]; try discriminate.
  all: destruct (astImport (followAliases p symbol) ≫= _) as [a|] eqn:Hk;
    [eapply wellFormed_hit_import_key; [done| |exact H];
     destruct (astImport (followAliases p symbol)) as [i|]; [|discriminate];
     destruct Hwf as (_ & _ & Hkey); by eapply Hkey|].
  all: apply bind_Returns in H as (pa & t1 & Hpa & H).
  all: eapply (wellFormed_created _ _ _ pa t1); [| | |exact H].
  all: destruct (computeNominal p (d :: ds) d);
    [injection Hpa as <- <-; done ..|].
  all: apply bind_Returns in Hpa as ([] & t0 & Hchk & Hpa).
  all: apply unchanged_checkDeclarationKinds in Hchk as ->.
  all: destruct (_tryFindFirstAstDeclarationParent p d);
    [|injection Hpa as <- <-; done].
  all: destruct (getSymbolForDeclaration p _); try discriminate.
  all: apply bind_Returns in Hpa as (r & t0 & Hrec & Hpa).
  all: destruct r as [q|]; [|discriminate]; injection Hpa as <- <-.
  all: destruct (IH _ _ _ _ _ Hwf Hrec) as (Hwf0 & Hq).
  all: try done.
  intros a [= <-]. destruct (Hq q eq_refl) as (s & Hs & _). by exists s.
Qed.

End WellFormed.

Section WellFormedAnalyze.

Variable p : Provider.

Lemma keepsWellFormed_fetchAstSymbol fuel symbol addIfMissing :
  preserves keepsWellFormed (_fetchAstSymbol p fuel symbol addIfMissing).
Proof.
  intros t x t' H Hwf. by eapply wellFormed_fetchAstSymbol.
Qed.

Lemma wellFormed_analyzeChildTree fuel node governingAstDeclaration :
  preserves keepsWellFormed
    (_analyzeChildTree p fuel node governingAstDeclaration).
Proof.
  revert node governingAstDeclaration.
  induction fuel as [|fuel IH]; intros node governingAstDeclaration;
    cbn [_analyzeChildTree]; unfold noteReference, _fetchAstDeclaration,
      _fetchAstSymbolForNode;
    repeat preserves_step;
    auto using keepsWellFormed_fetchAstSymbol,
      wellFormed_notifyReferencedAstSymbol.
Qed.

Lemma wellFormed_forEachDeclarationRecursive fuel d action :
  (∀ x, preserves keepsWellFormed (action x)) →
  preserves keepsWellFormed (forEachDeclarationRecursive fuel d action).
Proof.
  intros Ha. revert d.
  induction fuel as [|fuel IH]; intros d;
    cbn [forEachDeclarationRecursive]; repeat preserves_step; auto.
Qed.

(** [analyze] keeps the table well formed. *)
Lemma wellFormed_analyze fuel a : preserves keepsWellFormed (analyze p fuel a).
Proof.
  revert a. induction fuel as [|fuel IH]; intros a t x t' H;
    cbn [analyze] in H; destruct (analyzed t a);
    try (injection H as _ <-; reflexivity); try discriminate.
  destruct (symbols t !! a) as [s|]; [|discriminate].
  destruct (nominal s); [by eapply wellFormed_notifyAnalyzed|].
  revert H.
  match goal with
  | |- ?m t = _ → _ => cut (preserves keepsWellFormed m); [intros Hp; apply Hp|]
  end.
  repeat preserves_step;
    auto using wellFormed_analyzeChildTree, wellFormed_notifyAnalyzed.
  apply wellFormed_forEachDeclarationRecursive. intros d.
  repeat preserves_step; auto.
Qed.

(** [fetchEntryPoint] keeps the table well formed. *)
Lemma wellFormed_fetchEntryPoint fuel sourceFile :
  preserves keepsWellFormed (fetchEntryPoint p fuel sourceFile).
Proof.
  assert (Hc : ∀ exportSymbols exportedMembers,
            preserves keepsWellFormed
              (collectExports p fuel exportSymbols exportedMembers)).
  { induction exportSymbols as [|e rest IH]; intros exportedMembers;
      cbn [collectExports]; repeat preserves_step;
      auto using keepsWellFormed_fetchAstSymbol, wellFormed_analyze. }
  unfold fetchEntryPoint. repeat preserves_step; auto.
  apply preserves_modify; solve_preorder. intros t. by apply wellFormed_same.
Qed.

End WellFormedAnalyze.

(** C3.  Take a table as the methods build it (the empty table is one, and
    every method keeps it so) and a symbol of it.  Once [analyze] has
    returned for that symbol, the symbol is analyzed, and a second
    [analyze] returns at once with the table unchanged: no symbol or
    declaration is created, no list of children or references grows, no
    map changes. *)
Theorem analyze_idempotent (p : Provider) (fuel fuel' : nat) (a : AstSymbolRef)
    (t t' : AstSymbolTable) :
  wellFormed t →
  is_Some (symbols t !! a) →
  analyze p fuel a t = Returns tt t' →
  analyzed t' a = true
  ∧ analyze p fuel' a t' = Returns tt t'
  ∧ wellFormed t'.
Proof.
  intros Hwf [s Hs] H.
  destruct Hwf as (Hsym & Hrest).
  destruct (analyze_twice p fuel fuel' a t t' (Hsym a s Hs) H) as [Han Hagain].
  repeat split; try done.
  all: by apply (wellFormed_analyze p fuel a t tt t' H).
Qed.

Lemma analyze_idempotent_witness :
  analyze Demo.demo 8 0 Demo.afterLocal = Returns tt Demo.afterAnalyze
  ∧ length (symbols Demo.afterAnalyze) = 3%nat
  ∧ analyzed Demo.afterAnalyze 0 = true
  ∧ analyze Demo.demo 8 0 Demo.afterAnalyze = Returns tt Demo.afterAnalyze.
Proof.
  assert (H : analyze Demo.demo 8 0 Demo.afterLocal
              = Returns tt Demo.afterAnalyze) by by vm_compute.
  assert (Hwf : wellFormed Demo.afterLocal).
  { assert (Hf : _fetchAstSymbol Demo.demo 1 Demo.Widget true empty
                 = Returns (Some 0%nat) Demo.afterLocal) by by vm_compute.
    apply (wellFormed_fetchAstSymbol Demo.demo _ _ _ _ _ _ wellFormed_empty Hf). }
  destruct (analyze_idempotent Demo.demo 8 8 0 Demo.afterLocal Demo.afterAnalyze)
    as (Han & Hagain & _); [exact Hwf | by eexists | exact H |].
  split; [exact H|]. split; [by vm_compute|]. by split.
Defined.

(** * Further properties of the code *)

(** ** generateFilePathsForAnalysis: what a caller can rely on *)

Section GenerateFilePathsMore.

Variable toUpperCase : string → string.
Variable isAbsolute : string → bool.

Lemma firstOccurrencesAfter_app (l1 l2 before : list string) :
  Extractor.firstOccurrencesAfter toUpperCase before (l1 ++ l2)
  = Extractor.firstOccurrencesAfter toUpperCase before l1
    ++ Extractor.firstOccurrencesAfter toUpperCase (before ++ l1) l2.
Proof.
  revert before. induction l1 as [|p l1 IH]; intros before; simpl.
  { by rewrite app_nil_r. }
  rewrite IH, <- app_assoc. simpl.
  by destruct (existsb _ before).
Qed.

Lemma firstOccurrencesAfter_elem (l before : list string) (x : string) :
  x ∈ Extractor.firstOccurrencesAfter toUpperCase before l → x ∈ l.
Proof.
  revert before. induction l as [|p l IH]; intros before; simpl; [done|].
  destruct (existsb _ before).
  - intros H. apply elem_of_cons. right. by eapply IH.
  - intros H. apply elem_of_cons in H as [-> | H]; apply elem_of_cons;
      [by left | right; by eapply IH].
Qed.

(** Every path of the input is represented, up to letter case, among the
    paths before it or among the first occurrences. *)
Lemma firstOccurrencesAfter_covers (l before : list string) (x : string) :
  x ∈ l →
  existsb (Extractor.sameIgnoringCase toUpperCase x) before = true
  ∨ ∃ y, y ∈ Extractor.firstOccurrencesAfter toUpperCase before l
         ∧ toUpperCase y = toUpperCase x.
Proof.
  revert before. induction l as [|p l IH]; intros before Hx; simpl.
  { by apply elem_of_nil in Hx. }
  apply elem_of_cons in Hx as [-> | Hx].
  - destruct (existsb (Extractor.sameIgnoringCase toUpperCase p) before) eqn:E;
      [by left|].
    right. exists p. split; [apply elem_of_cons; by left | done].
  - destruct (IH (before ++ [p]) Hx) as [H | (y & Hy & Hu)].
    + rewrite existsb_app in H. apply orb_true_iff in H as [H | H];
        [by left|].
      simpl in H. rewrite orb_false_r in H.
      unfold Extractor.sameIgnoringCase in H.
      apply bool_decide_eq_true in H.
      destruct (existsb (Extractor.sameIgnoringCase toUpperCase p) before) eqn:E.
      * left. rewrite <- E. clear -H. induction before as [|q before IHb];
          simpl; [done|]. rewrite IHb. f_equal.
        unfold Extractor.sameIgnoringCase. by rewrite H.
      * right. exists p. split; [apply elem_of_cons; by left | done].
    + right. exists y. split; [|done].
      destruct (existsb _ before); [done | apply elem_of_cons; by right].
Qed.

(** A list without duplicates up to case, none of them seen before, is its
    own list of first occurrences. *)
Lemma firstOccurrencesAfter_id (l before : list string) :
  NoDup (toUpperCase <$> (before ++ l)) →
  Extractor.firstOccurrencesAfter toUpperCase before l = l.
Proof.
  revert before. induction l as [|p l IH]; intros before Hnd; simpl; [done|].
  assert (E : existsb (Extractor.sameIgnoringCase toUpperCase p) before = false).
  { apply not_true_iff_false. intros E. apply existsb_exists in E as (q & Hq & E).
    unfold Extractor.sameIgnoringCase in E. apply bool_decide_eq_true in E.
    rewrite fmap_app, fmap_cons in Hnd. apply NoDup_app in Hnd as (_ & Hd & _).
    apply (Hd (toUpperCase p)).
    - rewrite E. apply list_elem_of_fmap_2. by apply list_elem_of_In.
    - apply elem_of_cons. by left. }
  rewrite E. f_equal. apply IH. by rewrite <- app_assoc.
Qed.

Lemma find_none_forall (f : string → bool) (l : list string) :
  List.find f l = None ↔ ∀ x, x ∈ l → f x = false.
Proof.
  induction l as [|y l IH]; simpl.
  - split; [intros _ x Hx; by apply elem_of_nil in Hx | done].
  - destruct (f y) eqn:E.
    + split; [done|]. intros H. rewrite (H y) in E; [done|].
      apply elem_of_cons. by left.
    + rewrite IH. split.
      * intros H x Hx. apply elem_of_cons in Hx as [-> | Hx]; auto.
      * intros H x Hx. apply H. apply elem_of_cons. by right.
Qed.

Lemma find_over_app (f : string → bool) (l1 l2 : list string) :
  List.find f (l1 ++ l2)
  = match List.find f l1 with
    | Some x => Some x
    | None => List.find f l2
    end.
Proof.
  induction l1 as [|y l1 IH]; simpl; [done|]. by destruct (f y).
Qed.

Lemma filter_id (f : string → bool) (l : list string) :
  (∀ x, x ∈ l → f x = true) → List.filter f l = l.
Proof.
  induction l as [|y l IH]; intros H; simpl; [done|].
  rewrite (H y) by (apply elem_of_cons; by left). f_equal.
  apply IH. intros x Hx. apply H. apply elem_of_cons. by right.
Qed.

Lemma filter_elem (f : string → bool) (l : list string) (x : string) :
  x ∈ List.filter f l ↔ x ∈ l ∧ f x = true.
Proof. rewrite !list_elem_of_In. apply filter_In. Qed.

(** What a returned list is made of. *)
Lemma generate_returns (l r : list string) :
  Extractor.generateFilePathsForAnalysis toUpperCase isAbsolute l = Ok r →
  r = List.filter Extractor.declarationFileExtensionRegExp_test
        (Extractor.firstOccurrences toUpperCase l)
  ∧ ∀ x, x ∈ Extractor.firstOccurrences toUpperCase l → isAbsolute x = true.
Proof.
  unfold Extractor.generateFilePathsForAnalysis, Extractor.firstOccurrences.
  rewrite (generateLoop_spec toUpperCase isAbsolute l [] ∅ []
             (seenOf_empty toUpperCase)).
  destruct (List.find _ _) eqn:E; [discriminate|]. intros [= <-].
  split; [done|]. intros x Hx.
  rewrite find_none_forall in E. apply negb_false_iff. by apply E.
Qed.

(** When the function returns, every returned path is a path of the
    input, is absolute and ends in [.d.ts]; no two returned paths have the
    same upper-case form; and every path of the input that ends in [.d.ts]
    either has the upper-case form of a returned path, or has the
    upper-case form of a path of the input that does not end in [.d.ts]. *)
Theorem generateFilePathsForAnalysis_sound_complete (l r : list string) :
  Extractor.generateFilePathsForAnalysis toUpperCase isAbsolute l = Ok r →
  (∀ x, x ∈ r → x ∈ l ∧ isAbsolute x = true ∧ Extractor.EndsInDts x)
  ∧ NoDup (toUpperCase <$> r)
  ∧ (∀ x, x ∈ l → Extractor.EndsInDts x →
          (∃ y, y ∈ r ∧ toUpperCase y = toUpperCase x)
          ∨ (∃ f, f ∈ l ∧ toUpperCase f = toUpperCase x
                  ∧ ¬ Extractor.EndsInDts f)).
Proof.
  intros H. apply generate_returns in H as [-> Habs]. split; [|split].
  - intros x Hx. apply filter_elem in Hx as [Hx Ht]. split; [|split].
    + by eapply firstOccurrencesAfter_elem.
    + by apply Habs.
    + by apply test_iff_EndsInDts.
  - apply NoDup_fmap_filter. unfold Extractor.firstOccurrences.
    apply (firstOccurrencesAfter_distinct toUpperCase l []).
  - intros x Hx Hd.
    destruct (firstOccurrencesAfter_covers l [] x Hx) as [H | (y & Hy & Hu)];
      [discriminate|].
    destruct (Extractor.declarationFileExtensionRegExp_test y) eqn:Ht.
    + left. exists y. split; [|done]. by apply filter_elem.
    + right. exists y. split; [by eapply firstOccurrencesAfter_elem|].
      split; [done|]. rewrite <- test_iff_EndsInDts. by rewrite Ht.
Qed.

(** Running the function on its own result changes nothing. *)
Theorem generateFilePathsForAnalysis_idempotent (l r : list string) :
  Extractor.generateFilePathsForAnalysis toUpperCase isAbsolute l = Ok r →
  Extractor.generateFilePathsForAnalysis toUpperCase isAbsolute r = Ok r.
Proof.
  intros H. apply generate_returns in H as [Hr Habs].
  assert (Hnd : NoDup (toUpperCase <$> r)).
  { rewrite Hr. apply NoDup_fmap_filter. unfold Extractor.firstOccurrences.
    apply (firstOccurrencesAfter_distinct toUpperCase l []). }
  assert (Hin : ∀ x, x ∈ r → isAbsolute x = true
                      ∧ Extractor.declarationFileExtensionRegExp_test x = true).
  { intros x Hx. rewrite Hr in Hx. apply filter_elem in Hx as [Hx Ht].
    split; [by apply Habs | done]. }
  unfold Extractor.generateFilePathsForAnalysis.
  rewrite (generateLoop_spec toUpperCase isAbsolute r [] ∅ []
             (seenOf_empty toUpperCase)).
  rewrite (firstOccurrencesAfter_id r []) by done.
  rewrite (proj2 (find_none_forall _ r)).
  - simpl. f_equal. apply filter_id. intros x Hx. by apply Hin.
  - intros x Hx. apply negb_false_iff. by apply Hin.
Qed.

(** Appending one path to the input: a call that threw still throws the
    same error; otherwise a path already present up to letter case is
    ignored, a new path that is not absolute throws, a new declaration
    file is appended to the result, and any other new path is dropped. *)
Theorem generateFilePathsForAnalysis_append (l : list string) (p : string) :
  Extractor.generateFilePathsForAnalysis toUpperCase isAbsolute (l ++ [p])
  = match Extractor.generateFilePathsForAnalysis toUpperCase isAbsolute l with
    | Throw m => Throw m
    | Ok r =>
        if existsb (Extractor.sameIgnoringCase toUpperCase p) l then Ok r
        else if negb (isAbsolute p)
        then Throw ("Input file is not an absolute path: " +:+ p)
        else if Extractor.declarationFileExtensionRegExp_test p
        then Ok (r ++ [p])
        else Ok r
    end.
Proof.
  unfold Extractor.generateFilePathsForAnalysis.
  rewrite !(generateLoop_spec toUpperCase isAbsolute _ [] ∅ []
              (seenOf_empty toUpperCase)).
  rewrite firstOccurrencesAfter_app. simpl.
  destruct (List.find _ (Extractor.firstOccurrencesAfter toUpperCase [] l)) eqn:E.
  - rewrite find_over_app. by rewrite E.
  - rewrite find_over_app, E. destruct (existsb _ l); simpl.
    + by rewrite app_nil_r.
    + destruct (isAbsolute p); simpl; [|done].
      rewrite List.filter_app. simpl.
      destruct (Extractor.declarationFileExtensionRegExp_test p); [done|].
      by rewrite app_nil_r.
Qed.

End GenerateFilePathsMore.

Lemma generateFilePathsForAnalysis_sound_complete_witness :
  (∃ y, y ∈ ["/a/x.d.ts"; "/b/Y.D.TS"]
        ∧ Demo.upperCase y = Demo.upperCase "/b/y.d.ts")
  ∨ (∃ f, f ∈ ["/a/x.d.ts"; "/a/readme.md"; "/b/Y.D.TS"; "/b/y.d.ts"]
          ∧ Demo.upperCase f = Demo.upperCase "/b/y.d.ts"
          ∧ ¬ Extractor.EndsInDts f).
Proof.
  destruct (generateFilePathsForAnalysis_sound_complete Demo.upperCase
              (Extractor.path_isAbsolute Demo.quiet)
              ["/a/x.d.ts"; "/a/readme.md"; "/b/Y.D.TS"; "/b/y.d.ts"]
              ["/a/x.d.ts"; "/b/Y.D.TS"]) as (_ & _ & H); [by vm_compute|].
  apply H.
  - apply list_elem_of_In. simpl. auto 10.
  - exists "/b/y", ".d.ts". by vm_compute.
Defined.

Lemma generateFilePathsForAnalysis_idempotent_witness :
  Extractor.generateFilePathsForAnalysis Demo.upperCase
    (Extractor.path_isAbsolute Demo.quiet) ["/a/x.d.ts"; "/b/Y.D.TS"]
  = Ok ["/a/x.d.ts"; "/b/Y.D.TS"].
Proof.
  apply (generateFilePathsForAnalysis_idempotent Demo.upperCase
           (Extractor.path_isAbsolute Demo.quiet)
           ["/a/x.d.ts"; "/a/readme.md"; "/b/Y.D.TS"; "/b/y.d.ts"]).
  by vm_compute.
Defined.

(** ** processProject: guards, rollup paths, local and production builds *)

(** With a complete configuration, an entry point that does not end in
    [.d.ts] (letter case ignored) makes [processProject] throw, whatever
    the analyzer and the generators would do. *)
Theorem processProject_rejects_entry_point (env : Extractor.Collaborators)
    (this : Extractor.Extractor) (projectConfig : option string) :
  is_Some (Extractor.policies (Extractor._actualConfig this)) →
  is_Some (Extractor.validationRules (Extractor._actualConfig this)) →
  is_Some (Extractor.apiJsonFile (Extractor._actualConfig this)) →
  is_Some (Extractor.apiReviewFile (Extractor._actualConfig this)) →
  is_Some (Extractor.dtsRollup (Extractor._actualConfig this)) →
  ¬ Extractor.EndsInDts (entryPointOf this projectConfig) →
  Extractor.processProject env this projectConfig
  = Throw ("The entry point is not a declaration file: "
           +:+ entryPointOf this projectConfig).
Proof.
  intros [? Hp] [? Hv] [? Hj] [? Hr] [? Hd] He.
  unfold Extractor.processProject. rewrite Hp, Hv, Hj, Hr, Hd.
  rewrite <- test_iff_EndsInDts in He. apply not_true_is_false in He.
  unfold entryPointOf in He. destruct projectConfig; simpl in *; by rewrite He.
Qed.

Lemma processProject_rejects_entry_point_witness :
  Extractor.processProject Demo.quiet (Demo.extractor true) (Some "lib/index.ts")
  = Throw "The entry point is not a declaration file: lib/index.ts".
Proof.
  apply (processProject_rejects_entry_point Demo.quiet (Demo.extractor true)
           (Some "lib/index.ts")); try by eexists.
  rewrite <- test_iff_EndsInDts. by vm_compute.
Defined.

(** The three rollup paths that cannot be used. *)
Lemma generateRollupDtsFiles_unusable (env : Extractor.Collaborators)
    (dtsRollup : Extractor.IExtractorDtsRollupConfig)
    (context : Extractor.ExtractorContext) (lg : Extractor.MonitoredLogger) :
  Extractor.dts_enabled dtsRollup = true →
  (∃ path, Extractor.truthy (Extractor.mainDtsRollupPath dtsRollup) = Some path
           ∧ Extractor.path_isAbsolute env path = true)
  ∨ (Extractor.truthy (Extractor.mainDtsRollupPath dtsRollup) = None
     ∧ Extractor.truthy (Extractor.typings context) = None)
  ∨ (∃ typings,
       Extractor.truthy (Extractor.mainDtsRollupPath dtsRollup) = None
       ∧ Extractor.truthy (Extractor.typings context) = Some typings
       ∧ Extractor.Path_isUnder env
           (Extractor.path_resolve env
              [Extractor.packageFolder context; typings])
           (if Extractor.trimming dtsRollup
            then Extractor.publishFolderForInternal dtsRollup
            else Extractor.publishFolder dtsRollup) = false) →
  ∃ lg', Extractor._generateRollupDtsFiles env dtsRollup context lg = Ok lg'
         ∧ Extractor.errorCount lg' = (Extractor.errorCount lg + 1)%N
         ∧ Extractor.warningCount lg' = Extractor.warningCount lg.
Proof.
  unfold Extractor._generateRollupDtsFiles.
  intros -> [(path & -> & Habs) | [[-> ->] | (typings & -> & -> & Hu)]];
    simpl.
  - rewrite Habs. by eexists.
  - by eexists.
  - destruct (Extractor.trimming dtsRollup); rewrite Hu; by eexists.
Qed.

(** A rollup path that cannot be used is reported, not thrown: when the
    rollup is enabled and [mainDtsRollupPath] is absolute, or it is not
    given and the package has no [typings], or the [typings] file is not
    under the publish folder, [_generateRollupDtsFiles] returns with
    exactly one more error counted and the warnings as they were, and the
    rollup generator is not run.  When the rollup is disabled the logger
    is returned as it is. *)
Theorem generateRollupDtsFiles_path_errors (env : Extractor.Collaborators)
    (dtsRollup : Extractor.IExtractorDtsRollupConfig)
    (context : Extractor.ExtractorContext) (lg : Extractor.MonitoredLogger) :
  (Extractor.dts_enabled dtsRollup = false →
     Extractor._generateRollupDtsFiles env dtsRollup context lg = Ok lg)
  ∧ (Extractor.dts_enabled dtsRollup = true →
     (∃ path, Extractor.truthy (Extractor.mainDtsRollupPath dtsRollup) = Some path
              ∧ Extractor.path_isAbsolute env path = true)
     ∨ (Extractor.truthy (Extractor.mainDtsRollupPath dtsRollup) = None
        ∧ Extractor.truthy (Extractor.typings context) = None)
     ∨ (∃ typings,
          Extractor.truthy (Extractor.mainDtsRollupPath dtsRollup) = None
          ∧ Extractor.truthy (Extractor.typings context) = Some typings
          ∧ Extractor.Path_isUnder env
              (Extractor.path_resolve env
                 [Extractor.packageFolder context; typings])
              (if Extractor.trimming dtsRollup
               then Extractor.publishFolderForInternal dtsRollup
               else Extractor.publishFolder dtsRollup) = false) →
     ∃ lg', Extractor._generateRollupDtsFiles env dtsRollup context lg = Ok lg'
            ∧ Extractor.errorCount lg' = (Extractor.errorCount lg + 1)%N
            ∧ Extractor.warningCount lg' = Extractor.warningCount lg).
Proof.
  split.
  - unfold Extractor._generateRollupDtsFiles. by intros ->.
  - apply generateRollupDtsFiles_unusable.
Qed.

Lemma generateRollupDtsFiles_path_errors_witness :
  ∃ lg', Extractor._generateRollupDtsFiles Demo.quiet
           (Extractor.mkDtsRollup true true "./dist" "./dist/internal"
              "./dist/beta" "./dist/public" (Some "/abs/index.d.ts"))
           (Extractor.mkContext "widget" "/pkg" None)
           (Extractor.mkLogger 2 5) = Ok lg'
         ∧ Extractor.errorCount lg' = 3%N
         ∧ Extractor.warningCount lg' = 5%N.
Proof.
  destruct (generateRollupDtsFiles_path_errors Demo.quiet
              (Extractor.mkDtsRollup true true "./dist" "./dist/internal"
                 "./dist/beta" "./dist/public" (Some "/abs/index.d.ts"))
              (Extractor.mkContext "widget" "/pkg" None)
              (Extractor.mkLogger 2 5)) as [_ H].
  apply H; [done|]. left. by exists "/abs/index.d.ts".
Defined.

(** A run whose rollup is enabled with an absolute [mainDtsRollupPath]
    never succeeds: whenever [processProject] returns, it returns false,
    for a local build as for any other. *)
Theorem processProject_absolute_rollup_fails (env : Extractor.Collaborators)
    (this this' : Extractor.Extractor) (projectConfig : option string)
    (b : bool) (dtsRollup : Extractor.IExtractorDtsRollupConfig) (path : string) :
  Extractor.dtsRollup (Extractor._actualConfig this) = Some dtsRollup →
  Extractor.dts_enabled dtsRollup = true →
  Extractor.truthy (Extractor.mainDtsRollupPath dtsRollup) = Some path →
  Extractor.path_isAbsolute env path = true →
  Extractor.processProject env this projectConfig = Ok (b, this') →
  b = false.
Proof.
  intros Hd Hen Hpath Habs H.
  unfold Extractor.processProject, Extractor.bindR in H. rewrite Hd in H.
  repeat match type of H with
         | context [match ?x with _ => _ end] =>
             lazymatch x with
             | Extractor._generateRollupDtsFiles _ _ _ _ => fail
             | Extractor._localBuild _ => fail
             | _ => destruct x eqn:?; try discriminate
             end
         end.
  match type of H with
  | context [Extractor._generateRollupDtsFiles env dtsRollup ?c ?lg] =>
      destruct (generateRollupDtsFiles_unusable env dtsRollup c lg)
        as (lg' & Hlg & He & _); [done | left; by exists path |];
      rewrite Hlg in H
  end.
  destruct (Extractor._localBuild this); injection H as <- _;
    apply bool_decide_eq_false; lia.
Qed.

Lemma processProject_absolute_rollup_fails_witness :
  match Extractor.processProject Demo.quiet
          (Extractor.mkExtractor Demo.absoluteRollupConfig true
             (Extractor.mkLogger 0 0) "/pkg") None with
  | Ok (b, _) => b = false
  | Throw _ => False
  end.
Proof.
  destruct (Extractor.processProject Demo.quiet _ None) as [[b this']|m] eqn:E;
    [|by vm_compute in E].
  by eapply (processProject_absolute_rollup_fails Demo.quiet _ this' None b
               Demo.absoluteRollup "/abs/index.d.ts"); [| | | |exact E].
Defined.

(** A build that passes as a production build passes as a local build:
    the same run with [localBuild] set returns true as well. *)
Theorem processProject_production_implies_local (env : Extractor.Collaborators)
    (this this' : Extractor.Extractor) (projectConfig : option string) :
  Extractor.processProject env (withLocalBuild false this) projectConfig
  = Ok (true, this') →
  Extractor.processProject env (withLocalBuild true this) projectConfig
  = Ok (true, withLocalBuild true this').
Proof.
  unfold Extractor.processProject, Extractor.bindR, withLocalBuild. simpl.
  intros H.
  repeat match type of H with
         | context [match ?x with _ => _ end] =>
             destruct x eqn:?; try discriminate
         end.
  injection H as Hb <-. simpl. apply bool_decide_eq_true in Hb.
  rewrite bool_decide_eq_true_2 by lia. done.
Qed.

Lemma processProject_production_implies_local_witness :
  ∃ this',
    Extractor.processProject Demo.silent
      (withLocalBuild true
         (Extractor.mkExtractor Demo.plainConfig false
            (Extractor.mkLogger 0 0) "/pkg")) None
    = Ok (true, withLocalBuild true this').
Proof.
  eexists.
  apply (processProject_production_implies_local Demo.silent).
  by vm_compute.
Defined.

(** ** Canonical references tell members apart *)

Lemma occurs_app (c : ascii) (a b : string) :
  occurs c (a +:+ b) = occurs c a || occurs c b.
Proof.
  induction a as [|d a IH]; [done|].
  rewrite append_cons. simpl. by rewrite IH, orb_assoc.
Qed.

Lemma occurs_false_no_split (c : ascii) (s a b : string) :
  occurs c s = false → s ≠ a +:+ String c b.
Proof.
  intros H ->. rewrite occurs_app in H. simpl in H.
  rewrite bool_decide_eq_true_2 in H by done.
  by rewrite orb_true_r in H.
Qed.

(** Two ways of cutting the same string: one prefix extends the other. *)
Lemma append_split (a b c d : string) :
  a +:+ b = c +:+ d →
  (∃ x, c = a +:+ x ∧ b = x +:+ d) ∨ (∃ x, a = c +:+ x ∧ d = x +:+ b).
Proof.
  revert c. induction a as [|h a IH]; intros c H.
  - left. exists c. by rewrite !append_nil_l in *.
  - destruct c as [|h' c].
    + right. exists (String h a). by rewrite !append_nil_l in *.
    + rewrite !append_cons in H. injection H as <- H.
      destruct (IH c H) as [(x & -> & ->) | (x & -> & ->)].
      * left. exists x. by rewrite append_cons.
      * right. exists x. by rewrite append_cons.
Qed.

Lemma append_length (a b : string) :
  String.length (a +:+ b) = (String.length a + String.length b)%nat.
Proof.
  induction a as [|h a IH]; [done|]. rewrite append_cons. simpl. by rewrite IH.
Qed.

Lemma append_cancel_r (a b c : string) : a +:+ c = b +:+ c → a = b.
Proof.
  revert b. induction a as [|h a IH]; intros [|h' b] H.
  - done.
  - apply (f_equal String.length) in H. rewrite append_nil_l, append_cons in H.
    simpl in H. rewrite append_length in H. lia.
  - apply (f_equal String.length) in H. rewrite append_nil_l, append_cons in H.
    simpl in H. rewrite append_length in H. lia.
  - rewrite !append_cons in H. injection H as <- H. f_equal. by apply IH.
Qed.

Lemma pretty_N_char_not_colon (x : N) : pretty_N_char x ≠ ":"%char.
Proof.
  unfold pretty_N_char. destruct x as [|q]; [done|].
  repeat (destruct q as [q|q|]; try done).
Qed.

Lemma occurs_pretty_N_go (x : N) (s : string) :
  occurs ":" s = false → occurs ":" (pretty_N_go x s) = false.
Proof.
  revert s. induction (N.lt_wf_0 x) as [x _ IH]; intros s Hs.
  destruct (decide (x = 0)%N) as [->|Hx]; [by rewrite pretty_N_go_0|].
  rewrite pretty_N_go_step by lia. apply IH.
  - apply N.div_lt; lia.
  - simpl. rewrite Hs, orb_false_r. apply bool_decide_eq_false.
    apply pretty_N_char_not_colon.
Qed.

Lemma occurs_numberToString (i : Z) : occurs ":" (JS.numberToString i) = false.
Proof.
  unfold JS.numberToString, pretty, pretty_Z.
  assert (Hp : ∀ q : positive, occurs ":" (pretty q) = false).
  { intros q. unfold pretty, pretty_positive, pretty, pretty_N.
    case_decide; [done|]. by apply occurs_pretty_N_go. }
  destruct i as [|q|q]; [done | apply Hp |].
  rewrite occurs_app, Hp. done.
Qed.

(** The part of a reference after the name. *)
Lemma reference_tail (name : string) (isStatic : bool) (i : Z) :
  ApiMethod.getCanonicalReference name isStatic i
  = String "(" (name +:+ String ":"
      ((if isStatic then "static," else "instance,")
       +:+ JS.numberToString i +:+ ")"))
  ∧ occurs ":" ((if isStatic then "static," else "instance,")
                +:+ JS.numberToString i +:+ ")") = false.
Proof.
  split; [by destruct isStatic|].
  rewrite !occurs_app, occurs_numberToString. by destruct isStatic.
Qed.

(** Two canonical references are equal only for the same name, the same
    static flag and the same overload index, whatever characters the names
    contain. *)
Theorem getCanonicalReference_injective (name1 name2 : string)
    (isStatic1 isStatic2 : bool) (i1 i2 : Z) :
  ApiMethod.getCanonicalReference name1 isStatic1 i1
  = ApiMethod.getCanonicalReference name2 isStatic2 i2 →
  name1 = name2 ∧ isStatic1 = isStatic2 ∧ i1 = i2.
Proof.
  destruct (reference_tail name1 isStatic1 i1) as [-> Hc1].
  destruct (reference_tail name2 isStatic2 i2) as [-> Hc2].
  intros [= H].
  assert (Hn : name1 = name2).
  { destruct (append_split _ _ _ _ H) as [(x & -> & Hx) | (x & -> & Hx)].
    - destruct x as [|c x]; [by rewrite append_nil_r|].
      rewrite append_cons in Hx. injection Hx as <- Hx.
      by destruct (occurs_false_no_split _ _ _ _ Hc1 Hx).
    - destruct x as [|c x]; [by rewrite append_nil_r|].
      rewrite append_cons in Hx. injection Hx as <- Hx.
      by destruct (occurs_false_no_split _ _ _ _ Hc2 Hx). }
  subst name2. apply (inj (String.app name1)) in H. injection H as H.
  split; [done|].
  destruct isStatic1, isStatic2; rewrite ?append_cons, ?append_nil_l in H;
    try discriminate.
  all: split; [done|]; simplify_eq.
  all: match goal with H : _ +:+ _ = _ +:+ _ |- _ =>
         apply append_cancel_r in H end.
  all: by apply (inj pretty).
Qed.

Lemma getCanonicalReference_injective_witness :
  "foo" = "foo" ∧ false = false ∧ 1 = 0 + 1.
Proof.
  apply (getCanonicalReference_injective "foo" "foo" false false 1 (0 + 1)).
  reflexivity.
Defined.

(** ** Excerpts: ranges compose, ends are clamped *)

Lemma join_app (a b : list string) : JS.join (a ++ b) = JS.join a +:+ JS.join b.
Proof.
  induction a as [|x a IH]; simpl; [done|]. by rewrite IH, append_assoc.
Qed.

Lemma slice_window (l : list Excerpt.ExcerptToken) (s e : Z) :
  0 ≤ s → 0 ≤ e →
  JS.slice l s e = take (Z.to_nat (e - s)) (drop (Z.to_nat s) l).
Proof.
  intros Hs He. rewrite slice_nonneg, tokensInRange_window by done.
  f_equal. lia.
Qed.

Lemma freshText (tokens : list Excerpt.ExcerptToken) (s e : Z) :
  (Excerpt.get_text (Excerpt.new tokens (Excerpt.mkRange s e))).1
  = Excerpt.concatText (JS.slice tokens s e).
Proof. done. Qed.

(** The text of two adjacent ranges, one after the other, is the text of
    the range that spans both. *)
Theorem Excerpt_text_adjacent (tokens : list Excerpt.ExcerptToken) (s m e : Z) :
  0 ≤ s → s ≤ m → m ≤ e →
  (Excerpt.get_text (Excerpt.new tokens (Excerpt.mkRange s m))).1
  +:+ (Excerpt.get_text (Excerpt.new tokens (Excerpt.mkRange m e))).1
  = (Excerpt.get_text (Excerpt.new tokens (Excerpt.mkRange s e))).1.
Proof.
  intros Hs Hm He. rewrite !freshText. unfold Excerpt.concatText.
  rewrite <- join_app, <- fmap_app. do 2 f_equal.
  rewrite !slice_window by lia.
  replace (Z.to_nat m) with (Z.to_nat s + Z.to_nat (m - s))%nat by lia.
  rewrite <- drop_drop, take_take_drop. f_equal. lia.
Qed.

Lemma Excerpt_text_adjacent_witness :
  (Excerpt.get_text (Excerpt.new [Demo.tokClass; Demo.tokName]
                       (Excerpt.mkRange 0 1))).1
  +:+ (Excerpt.get_text (Excerpt.new [Demo.tokClass; Demo.tokName]
                           (Excerpt.mkRange 1 2))).1
  = "class Widget".
Proof.
  rewrite (Excerpt_text_adjacent [Demo.tokClass; Demo.tokName] 0 1 2);
    [reflexivity | lia | lia | lia].
Defined.

(** At the ends of the array, for a start index that is not negative: an
    end index past the last token counts as the token count; a range whose
    end index is not negative and not after its start index has the empty
    text; a negative end index [-k] counts as the token count less [k],
    or as 0 when that is negative, so that the range [(0, -1)] over two
    tokens has the text of the first.  A negative start index [-k] with
    the token count as end index selects the last [k] tokens. *)
Theorem Excerpt_text_clamped (tokens : list Excerpt.ExcerptToken) (s e k : Z) :
  let n := Z.of_nat (length tokens) in
  0 ≤ s →
  (n ≤ e →
     (Excerpt.get_text (Excerpt.new tokens (Excerpt.mkRange s e))).1
     = (Excerpt.get_text (Excerpt.new tokens (Excerpt.mkRange s n))).1)
  ∧ (0 ≤ e → e ≤ s →
     (Excerpt.get_text (Excerpt.new tokens (Excerpt.mkRange s e))).1
     = EmptyString)
  ∧ (0 < k → k ≤ n →
     (Excerpt.get_text (Excerpt.new tokens (Excerpt.mkRange (- k) n))).1
     = Excerpt.concatText (drop (Z.to_nat (n - k)) tokens))
  ∧ (0 < k →
     (Excerpt.get_text (Excerpt.new tokens (Excerpt.mkRange s (- k)))).1
     = (Excerpt.get_text
          (Excerpt.new tokens (Excerpt.mkRange s (Z.max (n - k) 0)))).1).
Proof.
  intros n Hs. rewrite !freshText. split; [|split; [|split]].
  - intros He. f_equal. rewrite !slice_window by lia.
    rewrite !take_ge; [done | rewrite length_drop; lia ..].
  - intros He Hes. rewrite slice_window by lia.
    replace (Z.to_nat (e - s)) with 0%nat by lia. by rewrite take_0.
  - intros Hk Hkn. f_equal. unfold JS.slice. fold n.
    rewrite (proj2 (Z.ltb_lt (- k) 0)) by lia.
    rewrite (proj2 (Z.ltb_ge n 0)) by lia.
    replace (Z.max (n + - k) 0) with (n - k) by lia.
    replace (Z.min n n) with n by lia.
    apply take_ge. rewrite length_drop. lia.
  - intros Hk. f_equal. unfold JS.slice. fold n.
    rewrite (proj2 (Z.ltb_ge s 0)) by lia.
    rewrite (proj2 (Z.ltb_lt (- k) 0)) by lia.
    rewrite (proj2 (Z.ltb_ge (Z.max (n - k) 0) 0)) by lia.
    do 3 f_equal. lia.
Qed.

Lemma Excerpt_text_clamped_witness :
  (Excerpt.get_text (Excerpt.new [Demo.tokClass; Demo.tokName]
                       (Excerpt.mkRange (-1) 2))).1 = "Widget".
Proof.
  destruct (Excerpt_text_clamped [Demo.tokClass; Demo.tokName] 0 0 1)
    as (_ & _ & H & _); [lia|].
  refine (H _ _); [lia | simpl; lia].
Defined.

(** ** The library files of a TypeScript package *)

Section TypescriptPackageFacts.

Variable join : list string → string.
Variable fileExists : string → bool.

(** The libraries of [options.lib] other than the default one. *)
Let requested (libs : list string) : list string :=
  List.filter (λ f, negb (bool_decide (f = Extractor.DEFAULT_BUILTIN_LIBRARY))) libs.

Let missing (compilerLibFolder : string) (f : string) : bool :=
  negb (fileExists (join [compilerLibFolder; f])).

Let isBase (f : string) : bool :=
  bool_decide (f ∈ Extractor.OTHER_BUILTIN_LIBRARIES).

Lemma libLoop_spec (compilerLibFolder : string) (libs : list string)
    (foundBaseLib : bool) (filesToAdd : list string) :
  Extractor.libLoop join fileExists compilerLibFolder libs foundBaseLib filesToAdd
  = match find (missing compilerLibFolder) (requested libs) with
    | Some f =>
        Throw ("lib " +:+ f
               +:+ " does not exist in the compiler specified in typescriptLibPackage")
    | None =>
        Ok (foundBaseLib || existsb isBase (requested libs),
            filesToAdd
            ++ map (λ f, join [compilerLibFolder; f]) (requested libs))
    end.
Proof.
  revert foundBaseLib filesToAdd.
  induction libs as [|f libs IH]; intros b acc; simpl.
  - by rewrite orb_false_r, app_nil_r.
  - destruct (bool_decide (f = Extractor.DEFAULT_BUILTIN_LIBRARY)); simpl.
    + apply IH.
    + unfold missing at 1.
      destruct (negb (fileExists (join [compilerLibFolder; f]))); [done|].
      rewrite IH. destruct (find _ _); [done|].
      rewrite <- app_assoc. simpl. do 2 f_equal.
      unfold isBase at 2. destruct (bool_decide (f ∈ _)); simpl; [|done].
      by rewrite orb_true_r.
Qed.

(** With a compiler folder, the call fails at the first requested library
    (other than [lib.d.ts]) that the compiler's [lib] folder lacks, naming
    it. Otherwise it sets [noLib], clears [lib], and appends to the file
    names the paths of the requested libraries in their order, followed by
    the path of [lib.d.ts] exactly when neither [lib.es5.d.ts] nor
    [lib.es6.d.ts] was requested. Entries [lib.d.ts] of [lib] are skipped
    and never checked for existence. *)
Theorem updateCommandLineForTypescriptPackage_spec
    (commandLine : Extractor.ParsedCommandLine) (folder : string) :
  folder ≠ EmptyString →
  let compilerLibFolder := join [folder; "lib"] in
  let libs := requested (default [] (Extractor.lib commandLine)) in
  Extractor._updateCommandLineForTypescriptPackage join fileExists
    commandLine (Some folder)
  = match find (missing compilerLibFolder) libs with
    | Some f =>
        Throw ("lib " +:+ f
               +:+ " does not exist in the compiler specified in typescriptLibPackage")
    | None =>
        Ok (Extractor.mkCommandLine (Some true) None
              (Some (default [] (Extractor.fileNames commandLine)
                     ++ map (λ f, join [compilerLibFolder; f]) libs
                     ++ (if existsb isBase libs then []
                         else [join [compilerLibFolder; "lib.d.ts"]]))))
    end.
Proof.
  intros Hf. simpl. unfold Extractor._updateCommandLineForTypescriptPackage.
  replace (Extractor.truthy (Some folder)) with (Some folder)
    by by destruct folder.
  rewrite libLoop_spec. destruct (find _ _); [done|]. simpl.
  destruct (existsb _ _); simpl; [by rewrite app_nil_r | done].
Qed.

(** Without a compiler folder ([undefined] or the empty string) the
    command line is left as it is. *)
Lemma updateCommandLineForTypescriptPackage_no_folder
    (commandLine : Extractor.ParsedCommandLine) (folder : option string) :
  Extractor.truthy folder = None →
  Extractor._updateCommandLineForTypescriptPackage join fileExists
    commandLine folder = Ok commandLine.
Proof.
  intros H. unfold Extractor._updateCommandLineForTypescriptPackage.
  by rewrite H.
Qed.

End TypescriptPackageFacts.

Lemma updateCommandLineForTypescriptPackage_spec_witness :
  Extractor._updateCommandLineForTypescriptPackage (JS.join) (λ _, true)
    (Extractor.mkCommandLine None (Some ["lib.d.ts"; "lib.dom.d.ts"]) None)
    (Some "ts")
  = Ok (Extractor.mkCommandLine (Some true) None
          (Some ["tslib" +:+ "lib.dom.d.ts"; "tslib" +:+ "lib.d.ts"])).
Proof.
  rewrite (updateCommandLineForTypescriptPackage_spec JS.join (λ _, true));
    [reflexivity | discriminate].
Defined.

(** ** A resolution is remembered *)

Section Memo.

Variable p : Provider.

(** Whatever a resolution returned, resolving the same symbol again, with
    any value of [addIfMissing] (so also through [tryGetAstSymbol]),
    returns the same result and leaves the table as the first call left
    it: the second call is a lookup. *)
Theorem fetchAstSymbol_memoized (fuel fuel' : nat) (symbol : ts.Symbol)
    (b b' : bool) (t t' : AstSymbolTable) (x : option AstSymbolRef) :
  _fetchAstSymbol p fuel symbol b t = Returns x t' →
  _fetchAstSymbol p fuel' symbol b' t' = Returns x t'
  ∧ tryGetAstSymbol p fuel' symbol t' = Returns x t'.
Proof.
  intros H. cut (_fetchAstSymbol p fuel' symbol b' t' = Returns x t').
  { intros H'. split; [done|]. unfold tryGetAstSymbol.
    by rewrite (fetchAstSymbol_ignores_addIfMissing p fuel' symbol false b'). }
  destruct (decide (Z.land (flags p (followedSymbol (followAliases p symbol)))
                      (discardedFlags p) = 0)) as [Hf|Hf].
  2:{ rewrite (fetch_discarded p fuel symbol b t) in H by (by left).
      injection H as <- <-. apply fetch_discarded. by left. }
  destruct (isAmbient (followAliases p symbol)) eqn:Ha.
  { rewrite (fetch_discarded p fuel symbol b t) in H by (by right).
    injection H as <- <-. apply fetch_discarded. by right. }
  destruct (_astSymbolsBySymbol t !! followedSymbol (followAliases p symbol))
    as [a0|] eqn:Hm.
  { rewrite (fetch_by_identity p fuel symbol b t a0 Hf Ha Hm) in H.
    rewrite (fetch_by_identity p fuel' symbol b' t' a0 Hf Ha).
    - unfold checkImportStatus in *.
      destruct (_ && _) eqn:C; [discriminate|]. injection H as <- <-.
      by rewrite C.
    - unfold checkImportStatus in H.
      destruct (_ && _); [discriminate|]. by injection H as _ <-. }
  destruct (declarations p (followedSymbol (followAliases p symbol)))
    as [[|d ds]|] eqn:Hd.
  1,3: rewrite (fetch_no_declarations p fuel symbol b t) in H by auto;
    discriminate.
  destruct (astImport (followAliases p symbol)
            ≫= (λ i, _astSymbolsByImportKey t !! AstImport_key i))
    as [a0|] eqn:Hk.
  - destruct (astImport (followAliases p symbol)) as [i|] eqn:Hi;
      [|discriminate]. simpl in Hk.
    rewrite (fetch_by_import_key p fuel symbol b t a0 i d ds Hf Ha Hm Hd Hi Hk)
      in H.
    unfold checkImportStatus in H.
    destruct (_ && _) eqn:C; [discriminate|]. injection H as <- <-.
    rewrite (fetch_by_identity p fuel' symbol b' _ a0 Hf Ha)
      by apply lookup_insert_eq.
    unfold checkImportStatus. by rewrite C.
  - destruct (fetch_creates p fuel symbol b t x t' Hf Ha Hm) as
      (a & s & _ & _ & -> & _ & _ & _ & _ & _ & _ & Hreg & Himp); [|done|].
    { intros i Hi. by rewrite Hi in Hk. }
    rewrite (fetch_by_identity p fuel' symbol b' t' a Hf Ha Hreg).
    unfold checkImportStatus.
    destruct (astImport (followAliases p symbol)) as [i|].
    + destruct (Himp i eq_refl) as [_ ->]. by rewrite andb_false_r.
    + rewrite bool_decide_eq_false_2; [done|]. by intros [? ?].
Qed.

End Memo.

Lemma fetchAstSymbol_memoized_witness :
  _fetchAstSymbol Demo.demo 0 Demo.Widget false Demo.afterLocal
  = Returns (Some 0%nat) Demo.afterLocal
  ∧ tryGetAstSymbol Demo.demo 0 Demo.Widget Demo.afterLocal
    = Returns (Some 0%nat) Demo.afterLocal.
Proof.
  apply (fetchAstSymbol_memoized Demo.demo 1 0 Demo.Widget true false empty).
  by vm_compute.
Defined.

(** ** Entry points *)

Section EntryPoints.

Variable p : Provider.

Lemma extends_collectExports fuel exportSymbols exportedMembers :
  preserves extends (collectExports p fuel exportSymbols exportedMembers).
Proof.
  revert exportedMembers.
  induction exportSymbols as [|e rest IH]; intros exportedMembers;
    cbn [collectExports]; repeat preserves_step;
    auto using extends_fetchAstSymbol, extends_analyze.
Qed.

Lemma extends_fetchEntryPoint fuel sourceFile :
  preserves extends (fetchEntryPoint p fuel sourceFile).
Proof.
  unfold fetchEntryPoint. repeat preserves_step;
    auto using extends_collectExports.
  apply preserves_modify; solve_preorder. intros t.
  by apply extends_same_symbols.
Qed.

End EntryPoints.
(** ** Relations that hold across every method *)

Section FrameOfCreation.

Variable p : Provider.
Context (R : relation AstSymbolTable) `{!PreOrder R}.
Hypothesis Hcreate : ∀ astSymbol parentAstSymbol ds,
  preserves R (createDeclarations p astSymbol parentAstSymbol ds).
Hypothesis Hsymbol :
  ∀ localName followedSymbol astImport parentAstSymbol rootAstSymbol nominal,
    preserves R (newAstSymbol localName followedSymbol astImport
                   parentAstSymbol rootAstSymbol nominal).
Hypothesis Hidentity : ∀ k a, preserves R (modify (set_astSymbolsBySymbol k a)).
Hypothesis Hkey : ∀ k a, preserves R (modify (set_astSymbolsByImportKey k a)).

Lemma creation_constructAstSymbol r ds nominal0 pa :
  preserves R (constructAstSymbol p r ds nominal0 pa).
Proof.
  unfold constructAstSymbol. cbv zeta.
  repeat preserves_step; auto with preserves.
Qed.

Lemma frame_checkDeclarationKinds followedSymbol ds :
  preserves R (checkDeclarationKinds p followedSymbol ds).
Proof. unfold checkDeclarationKinds. repeat preserves_step. Qed.

Lemma creation_fetchAstSymbol fuel symbol addIfMissing :
  preserves R (_fetchAstSymbol p fuel symbol addIfMissing).
Proof.
  revert symbol addIfMissing.
  induction fuel as [|fuel IH]; intros symbol addIfMissing;
    cbn [_fetchAstSymbol]; cbv zeta;
    repeat preserves_step;
    auto using frame_checkDeclarationKinds, creation_constructAstSymbol
      with preserves.
Qed.

End FrameOfCreation.

Section Frame.

Variable p : Provider.
Context (R : relation AstSymbolTable) `{!PreOrder R}.
Hypothesis HR : primitivesPreserve R.

Lemma frame_createDeclarations astSymbol parentAstSymbol ds :
  preserves R (createDeclarations p astSymbol parentAstSymbol ds).
Proof.
  destruct HR as (_ & _ & Hdecl & _).
  unfold createDeclarations. apply preserves_forEach; solve_preorder.
  intros d. apply preserves_bind; solve_preorder; [|intros pd; apply Hdecl].
  repeat preserves_step.
Qed.

Lemma frame_constructAstSymbol r ds nominal0 pa :
  preserves R (constructAstSymbol p r ds nominal0 pa).
Proof.
  apply creation_constructAstSymbol; solve_preorder;
    [apply frame_createDeclarations | apply HR ..].
Qed.

Lemma frame_fetchAstSymbol fuel symbol addIfMissing :
  preserves R (_fetchAstSymbol p fuel symbol addIfMissing).
Proof.
  apply creation_fetchAstSymbol; solve_preorder;
    [apply frame_createDeclarations | apply HR ..].
Qed.

End Frame.

Section FrameOfMethods.

Variable p : Provider.
Context (R : relation AstSymbolTable) `{!PreOrder R}.
Hypothesis Hfetch : ∀ fuel symbol addIfMissing,
  preserves R (_fetchAstSymbol p fuel symbol addIfMissing).
Hypothesis Hanalyzed : ∀ a, preserves R (_notifyAnalyzed a).
Hypothesis Hreferenced : ∀ d r, preserves R (_notifyReferencedAstSymbol d r).

Lemma methods_analyzeChildTree fuel node governingAstDeclaration :
  preserves R (_analyzeChildTree p fuel node governingAstDeclaration).
Proof.
  revert node governingAstDeclaration.
  induction fuel as [|fuel IH]; intros node governingAstDeclaration;
    cbn [_analyzeChildTree]; unfold noteReference, _fetchAstDeclaration,
      _fetchAstSymbolForNode;
    repeat preserves_step; auto.
Qed.

Lemma methods_forEachDeclarationRecursive fuel d action :
  (∀ x, preserves R (action x)) →
  preserves R (forEachDeclarationRecursive fuel d action).
Proof.
  intros Ha. revert d.
  induction fuel as [|fuel IH]; intros d;
    cbn [forEachDeclarationRecursive]; repeat preserves_step; auto.
Qed.

Lemma methods_analyze fuel a : preserves R (analyze p fuel a).
Proof.
  revert a. induction fuel as [|fuel IH]; intros a t x t' H;
    cbn [analyze] in H; destruct (analyzed t a);
    try (injection H as _ <-; reflexivity); try discriminate.
  destruct (symbols t !! a) as [s|]; [|discriminate].
  destruct (nominal s); [by eapply Hanalyzed|].
  revert H.
  match goal with
  | |- ?m t = _ → _ => cut (preserves R m); [intros Hp; apply Hp|]
  end.
  repeat preserves_step;
    auto using methods_analyzeChildTree, methods_forEachDeclarationRecursive.
  apply methods_forEachDeclarationRecursive. intros d.
  repeat preserves_step; auto.
Qed.

Lemma methods_collectExports fuel exportSymbols exportedMembers :
  preserves R (collectExports p fuel exportSymbols exportedMembers).
Proof.
  revert exportedMembers.
  induction exportSymbols as [|e rest IH]; intros exportedMembers;
    cbn [collectExports]; repeat preserves_step;
    auto using methods_analyze.
Qed.

End FrameOfMethods.

Section FrameOfPrimitives.

Variable p : Provider.
Context (R : relation AstSymbolTable) `{!PreOrder R}.
Hypothesis HR : primitivesPreserve R.

Lemma frame_analyze fuel a : preserves R (analyze p fuel a).
Proof.
  apply methods_analyze; solve_preorder;
    [intros; by apply frame_fetchAstSymbol | apply HR ..].
Qed.

Lemma frame_collectExports fuel exportSymbols exportedMembers :
  preserves R (collectExports p fuel exportSymbols exportedMembers).
Proof.
  apply methods_collectExports; solve_preorder;
    [intros; by apply frame_fetchAstSymbol | apply HR ..].
Qed.

End FrameOfPrimitives.

(** ** Nothing built is lost *)

#[local] Instance laterDeclaration_refl : Reflexive laterDeclaration.
Proof. intros x. by repeat split. Qed.

#[local] Instance laterDeclaration_trans : Transitive laterDeclaration.
Proof.
  intros x1 x2 x3 (?&?&?&?&?) (?&?&?&?&?).
  repeat split; try congruence; by etrans.
Qed.

#[local] Instance grows_preorder : PreOrder grows.
Proof.
  split.
  - intros t. split; [|split].
    + intros a s H. by exists s.
    + intros d x H. by exists x.
    + done.
  - intros t1 t2 t3 (Hs12 & Hd12 & He12) (Hs23 & Hd23 & He23).
    split; [|split].
    + intros a s H. destruct (Hs12 a s H) as (s2 & H2 & L2 & P2).
      destruct (Hs23 a s2 H2) as (s3 & H3 & L3 & P3).
      exists s3. split; [done|]. split; by etrans.
    + intros d x H. destruct (Hd12 d x H) as (x2 & H2 & L2).
      destruct (Hd23 d x2 H2) as (x3 & H3 & L3).
      exists x3. split; [done|]. by etrans.
    + eauto.
Qed.

#[local] Instance sameEntryPoints_preorder : PreOrder sameEntryPoints.
Proof.
  split; [by intros t|]. intros t1 t2 t3 H12 H23.
  unfold sameEntryPoints in *. congruence.
Qed.

Lemma grows_same (t t' : AstSymbolTable) :
  symbols t' = symbols t → decls t' = decls t →
  _astEntryPointsBySourceFile t' = _astEntryPointsBySourceFile t →
  grows t t'.
Proof.
  intros Es Ed Ee. unfold grows. rewrite Es, Ed, Ee.
  apply grows_preorder.
Qed.

Lemma grows_alter_symbols (f : AstSymbol → AstSymbol) (a : AstSymbolRef)
    (t : AstSymbolTable) :
  (∀ s, laterSymbol s (f s) ∧ astDeclarations s `prefix_of` astDeclarations (f s)) →
  grows t (set_symbols (alter f a) t).
Proof.
  intros Hf. split; [|split]; simpl; [|intros ? x ?; by exists x|done].
  intros b s H. destruct (decide (a = b)) as [->|Hne].
  - exists (f s). rewrite list_lookup_alter_eq, H. split; [done|]. apply Hf.
  - exists s. by rewrite list_lookup_alter_ne.
Qed.

Lemma grows_alter_decls (f : AstDeclaration → AstDeclaration)
    (d : AstDeclarationRef) (t : AstSymbolTable) :
  (∀ x, laterDeclaration x (f x)) → grows t (set_decls (alter f d) t).
Proof.
  intros Hf. split; [|split]; simpl; [intros ? s ?; by exists s| |done].
  intros b x H. destruct (decide (d = b)) as [->|Hne].
  - exists (f x). by rewrite list_lookup_alter_eq, H.
  - exists x. by rewrite list_lookup_alter_ne.
Qed.

Lemma grows_push_symbols (l : list AstSymbol) (t : AstSymbolTable) :
  grows t (set_symbols (λ old, old ++ l) t).
Proof.
  split; [|split]; simpl; [|intros ? x ?; by exists x|done].
  intros a s H. exists s. split; [|done].
  rewrite lookup_app_l; [done|]. by eapply lookup_lt_Some.
Qed.

Lemma grows_push_decls (l : list AstDeclaration) (t : AstSymbolTable) :
  grows t (set_decls (λ old, old ++ l) t).
Proof.
  split; [|split]; simpl; [intros ? s ?; by exists s| |done].
  intros d x H. exists x. split; [|done].
  rewrite lookup_app_l; [done|]. by eapply lookup_lt_Some.
Qed.

Lemma grows_primitives : primitivesPreserve grows.
Proof.
  split; [|split; [|split; [|split; [|split]]]].
  - intros a. apply preserves_modify; solve_preorder. intros t.
    apply grows_alter_symbols. intros s. by repeat split.
  - intros ln fs ai pa ra nm t h t' H. injection H as _ <-.
    apply grows_push_symbols.
  - intros node owner pd t x t' H.
    attached H.
    injection H as _ <-.
    lazymatch goal with
    | |- grows _ (set_astDeclarationsByDeclaration _ _ ?X) =>
        transitivity X; [|by apply grows_same]
    end.
    assert (Hsym : grows t
              (set_symbols (alter (λ s,
                 mkAstSymbol (sym_localName s) (sym_followedSymbol s)
                   (sym_astImport s) (nominal s) (parentAstSymbol s)
                   (rootAstSymbol s) (astDeclarations s ++ [length (decls t)])
                   (_analyzed s)) owner)
                 (set_decls (λ l, l ++ [mkAstDeclaration node owner pd [] []])
                    t))).
    { etrans; [apply grows_push_decls|]. apply grows_alter_symbols.
      intros s. split; [by repeat split|]. by apply prefix_app_r. }
    destruct pd as [q|]; [|exact Hsym].
    etrans; [exact Hsym|]. apply grows_alter_decls. intros x0.
    repeat split; simpl; try done. by apply prefix_app_r.
  - intros d r. apply preserves_notifyReferencedAstSymbol; solve_preorder. intros t.
    apply grows_alter_decls. intros x.
    destruct (bool_decide _); [reflexivity|].
    repeat split; simpl; try done. by apply prefix_app_r.
  - intros k a. apply preserves_modify; solve_preorder. intros t.
    by apply grows_same.
  - intros k a. apply preserves_modify; solve_preorder. intros t.
    by apply grows_same.
Qed.

Lemma sameEntryPoints_primitives : primitivesPreserve sameEntryPoints.
Proof.
  split; [|split; [|split; [|split; [|split]]]].
  - intros a. by apply preserves_modify; solve_preorder.
  - intros ln fs ai pa ra nm t h t' H. by injection H as _ <-.
  - intros node owner pd t x t' H.
    attached H.
    injection H as _ <-. by destruct pd.
  - intros d r. by apply preserves_notifyReferencedAstSymbol.
  - intros k a. by apply preserves_modify; solve_preorder.
  - intros k a. by apply preserves_modify; solve_preorder.
Qed.

Lemma grows_extends (t t' : AstSymbolTable) : grows t t' → extends t t'.
Proof.
  intros (Hs & _) a s H. destruct (Hs a s H) as (s' & H' & L & _). by exists s'.
Qed.

Section Growth.

Variable p : Provider.

Lemma grows_fetchEntryPoint fuel sourceFile :
  preserves grows (fetchEntryPoint p fuel sourceFile).
Proof.
  intros t ms t' H. unfold fetchEntryPoint in H.
  unfold bind at 1, get in H.
  destruct (_astEntryPointsBySourceFile t !! sourceFile) eqn:Hnone;
    [injection H as _ <-; reflexivity|].
  destruct (getSymbolForDeclaration p sourceFile); [|discriminate].
  destruct (declarations p _) as [[|d ds]|]; try discriminate.
  apply bind_Returns in H as (ms' & t1 & Hc & H).
  apply bind_Returns in H as ([] & t2 & Hset & H).
  injection Hset as <-. injection H as _ <-.
  pose proof (frame_collectExports p grows grows_primitives _ _ _ _ _ _ Hc)
    as Hg.
  pose proof (frame_collectExports p sameEntryPoints sameEntryPoints_primitives
                _ _ _ _ _ _ Hc) as He.
  etrans; [exact Hg|]. split; [|split]; simpl; [intros ? s ?; by exists s|intros ? x ?; by exists x|].
  intros k e Hk. rewrite lookup_insert_ne; [done|].
  intros <-. rewrite He in Hk. congruence.
Qed.

(** Whenever one of the methods returns, nothing that was built before
    the call is lost: each symbol and each declaration is still there
    under its handle, with the same name, followed symbol, import, nominal
    flag, parent and root (or node, symbol and parent); its lists have
    only been appended to; an analyzed flag that was set is still set;
    and every recorded entry point is still recorded. *)
Theorem table_grows (fuel : nat) (t t' : AstSymbolTable) :
  (∀ symbol addIfMissing x,
     _fetchAstSymbol p fuel symbol addIfMissing t = Returns x t' → grows t t')
  ∧ (∀ symbol x, tryGetAstSymbol p fuel symbol t = Returns x t' → grows t t')
  ∧ (∀ a, analyze p fuel a t = Returns tt t' → grows t t')
  ∧ (∀ sourceFile ms,
       fetchEntryPoint p fuel sourceFile t = Returns ms t' → grows t t').
Proof.
  split; [|split; [|split]].
  - intros symbol b x H.
    by apply (frame_fetchAstSymbol p grows grows_primitives _ _ _ _ _ _ H).
  - intros symbol x H.
    by apply (frame_fetchAstSymbol p grows grows_primitives _ _ _ _ _ _ H).
  - intros a H. by apply (frame_analyze p grows grows_primitives _ _ _ _ _ H).
  - intros sf ms H. by apply (grows_fetchEntryPoint _ _ _ _ _ H).
Qed.

End Growth.

Lemma table_grows_witness : grows Demo.afterLocal Demo.afterAnalyze.
Proof.
  destruct (table_grows Demo.demo 8 Demo.afterLocal Demo.afterAnalyze)
    as (_ & _ & H & _).
  apply (H 0%nat). by vm_compute.
Defined.

(** ** What an entry point holds *)

Section EntryPointFacts.

Variable p : Provider.

Lemma collectExports_spec fuel exportSymbols exportedMembers t ms t' :
  wellFormed t →
  collectExports p fuel exportSymbols exportedMembers t = Returns ms t' →
  wellFormed t'
  ∧ ∃ new, ms = exportedMembers ++ new
      ∧ member_name <$> new = symbolName p <$> exportSymbols
      ∧ ∀ m, m ∈ new →
             validSymbol t' (member_astSymbol m)
             ∧ analyzed t' (member_astSymbol m) = true.
Proof.
  revert exportedMembers t.
  induction exportSymbols as [|e rest IH]; intros acc t Hwf H;
    cbn [collectExports] in H.
  - injection H as <- <-. split; [done|]. exists [].
    rewrite app_nil_r. split; [done|]. split; [done|].
    intros m Hm. by apply elem_of_nil in Hm.
  - apply bind_Returns in H as (x & t1 & Hf & H).
    destruct x as [a|]; [|discriminate].
    apply bind_Returns in H as ([] & t2 & Han & H).
    destruct (wellFormed_fetchAstSymbol p _ _ _ _ _ _ Hwf Hf) as (Hwf1 & Hv).
    specialize (Hv a eq_refl).
    pose proof (wellFormed_analyze p _ _ _ _ _ Han Hwf1) as Hwf2.
    destruct (analyze_twice p fuel 0 a t1 t2 Hv Han) as [Hdone _].
    pose proof (extends_analyze p _ _ _ _ _ Han) as Hext12.
    pose proof (extends_collectExports p _ _ _ _ _ _ H) as Hext.
    destruct (IH _ _ Hwf2 H) as (Hwf' & new & -> & Hnames & Hall).
    split; [done|].
    exists (mkExportedMember (symbolName p e) a :: new).
    split; [by rewrite <- app_assoc|]. split; [simpl; by f_equal|].
    intros m Hm. apply elem_of_cons in Hm as [-> | Hm]; [|by apply Hall].
    simpl. split; [|by eapply analyzed_mono].
    destruct Hv as (s & Hs & _).
    destruct (Hext12 a s Hs) as (s2 & Hs2 & _).
    destruct (Hext a s2 Hs2) as (s' & Hs' & _).
    destruct Hwf' as (Hsym & _). by eapply Hsym.
Qed.

(** Fetching an entry point that is not recorded yet, on a table as the
    methods build it: when the call returns, the members are named after
    the exports of the module, in the order of the exports; every member
    is a symbol of the table and is analyzed; the members are recorded
    for the source file. *)
Theorem fetchEntryPoint_exports (fuel : nat) (sourceFile : ts.Node)
    (t t' : AstSymbolTable) (ms : list IExportedMember) :
  wellFormed t →
  _astEntryPointsBySourceFile t !! sourceFile = None →
  fetchEntryPoint p fuel sourceFile t = Returns ms t' →
  ∃ rootFileSymbol,
    getSymbolForDeclaration p sourceFile = Some rootFileSymbol
    ∧ member_name <$> ms = symbolName p <$> getExportsOfModule p rootFileSymbol
    ∧ (∀ m, m ∈ ms →
            validSymbol t' (member_astSymbol m)
            ∧ analyzed t' (member_astSymbol m) = true)
    ∧ _astEntryPointsBySourceFile t' !! sourceFile = Some ms
    ∧ wellFormed t'.
Proof.
  intros Hwf Hnone H. unfold fetchEntryPoint in H.
  unfold bind at 1, get in H. rewrite Hnone in H.
  destruct (getSymbolForDeclaration p sourceFile) as [root|]; [|discriminate].
  destruct (declarations p root) as [[|d ds]|]; try discriminate.
  apply bind_Returns in H as (ms' & t1 & Hc & H).
  apply bind_Returns in H as ([] & t2 & Hset & H).
  injection Hset as <-. injection H as <- <-.
  destruct (collectExports_spec _ _ _ _ _ _ Hwf Hc)
    as (Hwf1 & new & -> & Hnames & Hall).
  exists root. split; [done|]. split; [done|]. split; [exact Hall|].
  split; [apply lookup_insert_eq|].
  revert Hwf1. by apply wellFormed_same.
Qed.

(** Once an entry point was fetched, fetching it again returns the same
    members and changes nothing, also after any further growth of the
    table. *)
Theorem fetchEntryPoint_cached (fuel fuel' : nat) (sourceFile : ts.Node)
    (t t1 t2 : AstSymbolTable) (ms : list IExportedMember) :
  fetchEntryPoint p fuel sourceFile t = Returns ms t1 →
  grows t1 t2 →
  fetchEntryPoint p fuel' sourceFile t2 = Returns ms t2.
Proof.
  intros H (_ & _ & Hkept).
  assert (Hrec : _astEntryPointsBySourceFile t1 !! sourceFile = Some ms).
  { unfold fetchEntryPoint in H. unfold bind at 1, get in H.
    destruct (_astEntryPointsBySourceFile t !! sourceFile) eqn:Hl;
      [by injection H as <- <-|].
    destruct (getSymbolForDeclaration p sourceFile); [|discriminate].
    destruct (declarations p _) as [[|d ds]|]; try discriminate.
    apply bind_Returns in H as (ms' & t0 & Hc & H).
    apply bind_Returns in H as ([] & t0' & Hset & H).
    injection Hset as <-. injection H as <- <-. apply lookup_insert_eq. }
  unfold fetchEntryPoint, bind, get. by rewrite (Hkept _ _ Hrec).
Qed.

Lemma collectExports_unsupported fuel exportSymbols e :
  e ∈ exportSymbols →
  Z.land (flags p (followedSymbol (followAliases p e))) (discardedFlags p) ≠ 0
  ∨ isAmbient (followAliases p e) = true →
  ∀ exportedMembers t ms t',
    collectExports p fuel exportSymbols exportedMembers t ≠ Returns ms t'.
Proof.
  intros Hin Hbad.
  induction exportSymbols as [|e' rest IH]; [by apply elem_of_nil in Hin|].
  intros acc t ms t' H. cbn [collectExports] in H.
  apply bind_Returns in H as (x & t1 & Hf & H).
  destruct (decide (e' = e)) as [->|Hne].
  - rewrite (fetch_discarded p fuel e true t Hbad) in Hf.
    injection Hf as <- <-. discriminate.
  - destruct x as [a|]; [|discriminate].
    apply bind_Returns in H as ([] & t2 & Han & H).
    apply elem_of_cons in Hin as [-> | Hin]; [done|].
    by apply (IH Hin _ _ _ _ H).
Qed.

(** The two errors of [fetchEntryPoint] for a source file that is not
    recorded.  A module symbol without declarations makes the call throw,
    naming the file.  A module that exports a type parameter, a type
    literal, a transient symbol or an ambient symbol cannot be fetched:
    the call never returns members, and it throws naming the export when
    that export comes first. *)
Theorem fetchEntryPoint_errors (fuel : nat) (sourceFile : ts.Node)
    (rootFileSymbol : ts.Symbol) (t : AstSymbolTable) :
  _astEntryPointsBySourceFile t !! sourceFile = None →
  getSymbolForDeclaration p sourceFile = Some rootFileSymbol →
  (declarations p rootFileSymbol = None ∨ declarations p rootFileSymbol = Some [] →
   fetchEntryPoint p fuel sourceFile t
   = Throws ("Unable to find a root declaration for " +:+ fileName p sourceFile))
  ∧ (∀ e,
       e ∈ getExportsOfModule p rootFileSymbol →
       Z.land (flags p (followedSymbol (followAliases p e))) (discardedFlags p) ≠ 0
       ∨ isAmbient (followAliases p e) = true →
       (∀ ms t', fetchEntryPoint p fuel sourceFile t ≠ Returns ms t')
       ∧ (∀ d ds rest,
            declarations p rootFileSymbol = Some (d :: ds) →
            getExportsOfModule p rootFileSymbol = e :: rest →
            fetchEntryPoint p fuel sourceFile t
            = Throws ("Unsupported export: " +:+ symbolName p e))).
Proof.
  intros Hnone Hroot. split.
  - intros Hd. unfold fetchEntryPoint, bind at 1, get.
    rewrite Hnone, Hroot. by destruct Hd as [-> | ->].
  - intros e Hin Hbad. split.
    + intros ms t' H. unfold fetchEntryPoint in H.
      unfold bind at 1, get in H. rewrite Hnone, Hroot in H.
      destruct (declarations p rootFileSymbol) as [[|d ds]|]; try discriminate.
      apply bind_Returns in H as (ms' & t1 & Hc & _).
      by apply (collectExports_unsupported _ _ _ Hin Hbad _ _ _ _ Hc).
    + intros d ds rest Hd He. unfold fetchEntryPoint, bind at 1, get.
      rewrite Hnone, Hroot, Hd, He. cbn [collectExports].
      unfold bind. by rewrite (fetch_discarded p fuel e true t Hbad).
Qed.

End EntryPointFacts.

Lemma fetchEntryPoint_exports_witness :
  member_name <$> [mkExportedMember "Widget" 0%nat] = ["Widget"]
  ∧ analyzed Demo.afterEntryPoint 0 = true.
Proof.
  destruct (fetchEntryPoint_exports Demo.demo 8 Demo.widgetFile empty
              Demo.afterEntryPoint [mkExportedMember "Widget" 0%nat])
    as (root & Hroot & Hnames & Hall & _);
    [exact wellFormed_empty | done | by vm_compute |].
  injection Hroot as <-. split; [exact Hnames|].
  apply (Hall (mkExportedMember "Widget" 0%nat)).
  by apply list_elem_of_singleton.
Defined.

Lemma fetchEntryPoint_cached_witness :
  fetchEntryPoint Demo.demo 0 Demo.widgetFile Demo.afterEntryPoint
  = Returns [mkExportedMember "Widget" 0%nat] Demo.afterEntryPoint.
Proof.
  apply (fetchEntryPoint_cached Demo.demo 8 0 Demo.widgetFile empty
           Demo.afterEntryPoint Demo.afterEntryPoint).
  - by vm_compute.
  - reflexivity.
Defined.

Lemma fetchEntryPoint_errors_witness :
  fetchEntryPoint Demo.ambientExport 8 Demo.widgetFile empty
  = Throws "Unsupported export: sym".
Proof.
  destruct (fetchEntryPoint_errors Demo.ambientExport 8 Demo.widgetFile
              Demo.FileModule empty) as (_ & H); [done | done |].
  destruct (H Demo.AmbientSym) as (_ & H');
    [apply elem_of_cons; by left | by right |].
  by apply (H' Demo.widgetFile [] [Demo.Widget]).
Defined.

(** ** The index of declarations by node *)

#[local] Instance keepsIndexed_preorder : PreOrder keepsIndexed.
Proof.
  split.
  - by intros t H.
  - intros t1 t2 t3 H12 H23 H. by apply H23, H12.
Qed.

Lemma indexed_same (t t' : AstSymbolTable) :
  decls t' = decls t →
  _astDeclarationsByDeclaration t' = _astDeclarationsByDeclaration t →
  keepsIndexed t t'.
Proof. intros Ed Em H. unfold declsIndexed. by rewrite Ed, Em. Qed.

Lemma lookup_alter_declaration (G : AstDeclaration → AstDeclaration)
    (q h : nat) (l : list AstDeclaration) (x : AstDeclaration) :
  (∀ y, declaration (G y) = declaration y) →
  l !! h = Some x →
  ∃ x', alter G q l !! h = Some x' ∧ declaration x' = declaration x.
Proof.
  intros HG Hx. destruct (decide (q = h)) as [->|Hne].
  - exists (G x). by rewrite list_lookup_alter_eq, Hx.
  - exists x. by rewrite list_lookup_alter_ne.
Qed.

Lemma indexed_alter_decls (G : AstDeclaration → AstDeclaration) (q : nat)
    (t : AstSymbolTable) :
  (∀ y, declaration (G y) = declaration y) →
  keepsIndexed t (set_decls (alter G q) t).
Proof.
  intros HG H n h Hl. destruct (H n h Hl) as (x & Hx & Hd).
  destruct (lookup_alter_declaration G q h _ x HG Hx) as (x' & Hx' & Hd').
  exists x'. split; [done|]. congruence.
Qed.

Lemma keepsIndexed_primitives : primitivesPreserve keepsIndexed.
Proof.
  split; [|split; [|split; [|split; [|split]]]].
  - intros a. apply preserves_modify; solve_preorder. intros t.
    by apply indexed_same.
  - intros ln fs ai pa ra nm t h t' H. injection H as _ <-.
    by apply indexed_same.
  - intros node owner pd t x t' H Hidx.
    attached H.
    injection H as _ <-.
    assert (Hnew : ∀ h y, (decls t ++ [mkAstDeclaration node owner pd [] []]) !! h
                          = Some y →
              ∃ y', decls (match pd with
                           | Some q =>
                               set_decls (alter (λ x,
                                 mkAstDeclaration (declaration x) (astSymbol x)
                                   (parent x) (children x ++ [length (decls t)])
                                   (referencedAstSymbols x)) q)
                           | None => λ t, t
                           end (set_decls (λ l, l ++
                                  [mkAstDeclaration node owner pd [] []]) t))
                    !! h = Some y'
                    ∧ declaration y' = declaration y).
    { intros h y Hy. destruct pd as [q|]; simpl; [|by exists y].
      by apply lookup_alter_declaration. }
    intros n h Hl.
    assert (Hl' : <[node := length (decls t)]> (_astDeclarationsByDeclaration t)
                  !! n = Some h) by (by destruct pd).
    rewrite lookup_insert in Hl'. case_decide as Hn.
    + subst n. injection Hl' as <-.
      destruct (Hnew (length (decls t)) (mkAstDeclaration node owner pd [] []))
        as (y' & Hy' & Hd); [by apply list_lookup_middle|].
      exists y'. split; [|done]. by destruct pd.
    + destruct (Hidx n h Hl') as (y & Hy & Hd).
      destruct (Hnew h y) as (y' & Hy' & Hd').
      { rewrite lookup_app_l; [done|]. by eapply lookup_lt_Some. }
      exists y'. split; [by destruct pd | congruence].
  - intros d r. apply preserves_notifyReferencedAstSymbol; solve_preorder. intros t.
    apply indexed_alter_decls. intros y. by destruct (bool_decide _).
  - intros k a. apply preserves_modify; solve_preorder. intros t.
    by apply indexed_same.
  - intros k a. apply preserves_modify; solve_preorder. intros t.
    by apply indexed_same.
Qed.

Lemma reachable_indexed (p : Provider) (t : AstSymbolTable) :
  reachable p t → declsIndexed t.
Proof.
  induction 1 as [|fuel symbol t x t' _ IH H|fuel a t t' _ IH H
                 |fuel sf t ms t' _ IH H].
  - intros n h Hl. simpl in Hl. by rewrite lookup_empty in Hl.
  - by apply (frame_fetchAstSymbol p keepsIndexed keepsIndexed_primitives
                _ _ _ _ _ _ H).
  - by apply (frame_analyze p keepsIndexed keepsIndexed_primitives _ _ _ _ _ H).
  - unfold fetchEntryPoint in H. unfold bind at 1, get in H.
    destruct (_astEntryPointsBySourceFile t !! sf);
      [by injection H as _ <-|].
    destruct (getSymbolForDeclaration p sf); [|discriminate].
    destruct (declarations p _) as [[|d ds]|]; try discriminate.
    apply bind_Returns in H as (ms' & t1 & Hc & H).
    apply bind_Returns in H as ([] & t2 & Hset & H).
    injection Hset as <-. injection H as _ <-.
    apply (indexed_same t1); [done | done |].
    by apply (frame_collectExports p keepsIndexed keepsIndexed_primitives
                _ _ _ _ _ _ Hc).
Qed.

(** On a table of a run, [getChildAstDeclarationByNode] returns a
    declaration exactly when the symbol of the given parent declaration is
    analyzed, the node is recorded in the index, and the declaration
    recorded for it has the given parent.  The declaration it returns was
    built for the node, and the table is left as it is. *)
Theorem getChildAstDeclarationByNode_spec (p : Provider) (t t' : AstSymbolTable)
    (node : ts.Node) (parentAstDeclaration c : AstDeclarationRef) :
  reachable p t →
  (getChildAstDeclarationByNode node parentAstDeclaration t = Returns c t'
   ↔ t' = t
     ∧ (∃ px, decls t !! parentAstDeclaration = Some px
              ∧ analyzed t (astSymbol px) = true)
     ∧ _astDeclarationsByDeclaration t !! node = Some c
     ∧ ∃ x, decls t !! c = Some x
            ∧ declaration x = node
            ∧ parent x = Some parentAstDeclaration).
Proof.
  intros Hr. pose proof (reachable_indexed p t Hr) as Hidx.
  unfold getChildAstDeclarationByNode. split.
  - intros H.
    destruct (decls t !! parentAstDeclaration) as [px|] eqn:Hpx;
      simpl in H; [|discriminate].
    destruct (analyzed t (astSymbol px)) eqn:Han; simpl in H; [|discriminate].
    destruct (_astDeclarationsByDeclaration t !! node) as [c0|] eqn:Hc;
      [|discriminate].
    destruct (bool_decide _) eqn:Hp; [|discriminate].
    injection H as <- <-. apply bool_decide_eq_true in Hp.
    destruct (Hidx node c0 Hc) as (x & Hx & Hd).
    rewrite Hx in Hp. simpl in Hp.
    split; [done|]. split; [by exists px|]. split; [done|]. by exists x.
  - intros (-> & (px & Hpx & Han) & Hc & (x & Hx & _ & Hp)).
    rewrite Hpx. simpl. rewrite Han, Hc. simpl.
    rewrite bool_decide_eq_true_2; [done|]. by rewrite Hx.
Qed.

Lemma getChildAstDeclarationByNode_spec_witness :
  getChildAstDeclarationByNode Demo.renderMethod 0%nat Demo.afterAnalyze
  = Returns 1%nat Demo.afterAnalyze.
Proof.
  assert (Hr : reachable Demo.demo Demo.afterAnalyze).
  { apply (reachable_analyze Demo.demo 8 0%nat Demo.afterLocal);
      [|by vm_compute].
    apply (reachable_tryGetAstSymbol Demo.demo 1 Demo.Widget empty (Some 0%nat));
      [apply reachable_new | by vm_compute]. }
  apply (getChildAstDeclarationByNode_spec Demo.demo _ _ _ _ _ Hr).
  split; [done|]. split; [eexists; split; [reflexivity | by vm_compute]|].
  split; [by vm_compute|]. eexists. split; [reflexivity|]. by split.
Defined.

(** ** The forest of symbols *)

#[local] Instance keepsRooted_preorder : PreOrder keepsRooted.
Proof.
  split.
  - by intros t H.
  - intros t1 t2 t3 H12 H23 H. by apply H23, H12.
Qed.

#[local] Instance sameSymbolCount_preorder : PreOrder sameSymbolCount.
Proof.
  split; [by intros t|]. intros t1 t2 t3 H12 H23.
  unfold sameSymbolCount in *. congruence.
Qed.

(** Old symbols keep their place in the forest; it is enough to look at
    the new ones. *)
Lemma rooted_step (t t' : AstSymbolTable) :
  rooted t → extends t t' →
  (∀ a s', symbols t' !! a = Some s' → (length (symbols t) ≤ a)%nat →
           rootedAt t' a s') →
  rooted t'.
Proof.
  intros Hr He Hnew a s' Hs'.
  destruct (decide (a < length (symbols t))%nat) as [Hlt|Hge];
    [|apply Hnew; [done | lia]].
  destruct (lookup_lt_is_Some_2 _ _ Hlt) as [s Hs].
  destruct (He a s Hs) as (s'' & Hs'' & L).
  rewrite Hs' in Hs''. injection Hs'' as <-.
  destruct L as (_ & _ & _ & Hnom & Hpar & Hroot & _).
  specialize (Hr a s Hs). unfold rootedAt in *. rewrite Hpar, Hroot, Hnom.
  destruct (parentAstSymbol s) as [q|]; [|done].
  destruct Hr as (Hn & Hq & sq & Hsq & Hrq).
  split; [done|]. split; [done|].
  destruct (He q sq Hsq) as (sq' & Hsq' & Lq).
  destruct Lq as (_ & _ & _ & _ & _ & Hrootq & _).
  exists sq'. split; [done|]. congruence.
Qed.

Lemma rooted_same (t t' : AstSymbolTable) :
  symbols t' = symbols t → rooted t → rooted t'.
Proof. intros E H. unfold rooted, rootedAt. by rewrite E. Qed.

Lemma rooted_alter (f : AstSymbol → AstSymbol) (a : AstSymbolRef)
    (t : AstSymbolTable) :
  (∀ s, laterSymbol s (f s)) → rooted t → rooted (set_symbols (alter f a) t).
Proof.
  intros Hf Hr. apply (rooted_step t); [done | by apply extends_alter |].
  intros b s' Hs' Hge. apply lookup_lt_Some in Hs'. simpl in Hs'.
  rewrite length_alter in Hs'. lia.
Qed.

Section Forest.

Variable p : Provider.

Lemma sameSymbolCount_createDeclarations astSymbol parentAstSymbol ds :
  preserves sameSymbolCount (createDeclarations p astSymbol parentAstSymbol ds).
Proof.
  unfold createDeclarations. apply preserves_forEach; solve_preorder.
  intros d. apply preserves_bind; solve_preorder; [repeat preserves_step|].
  intros pd t x t' H.
  attached H.
  injection H as _ <-. unfold sameSymbolCount.
  destruct pd; simpl; by rewrite length_alter.
Qed.

Lemma rooted_constructAstSymbol r ds nominal0 pa t x t' :
  rooted t →
  (nominal0 = true → pa = None) →
  (∀ q, pa = Some q → is_Some (symbols t !! q)) →
  constructAstSymbol p r ds nominal0 pa t = Returns x t' →
  rooted t'.
Proof.
  intros Hr Hnom Hpa H.
  pose proof (extends_constructAstSymbol p r ds nominal0 pa t x t' H) as Hext.
  apply (rooted_step t); [done | done |].
  unfold constructAstSymbol in H. cbv zeta in H.
  apply bind_Returns in H as (t0 & t1 & Hget & H). injection Hget as <- <-.
  apply bind_Returns in H as (a & t2 & Hnew & H). injection Hnew as <- <-.
  apply bind_Returns in H as ([] & t3 & Hreg & H). injection Hreg as <-.
  apply bind_Returns in H as ([] & t4 & Hkey & H).
  apply bind_Returns in H as ([] & t5 & Hdecl & H).
  unfold checkImportStatus in H. destruct (_ && _); [discriminate|].
  injection H as _ <-.
  set (s0 := mkAstSymbol (localName r) (followedSymbol r) (astImport r) nominal0
               pa (default (length (symbols t))
                     (pa ≫= λ pa, rootAstSymbol <$> symbols t !! pa)) [] false)
    in *.
  assert (Hsym4 : symbols t4 = symbols t ++ [s0])
    by (by destruct (astImport r); injection Hkey as <-).
  pose proof (sameSymbolCount_createDeclarations _ _ _ _ _ _ Hdecl) as Hlen.
  pose proof (extends_createDeclarations p _ _ _ _ _ _ Hdecl) as Hext45.
  unfold sameSymbolCount in Hlen. rewrite Hsym4, length_app in Hlen.
  simpl in Hlen.
  intros a s' Hs' Hge.
  assert (a = length (symbols t)) as ->.
  { apply lookup_lt_Some in Hs'. lia. }
  destruct (Hext45 (length (symbols t)) s0) as (s'' & Hs'' & L).
  { rewrite Hsym4. by apply list_lookup_middle. }
  rewrite Hs' in Hs''. injection Hs'' as <-.
  destruct L as (_ & _ & _ & Hn & Hpar & Hroot & _). simpl in Hn, Hpar, Hroot.
  unfold rootedAt. rewrite Hpar, Hroot, Hn.
  destruct pa as [q|]; [|done].
  destruct (Hpa q eq_refl) as [sq Hsq]. simpl. rewrite Hsq. simpl.
  split; [destruct nominal0; [by specialize (Hnom eq_refl) | done]|].
  split; [by eapply lookup_lt_Some|].
  destruct (Hext q sq Hsq) as (sq' & Hsq' & Lq).
  destruct Lq as (_ & _ & _ & _ & _ & Hrootq & _).
  exists sq'. split; [done|]. congruence.
Qed.

Lemma rooted_fetchAstSymbol fuel symbol addIfMissing t x t' :
  wellFormed t → rooted t →
  _fetchAstSymbol p fuel symbol addIfMissing t = Returns x t' →
  rooted t'.
Proof.
  revert symbol addIfMissing t x t'.
  induction fuel as [|fuel IH]; intros symbol addIfMissing t x t' Hwf Hr H.
  all: cbn [_fetchAstSymbol] in H; cbv zeta in H.
  all: destruct (bool_decide _); [by injection H as _ <-|].
  all: destruct (isAmbient _); [by injection H as _ <-|].
  all: unfold bind at 1, get in H.
  all: destruct (_astSymbolsBySymbol t !! _) as [a|] eqn:Hm;
    [unfold checkImportStatus in H; destruct (_ && _); [discriminate|];
     by injection H as _ <-|].
  all: destruct (declarations p _) as [[|d ds]|]; try discriminate.
  all: destruct (astImport (followAliases p symbol) ≫= _) as [a|] eqn:Hk;
    [apply bind_Returns in H as ([] & t1 & Hset & H); injection Hset as <-;
     unfold checkImportStatus in H; destruct (_ && _); [discriminate|];
     by injection H as _ <-|].
  all: apply bind_Returns in H as (pa & t1 & Hpa & H).
  all: eapply (rooted_constructAstSymbol _ _ _ pa t1); [| | |exact H].
  all: destruct (computeNominal p (d :: ds) d);
    [injection Hpa as <- <-; done ..|].
  all: apply bind_Returns in Hpa as ([] & t0 & Hchk & Hpa).
  all: apply unchanged_checkDeclarationKinds in Hchk as ->.
  all: destruct (_tryFindFirstAstDeclarationParent p d);
    [|injection Hpa as <- <-; done].
  all: destruct (getSymbolForDeclaration p _); try discriminate.
  all: apply bind_Returns in Hpa as (r & t0 & Hrec & Hpa).
  all: destruct r as [q|]; [|discriminate]; injection Hpa as <- <-.
  all: try done.
  - by eapply IH.
  - intros a [= <-].
    destruct (wellFormed_fetchAstSymbol p _ _ _ _ _ _ Hwf Hrec) as (_ & Hq).
    destruct (Hq q eq_refl) as (s & Hs & _). by exists s.
Qed.

Lemma keepsRooted_fetchAstSymbol fuel symbol addIfMissing :
  preserves keepsRooted (_fetchAstSymbol p fuel symbol addIfMissing).
Proof.
  intros t x t' H [Hwf Hr]. split.
  - by destruct (wellFormed_fetchAstSymbol p _ _ _ _ _ _ Hwf H).
  - by eapply rooted_fetchAstSymbol.
Qed.

Lemma keepsRooted_notifyAnalyzed a : preserves keepsRooted (_notifyAnalyzed a).
Proof.
  intros t x t' H [Hwf Hr]. split.
  - by apply (wellFormed_notifyAnalyzed a t x t' H).
  - injection H as _ <-. apply rooted_alter; [|done]. intros s. by repeat split.
Qed.

Lemma keepsRooted_notifyReferencedAstSymbol d r :
  preserves keepsRooted (_notifyReferencedAstSymbol d r).
Proof.
  intros t x t' H [Hwf Hr]. split.
  - by apply (wellFormed_notifyReferencedAstSymbol d r t x t' H).
  - unfold _notifyReferencedAstSymbol in H. destruct (_ && _); [discriminate|].
    injection H as _ <-. by apply (rooted_same t).
Qed.

Lemma reachable_rooted (t : AstSymbolTable) :
  reachable p t → wellFormed t ∧ rooted t.
Proof.
  induction 1 as [|fuel symbol t x t' _ IH H|fuel a t t' _ IH H
                 |fuel sf t ms t' _ IH H].
  - split; [apply wellFormed_empty|]. intros a s Hs. by destruct a.
  - by apply (keepsRooted_fetchAstSymbol _ _ _ _ _ _ H).
  - by apply (methods_analyze p keepsRooted keepsRooted_fetchAstSymbol
                keepsRooted_notifyAnalyzed keepsRooted_notifyReferencedAstSymbol
                _ _ _ _ _ H).
  - unfold fetchEntryPoint in H. unfold bind at 1, get in H.
    destruct (_astEntryPointsBySourceFile t !! sf);
      [by injection H as _ <-|].
    destruct (getSymbolForDeclaration p sf); [|discriminate].
    destruct (declarations p _) as [[|d ds]|]; try discriminate.
    apply bind_Returns in H as (ms' & t1 & Hc & H).
    apply bind_Returns in H as ([] & t2 & Hset & H).
    injection Hset as <-. injection H as _ <-.
    destruct (methods_collectExports p keepsRooted keepsRooted_fetchAstSymbol
                keepsRooted_notifyAnalyzed keepsRooted_notifyReferencedAstSymbol
                _ _ _ _ _ _ Hc IH) as [Hwf1 Hr1].
    split; [revert Hwf1; by apply wellFormed_same | by apply (rooted_same t1)].
Qed.

(** On a table of a run the symbols form a forest.  A symbol without
    parent is its own root.  A symbol with a parent is not nominal, was
    built after its parent, and has the root of its parent.  The root of
    every symbol is a symbol of the table, built no later than the symbol,
    that has no parent and is its own root. *)
Theorem reachable_forest (t : AstSymbolTable) (a : AstSymbolRef) (s : AstSymbol) :
  reachable p t →
  symbols t !! a = Some s →
  rootedAt t a s
  ∧ (rootAstSymbol s ≤ a)%nat
  ∧ ∃ r, symbols t !! rootAstSymbol s = Some r
         ∧ parentAstSymbol r = None
         ∧ rootAstSymbol r = rootAstSymbol s.
Proof.
  intros Hreach. destruct (reachable_rooted t Hreach) as [_ Hr].
  intros Hs. split; [by apply Hr|]. revert s Hs.
  induction (lt_wf a) as [a _ IH]. intros s Hs.
  pose proof (Hr a s Hs) as Ha. unfold rootedAt in Ha.
  destruct (parentAstSymbol s) as [q|] eqn:Hpar.
  - destruct Ha as (_ & Hq & sq & Hsq & Hroot).
    destruct (IH q Hq sq Hsq) as (Hle & r & Hlr & Hpr & Hrr).
    rewrite Hroot. split; [lia|]. by exists r.
  - rewrite Ha. split; [done|]. exists s. by rewrite Ha.
Qed.

End Forest.

Lemma reachable_forest_witness :
  rootedAt Demo.afterAnalyze 1
    (mkAstSymbol "sym" Demo.render None false (Some 0%nat) 0 [1%nat] false)
  ∧ (0 ≤ 1)%nat
  ∧ ∃ r, symbols Demo.afterAnalyze !! 0%nat = Some r
         ∧ parentAstSymbol r = None
         ∧ rootAstSymbol r = 0%nat.
Proof.
  apply (reachable_forest Demo.demo Demo.afterAnalyze 1); [|by vm_compute].
  apply (reachable_analyze Demo.demo 8 0%nat Demo.afterLocal);
    [|by vm_compute].
  apply (reachable_tryGetAstSymbol Demo.demo 1 Demo.Widget empty (Some 0%nat));
    [apply reachable_new | by vm_compute].
Defined.

(** ** The declarations of a new symbol *)

Lemma grows_decls_length (t t' : AstSymbolTable) :
  grows t t' → (length (decls t) ≤ length (decls t'))%nat.
Proof.
  intros (_ & H & _). destruct (decls t) as [|x0 l] eqn:E using rev_ind.
  { simpl. lia. }
  clear IHl. destruct (H (length l) x0) as (x' & Hx' & _).
  { by apply list_lookup_middle. }
  apply lookup_lt_Some in Hx'. rewrite length_app. simpl. lia.
Qed.

Section NewDeclarations.

Variable p : Provider.

(** What is known of the declaration built for the node [n], for a symbol
    whose parent symbol is [pa]. *)
Let builtFor (t : AstSymbolTable) (a : AstSymbolRef)
    (pa : option AstSymbolRef) (n : ts.Node) (y : AstDeclaration) : Prop :=
  declaration y = n ∧ astSymbol y = a
  ∧ match pa with
    | None => parent y = None
    | Some _ =>
        ∃ pn ph py, _tryFindFirstAstDeclarationParent p n = Some pn
                    ∧ parent y = Some ph
                    ∧ decls t !! ph = Some py
                    ∧ declaration py = pn
    end.

Lemma builtFor_grows t t' a pa n y h :
  grows t t' → decls t !! h = Some y → builtFor t a pa n y →
  ∃ y', decls t' !! h = Some y' ∧ builtFor t' a pa n y'.
Proof.
  intros Hg Hy (Hd & Hs & Hp). destruct Hg as (_ & Hdecls & _).
  destruct (Hdecls h y Hy) as (y' & Hy' & Ld & Ls & Lp & _).
  exists y'. split; [done|]. split; [congruence|]. split; [congruence|].
  destruct pa as [q|]; [|congruence].
  destruct Hp as (pn & ph & py & Hpn & Hpar & Hpy & Hdpy).
  destruct (Hdecls ph py Hpy) as (py' & Hpy' & Lpd & _).
  exists pn, ph, py'. repeat split; congruence.
Qed.

Lemma createDeclarations_built a pa ds t t' s :
  declsIndexed t →
  createDeclarations p a pa ds t = Returns tt t' →
  symbols t !! a = Some s →
  ∃ s', symbols t' !! a = Some s'
    ∧ astDeclarations s' = astDeclarations s ++ seq (length (decls t)) (length ds)
    ∧ ∀ i n, ds !! i = Some n →
             ∃ y, decls t' !! (length (decls t) + i)%nat = Some y
                  ∧ builtFor t' a pa n y.
Proof.
  revert t s. induction ds as [|d ds IH]; intros t s Hidx H Hs.
  - injection H as <-. exists s. rewrite app_nil_r. by repeat split.
  - unfold createDeclarations in H. cbn [forEach] in H.
    apply bind_Returns in H as ([] & t1 & Hbody & H).
    pose proof (frame_createDeclarations p grows grows_primitives
                  a pa ds t1 tt t' H) as Hg1.
    assert (Hstep : ∃ s1 y, symbols t1 !! a = Some s1
              ∧ astDeclarations s1 = astDeclarations s ++ [length (decls t)]
              ∧ length (decls t1) = S (length (decls t))
              ∧ decls t1 !! length (decls t) = Some y
              ∧ builtFor t1 a pa d y
              ∧ declsIndexed t1).
    { apply bind_Returns in Hbody as (pd & t0 & Hpd & Hbody).
      assert (t0 = t
              ∧ match pa with
                | None => pd = None
                | Some _ =>
                    ∃ pn ph, _tryFindFirstAstDeclarationParent p d = Some pn
                             ∧ pd = Some ph
                             ∧ _astDeclarationsByDeclaration t !! pn = Some ph
                end) as [-> Hparent].
      { destruct pa as [q|]; [|by injection Hpd as <- <-].
        destruct (_tryFindFirstAstDeclarationParent p d) as [pn|];
          [|discriminate].
        unfold bind, get in Hpd.
        destruct (_astDeclarationsByDeclaration t !! pn) as [ph|] eqn:Hph;
          [|discriminate].
        injection Hpd as <- <-. split; [done|]. by exists pn, ph. }
      pose proof (proj1 (proj2 (proj2 keepsIndexed_primitives))
                    d a pd t tt t1 Hbody Hidx) as Hidx1.
      pose proof (proj1 (proj2 (proj2 grows_primitives))
                    d a pd t tt t1 Hbody) as Hg.
      attached Hbody.
      injection Hbody as <-.
      set (y0 := mkAstDeclaration d a pd [] []) in *.
      assert (Hy : ∃ y, decls (match pd with
                           | Some q =>
                               set_decls (alter (λ x,
                                 mkAstDeclaration (declaration x) (astSymbol x)
                                   (parent x) (children x ++ [length (decls t)])
                                   (referencedAstSymbols x)) q)
                           | None => λ t, t
                           end (set_decls (λ l, l ++ [y0]) t))
                        !! length (decls t) = Some y
                        ∧ declaration y = d ∧ astSymbol y = a ∧ parent y = pd).
      { destruct pd as [q|]; simpl; [|exists y0; by rewrite list_lookup_middle].
        destruct (decide (q = length (decls t))) as [->|Hne].
        - eexists. rewrite list_lookup_alter_eq, list_lookup_middle by done.
          by repeat split.
        - exists y0. rewrite list_lookup_alter_ne, list_lookup_middle by done.
          by repeat split. }
      destruct Hy as (y & Hy & Hd & Ha & Hp).
      eexists _, y. split; [|split; [|split; [|split; [|split]]]].
      - destruct pd; simpl; by rewrite list_lookup_alter_eq, Hs.
      - done.
      - destruct pd; simpl; rewrite ?length_alter, length_app; simpl; lia.
      - by destruct pd.
      - split; [done|]. split; [done|].
        destruct pa as [q|]; [|by rewrite Hp, Hparent].
        destruct Hparent as (pn & ph & Hpn & -> & Hph).
        destruct (Hidx pn ph Hph) as (py & Hpy & Hdpy).
        destruct Hg as (_ & Hdecls & _).
        destruct (Hdecls ph py Hpy) as (py' & Hpy' & Ld & _).
        exists pn, ph, py'. repeat split; try done. congruence.
      - exact Hidx1. }
    destruct Hstep as (s1 & y & Hs1 & Hd1 & Hlen & Hy & Hbuilt & Hidx1).
    destruct (IH t1 s1 Hidx1 H Hs1) as (s' & Hs' & Hd' & Hall).
    exists s'. split; [done|]. split.
    { rewrite Hd', Hd1, Hlen, <- app_assoc. done. }
    intros i n Hi. destruct i as [|i]; simpl in Hi.
    + injection Hi as <-. rewrite Nat.add_0_r.
      by apply (builtFor_grows t1 t' a pa d y).
    + destruct (Hall i n Hi) as (y' & Hy' & Hb').
      exists y'. split; [|done]. rewrite <- Hy'. f_equal. lia.
Qed.

(** The creation path of a resolution: a followed symbol that passes the
    filters and is recorded neither by identity nor by import key.  When
    the call returns, the new symbol has one declaration for each
    declaration node of the followed symbol, in the order of the nodes;
    each is a new declaration, built for its node and owned by the new
    symbol.  Without parent symbol the declarations have no parent; with
    one, the parent of each is the declaration recorded for the nearest
    enclosing node that declares something. *)
Theorem new_symbol_declarations (fuel : nat) (symbol : ts.Symbol)
    (addIfMissing : bool) (t t' : AstSymbolTable) (x : option AstSymbolRef) :
  reachable p t →
  Z.land (flags p (followedSymbol (followAliases p symbol))) (discardedFlags p) = 0 →
  isAmbient (followAliases p symbol) = false →
  _astSymbolsBySymbol t !! followedSymbol (followAliases p symbol) = None →
  (∀ i, astImport (followAliases p symbol) = Some i →
        _astSymbolsByImportKey t !! AstImport_key i = None) →
  _fetchAstSymbol p fuel symbol addIfMissing t = Returns x t' →
  ∃ a s ds,
    x = Some a
    ∧ declarations p (followedSymbol (followAliases p symbol)) = Some ds
    ∧ symbols t' !! a = Some s
    ∧ Forall2 (λ h n,
        (length (decls t) ≤ h)%nat
        ∧ ∃ y, decls t' !! h = Some y
               ∧ declaration y = n
               ∧ astSymbol y = a
               ∧ match parentAstSymbol s with
                 | None => parent y = None
                 | Some _ =>
                     ∃ pn ph py,
                       _tryFindFirstAstDeclarationParent p n = Some pn
                       ∧ parent y = Some ph
                       ∧ decls t' !! ph = Some py
                       ∧ declaration py = pn
                 end)
        (astDeclarations s) ds.
Proof.
  intros Hreach Hf Ha Hm Hk H.
  pose proof (reachable_indexed p t Hreach) as Hidx.
  assert (Hk' : astImport (followAliases p symbol)
                ≫= (λ i, _astSymbolsByImportKey t !! AstImport_key i) = None).
  { destruct (astImport (followAliases p symbol)) as [i|]; [by apply Hk | done]. }
  destruct fuel; cbn [_fetchAstSymbol] in H; cbv zeta in H.
  all: rewrite bool_decide_eq_false_2 in H by (intros Hn; by apply Hn).
  all: rewrite Ha in H; unfold bind at 1, get in H; rewrite Hm in H.
  all: destruct (declarations p _) as [[|d ds]|]; try discriminate.
  all: rewrite Hk' in H.
  all: apply bind_Returns in H as (pa & t1 & Hpa & H).
  all: pose proof (frame_fetchAstSymbol p grows grows_primitives) as Fg.
  all: pose proof (frame_fetchAstSymbol p keepsIndexed keepsIndexed_primitives)
         as Fi.
  all: pose proof (frame_checkDeclarationKinds p grows) as Cg.
  all: pose proof (frame_checkDeclarationKinds p keepsIndexed) as Ci.
  all: match type of Hpa with
       | ?m _ = _ =>
           assert (Hg : preserves grows m ∧ preserves keepsIndexed m)
             by (split; repeat preserves_step; auto)
       end.
  all: clear Fg Fi Cg Ci.
  all: destruct Hg as [Hg Hi].
  all: pose proof (grows_decls_length _ _ (Hg _ _ _ Hpa)) as Hlen.
  all: pose proof (Hi _ _ _ Hpa Hidx) as Hidx1.
  all: clear Hg Hi Hpa.
  all: unfold constructAstSymbol in H; cbv zeta in H.
  all: apply bind_Returns in H as (t0 & t1' & Hget & H);
    injection Hget as <- <-.
  all: apply bind_Returns in H as (a & t2 & Hnew & H);
    injection Hnew as <- <-.
  all: apply bind_Returns in H as ([] & t3 & Hreg & H); injection Hreg as <-.
  all: apply bind_Returns in H as ([] & t4 & Hkey & H).
  all: apply bind_Returns in H as ([] & t5 & Hdecl & H).
  all: unfold checkImportStatus in H; destruct (_ && _); [discriminate|].
  all: injection H as <- <-.
  all: set (s0 := mkAstSymbol (localName (followAliases p symbol))
                    (followedSymbol (followAliases p symbol))
                    (astImport (followAliases p symbol))
                    (computeNominal p (d :: ds) d) pa
                    (default (length (symbols t1))
                       (pa ≫= λ pa, rootAstSymbol <$> symbols t1 !! pa))
                    [] false) in *.
  all: assert (Ht4 : symbols t4 = symbols t1 ++ [s0] ∧ decls t4 = decls t1
                     ∧ _astDeclarationsByDeclaration t4
                       = _astDeclarationsByDeclaration t1)
         by (by destruct (astImport (followAliases p symbol));
               injection Hkey as <-).
  all: destruct Ht4 as (Hsym4 & Hdecls4 & Hmap4).
  all: destruct (createDeclarations_built _ _ _ t4 _ s0
                   ltac:(unfold declsIndexed; by rewrite Hdecls4, Hmap4)
                   Hdecl
                   ltac:(rewrite Hsym4; by apply list_lookup_middle))
         as (s' & Hs' & Hds & Hall).
  all: pose proof (extends_createDeclarations p _ _ _ _ _ _ Hdecl
                     (length (symbols t1)) s0
                     ltac:(rewrite Hsym4; by apply list_lookup_middle))
         as (s'' & Hs'' & L).
  all: rewrite Hs' in Hs''; injection Hs'' as <-.
  all: destruct L as (_ & _ & _ & _ & Hpar & _); simpl in Hpar.
  all: exists (length (symbols t1)), s', (d :: ds).
  all: split; [done|]; split; [done|]; split; [done|].
  all: rewrite Hds; cbn [astDeclarations s0 app].
  all: apply Forall2_same_length_lookup_2; [by rewrite length_seq|].
  all: intros i h n Hh Hn.
  all: apply lookup_seq in Hh as [-> _].
  all: destruct (Hall i n Hn) as (y & Hy & Hd & Hown & Hp).
  all: rewrite Hdecls4 in *.
  all: split; [lia|]; exists y; rewrite Hpar; by repeat split.
Qed.

End NewDeclarations.

Lemma new_symbol_declarations_witness :
  ∃ a s ds,
    Some 0%nat = Some a
    ∧ declarations Demo.demo
        (followedSymbol (followAliases Demo.demo Demo.Widget)) = Some ds
    ∧ symbols Demo.afterLocal !! a = Some s
    ∧ Forall2 (λ h n,
        (length (decls empty) ≤ h)%nat
        ∧ ∃ y, decls Demo.afterLocal !! h = Some y
               ∧ declaration y = n
               ∧ astSymbol y = a
               ∧ match parentAstSymbol s with
                 | None => parent y = None
                 | Some _ =>
                     ∃ pn ph py,
                       _tryFindFirstAstDeclarationParent Demo.demo n = Some pn
                       ∧ parent y = Some ph
                       ∧ decls Demo.afterLocal !! ph = Some py
                       ∧ declaration py = pn
                 end)
        (astDeclarations s) ds.
Proof.
  apply (new_symbol_declarations Demo.demo 1 Demo.Widget true empty
           Demo.afterLocal (Some 0%nat)).
  - apply reachable_new.
  - by vm_compute.
  - reflexivity.
  - by vm_compute.
  - intros i Hi. by vm_compute.
  - by vm_compute.
Defined.

(** ** The parents of declarations *)

#[local] Instance keepsLinked_preorder (p : Provider) : PreOrder (keepsLinked p).
Proof.
  split.
  - by intros t H.
  - intros t1 t2 t3 H12 H23 H. by apply H23, H12.
Qed.

(** The links read only the index and, of each declaration, its node and
    its parent. *)
Lemma linked_fields (p : Provider) (t t' : AstSymbolTable) :
  _astDeclarationsByDeclaration t' = _astDeclarationsByDeclaration t →
  Forall2 (λ y y', declaration y' = declaration y ∧ parent y' = parent y)
    (decls t) (decls t') →
  keepsLinked p t t'.
Proof.
  intros Em Hf (Hidx & Hpar).
  assert (Hto : ∀ c y, decls t !! c = Some y →
            ∃ y', decls t' !! c = Some y' ∧ declaration y' = declaration y
                  ∧ parent y' = parent y).
  { intros c y Hy. destruct (Forall2_lookup_l _ _ _ _ _ Hf Hy) as (y' & ? & ?).
    by exists y'. }
  assert (Hfrom : ∀ c y', decls t' !! c = Some y' →
            ∃ y, decls t !! c = Some y ∧ declaration y' = declaration y
                 ∧ parent y' = parent y).
  { intros c y' Hy. destruct (Forall2_lookup_r _ _ _ _ _ Hf Hy) as (y & ? & ?).
    by exists y. }
  split.
  - intros n h Hl. rewrite Em in Hl. destruct (Hidx n h Hl) as (y & Hy & Hd).
    destruct (Hto h y Hy) as (y' & Hy' & Hd' & _). exists y'. split; congruence.
  - intros h y' ph Hy' Hp. destruct (Hfrom h y' Hy') as (y & Hy & Hd & Hp').
    destruct (Hpar h y ph Hy) as (Hlt & py & Hpy & Hfind); [congruence|].
    destruct (Hto ph py Hpy) as (py' & Hpy' & Hdp & _).
    split; [done|]. exists py'. split; [done|]. congruence.
Qed.

Lemma linked_same (p : Provider) (t t' : AstSymbolTable) :
  decls t' = decls t →
  _astDeclarationsByDeclaration t' = _astDeclarationsByDeclaration t →
  keepsLinked p t t'.
Proof.
  intros Ed Em. apply linked_fields; [done|]. rewrite Ed.
  apply Forall2_same_length_lookup_2; [done|].
  intros i y y' Hy Hy'. rewrite Hy in Hy'. by injection Hy' as <-.
Qed.

Lemma linked_alter (p : Provider) (G : AstDeclaration → AstDeclaration)
    (d : AstDeclarationRef) (t : AstSymbolTable) :
  (∀ y, declaration (G y) = declaration y ∧ parent (G y) = parent y) →
  keepsLinked p t (set_decls (alter G d) t).
Proof.
  intros HG. apply linked_fields; [done|]. simpl.
  apply Forall2_same_length_lookup_2; [by rewrite length_alter|].
  intros i y y' Hy Hy'. destruct (decide (d = i)) as [->|Hne].
  - rewrite list_lookup_alter_eq, Hy in Hy'. injection Hy' as <-. apply HG.
  - rewrite list_lookup_alter_ne, Hy in Hy' by done. by injection Hy' as <-.
Qed.

Section DeclarationParents.

Variable p : Provider.

(** One round of the loop that builds the declarations of a new symbol. *)
Lemma linked_newAstDeclaration n a pd t x t1 :
  declsLinked p t →
  match pd with
  | None => True
  | Some ph =>
      ∃ py, decls t !! ph = Some py
            ∧ _tryFindFirstAstDeclarationParent p n = Some (declaration py)
  end →
  bind (newAstDeclaration n a pd)
    (λ astDeclaration, modify (set_astDeclarationsByDeclaration n astDeclaration))
    t = Returns x t1 →
  declsLinked p t1.
Proof.
  intros (Hidx & Hpar) Hpd H.
  pose proof (proj1 (proj2 (proj2 keepsIndexed_primitives))
                n a pd t x t1 H Hidx) as Hidx1.
  split; [done|]. clear Hidx1.
  attached H.
  injection H as _ Ht1.
  set (h := length (decls t)) in *.
  set (y0 := mkAstDeclaration n a pd [] []) in *.
  set (G := λ x : AstDeclaration,
         mkAstDeclaration (declaration x) (astSymbol x) (parent x)
           (children x ++ [h]) (referencedAstSymbols x)) in *.
  set (upd := λ (c : nat) (y : AstDeclaration),
         if decide (pd = Some c) then G y else y).
  assert (Hd1 : decls t1 = match pd with
                           | Some q => alter G q (decls t ++ [y0])
                           | None => decls t ++ [y0]
                           end) by (rewrite <- Ht1; by destruct pd).
  clear Ht1.
  assert (Hnoth : pd ≠ Some h).
  { intros E. rewrite E in Hpd. destruct Hpd as (py & Hpy & _).
    apply lookup_lt_Some in Hpy. unfold h in Hpy. lia. }
  assert (Hold : ∀ c y, decls t !! c = Some y → decls t1 !! c = Some (upd c y)).
  { intros c y Hy. pose proof (lookup_lt_Some _ _ _ Hy) as Hlt.
    rewrite Hd1. unfold upd. destruct pd as [q|].
    - destruct (decide (q = c)) as [->|Hne].
      + rewrite decide_True by done.
        by rewrite list_lookup_alter_eq, lookup_app_l, Hy.
      + rewrite decide_False by congruence.
        by rewrite list_lookup_alter_ne, lookup_app_l.
    - rewrite decide_False by done. by rewrite lookup_app_l. }
  assert (Hnew : decls t1 !! h = Some y0).
  { rewrite Hd1. destruct pd as [q|]; [|by apply list_lookup_middle].
    rewrite list_lookup_alter_ne by congruence. by apply list_lookup_middle. }
  assert (Hinv : ∀ c y1, decls t1 !! c = Some y1 →
            (c = h ∧ y1 = y0) ∨ (∃ y, decls t !! c = Some y ∧ y1 = upd c y)).
  { intros c y1 Hy1. destruct (decide (c < h)%nat) as [Hlt|Hge].
    - destruct (lookup_lt_is_Some_2 _ _ Hlt) as [y Hy]. right. exists y.
      split; [done|]. rewrite (Hold c y Hy) in Hy1. by injection Hy1 as <-.
    - left. assert (c = h) as ->.
      { apply lookup_lt_Some in Hy1. rewrite Hd1 in Hy1.
        destruct pd; rewrite ?length_alter, length_app in Hy1;
          simpl in Hy1; unfold h in *; lia. }
      split; [done|]. rewrite Hnew in Hy1. by injection Hy1 as <-. }
  assert (Hfields : ∀ c y, declaration (upd c y) = declaration y
                           ∧ parent (upd c y) = parent y).
  { intros c y. unfold upd. by destruct (decide _). }
  intros h' y1 ph Hy1 Hp.
  destruct (Hinv _ _ Hy1) as [[-> ->] | (y & Hy & ->)].
  - simpl in Hp. rewrite Hp in Hpd. destruct Hpd as (py & Hpy & Hfind).
    split; [by eapply lookup_lt_Some|].
    exists (upd ph py). split; [by apply Hold|].
    by rewrite (proj1 (Hfields ph py)).
  - rewrite (proj2 (Hfields h' y)) in Hp.
    destruct (Hpar h' y ph Hy Hp) as (Hlt & py & Hpy & Hfind).
    split; [done|]. exists (upd ph py). split; [by apply Hold|].
    by rewrite (proj1 (Hfields ph py)), (proj1 (Hfields h' y)).
Qed.

Lemma keepsLinked_createDeclarations astSymbol parentAstSymbol ds :
  preserves (keepsLinked p)
    (createDeclarations p astSymbol parentAstSymbol ds).
Proof.
  unfold createDeclarations. apply preserves_forEach; solve_preorder.
  intros d t x t1 H Hl.
  apply bind_Returns in H as (pd & t0 & Hpd & H).
  assert (t0 = t
          ∧ match pd with
            | None => True
            | Some ph =>
                ∃ py, decls t !! ph = Some py
                      ∧ _tryFindFirstAstDeclarationParent p d
                        = Some (declaration py)
            end) as [-> Hparent].
  { destruct parentAstSymbol as [q|]; [|by injection Hpd as <- <-].
    destruct (_tryFindFirstAstDeclarationParent p d) as [pn|]; [|discriminate].
    unfold bind, get in Hpd.
    destruct (_astDeclarationsByDeclaration t !! pn) as [ph|] eqn:Hph;
      [|discriminate].
    injection Hpd as <- <-. split; [done|].
    destruct Hl as (Hidx & _). destruct (Hidx pn ph Hph) as (py & Hpy & Hd).
    exists py. split; [done|]. by rewrite Hd. }
  by eapply linked_newAstDeclaration.
Qed.

Lemma keepsLinked_fetchAstSymbol fuel symbol addIfMissing :
  preserves (keepsLinked p) (_fetchAstSymbol p fuel symbol addIfMissing).
Proof.
  apply creation_fetchAstSymbol; solve_preorder.
  - apply keepsLinked_createDeclarations.
  - intros ln fs ai pa ra nm t h t' H. injection H as _ <-.
    by apply linked_same.
  - intros k a. apply preserves_modify; solve_preorder. intros t.
    by apply linked_same.
  - intros k a. apply preserves_modify; solve_preorder. intros t.
    by apply linked_same.
Qed.

Lemma keepsLinked_notifyAnalyzed a :
  preserves (keepsLinked p) (_notifyAnalyzed a).
Proof.
  apply preserves_modify; solve_preorder. intros t. by apply linked_same.
Qed.

Lemma keepsLinked_notifyReferencedAstSymbol d r :
  preserves (keepsLinked p) (_notifyReferencedAstSymbol d r).
Proof.
  apply preserves_notifyReferencedAstSymbol. intros t.
  apply linked_alter. intros y. by destruct (bool_decide _).
Qed.

Lemma reachable_linked (t : AstSymbolTable) : reachable p t → declsLinked p t.
Proof.
  induction 1 as [|fuel symbol t x t' _ IH H|fuel a t t' _ IH H
                 |fuel sf t ms t' _ IH H].
  - split.
    + intros n h Hl. simpl in Hl. by rewrite lookup_empty in Hl.
    + intros h y ph Hy. by destruct h.
  - by apply (keepsLinked_fetchAstSymbol _ _ _ _ _ _ H).
  - by apply (methods_analyze p (keepsLinked p) keepsLinked_fetchAstSymbol
                keepsLinked_notifyAnalyzed keepsLinked_notifyReferencedAstSymbol
                _ _ _ _ _ H).
  - unfold fetchEntryPoint in H. unfold bind at 1, get in H.
    destruct (_astEntryPointsBySourceFile t !! sf);
      [by injection H as _ <-|].
    destruct (getSymbolForDeclaration p sf); [|discriminate].
    destruct (declarations p _) as [[|d ds]|]; try discriminate.
    apply bind_Returns in H as (ms' & t1 & Hc & H).
    apply bind_Returns in H as ([] & t2 & Hset & H).
    injection Hset as <-. injection H as _ <-.
    apply (linked_same p t1); [done | done |].
    by apply (methods_collectExports p (keepsLinked p) keepsLinked_fetchAstSymbol
                keepsLinked_notifyAnalyzed keepsLinked_notifyReferencedAstSymbol
                _ _ _ _ _ _ Hc).
Qed.

(** On a table of a run the parent links of the declarations are sound.
    The parent of a declaration is a declaration of the table that was
    built before it, and its node is the nearest enclosing node, of the
    declaration's node, that declares something. *)
Theorem reachable_declaration_tree (t : AstSymbolTable)
    (h ph : AstDeclarationRef) (y : AstDeclaration) :
  reachable p t →
  decls t !! h = Some y →
  parent y = Some ph →
  (ph < h)%nat
  ∧ ∃ py, decls t !! ph = Some py
          ∧ _tryFindFirstAstDeclarationParent p (declaration y)
            = Some (declaration py).
Proof.
  intros Hr. destruct (reachable_linked t Hr) as (_ & Hpar). apply Hpar.
Qed.

End DeclarationParents.

Lemma reachable_declaration_tree_witness :
  (0 < 1)%nat
  ∧ ∃ py, decls Demo.afterAnalyze !! 0%nat = Some py
          ∧ _tryFindFirstAstDeclarationParent Demo.demo Demo.renderMethod
            = Some (declaration py).
Proof.
  apply (reachable_declaration_tree Demo.demo Demo.afterAnalyze 1%nat 0%nat
           (mkAstDeclaration Demo.renderMethod 1 (Some 0%nat) [] [2%nat])).
  - apply (reachable_analyze Demo.demo 8 0%nat Demo.afterLocal);
      [|by vm_compute].
    apply (reachable_tryGetAstSymbol Demo.demo 1 Demo.Widget empty (Some 0%nat));
      [apply reachable_new | by vm_compute].
  - by vm_compute.
  - reflexivity.
Defined.

(** ** What analyze leaves in the index *)

#[local] Instance indexKept_preorder : PreOrder indexKept.
Proof.
  split; [by intros t n|]. intros t1 t2 t3 H12 H23 n H. by apply H23, H12.
Qed.

#[local] Instance growsIndexed_preorder : PreOrder growsIndexed.
Proof.
  split.
  - intros t. split; reflexivity.
  - intros t1 t2 t3 [? ?] [? ?]. split; by etrans.
Qed.

Lemma primitives_and (R1 R2 : relation AstSymbolTable) :
  primitivesPreserve R1 → primitivesPreserve R2 →
  primitivesPreserve (λ t t', R1 t t' ∧ R2 t t').
Proof.
  intros (A1 & B1 & C1 & D1 & E1 & F1) (A2 & B2 & C2 & D2 & E2 & F2).
  split; [|split; [|split; [|split; [|split]]]].
  - intros a t x t' H. split; [by eapply A1 | by eapply A2].
  - intros ln fs ai pa ra nm t x t' H. split; [by eapply B1 | by eapply B2].
  - intros n o pd t x t' H. split; [by eapply C1 | by eapply C2].
  - intros d r t x t' H. split; [by eapply D1 | by eapply D2].
  - intros k a t x t' H. split; [by eapply E1 | by eapply E2].
  - intros k a t x t' H. split; [by eapply F1 | by eapply F2].
Qed.

Lemma indexKept_same (t t' : AstSymbolTable) :
  _astDeclarationsByDeclaration t' = _astDeclarationsByDeclaration t →
  indexKept t t'.
Proof. intros E n. by rewrite E. Qed.

Lemma indexKept_primitives : primitivesPreserve indexKept.
Proof.
  split; [|split; [|split; [|split; [|split]]]].
  - intros a. apply preserves_modify; solve_preorder. intros t.
    by apply indexKept_same.
  - intros ln fs ai pa ra nm t h t' H. injection H as _ <-.
    by apply indexKept_same.
  - intros node owner pd t x t' H.
    attached H.
    injection H as _ <-. intros n Hn.
    assert (Hm : _astDeclarationsByDeclaration
                   (set_astDeclarationsByDeclaration node (length (decls t))
                      (match pd with
                       | Some q =>
                           set_decls (alter (λ x,
                             mkAstDeclaration (declaration x) (astSymbol x)
                               (parent x) (children x ++ [length (decls t)])
                               (referencedAstSymbols x)) q)
                       | None => λ t, t
                       end
                       (set_symbols (alter (λ s,
                          mkAstSymbol (sym_localName s) (sym_followedSymbol s)
                            (sym_astImport s) (nominal s) (parentAstSymbol s)
                            (rootAstSymbol s)
                            (astDeclarations s ++ [length (decls t)])
                            (_analyzed s)) owner)
                          (set_decls (λ l, l ++
                             [mkAstDeclaration node owner pd [] []]) t))))
                 = <[node := length (decls t)]> (_astDeclarationsByDeclaration t))
      by (by destruct pd).
    destruct pd; simpl in *; rewrite lookup_insert; by case_decide.
  - intros d r. apply preserves_notifyReferencedAstSymbol; solve_preorder. intros t.
    by apply indexKept_same.
  - intros k a. apply preserves_modify; solve_preorder. intros t.
    by apply indexKept_same.
  - intros k a. apply preserves_modify; solve_preorder. intros t.
    by apply indexKept_same.
Qed.

Lemma growsIndexed_primitives : primitivesPreserve growsIndexed.
Proof. apply primitives_and; [apply grows_primitives | apply indexKept_primitives]. Qed.

(** Each element of a loop had its turn. *)
Lemma forEach_each {A} (R : relation AstSymbolTable) `{!PreOrder R}
    (xs : list A) (body : A → M unit) (t t' : AstSymbolTable) :
  (∀ x, preserves R (body x)) →
  forEach xs body t = Returns tt t' →
  ∀ x, x ∈ xs → ∃ t1 t2, body x t1 = Returns tt t2 ∧ R t2 t'.
Proof.
  intros Hb. revert t. induction xs as [|x0 xs IH]; intros t H x Hx.
  { by apply elem_of_nil in Hx. }
  cbn [forEach] in H. apply bind_Returns in H as ([] & ta & H0 & H).
  apply elem_of_cons in Hx as [-> | Hx].
  - exists t, ta. split; [done|].
    by apply (preserves_forEach R xs body Hb ta tt t').
  - by apply (IH ta H).
Qed.

(** Each element that a live array held when the loop started had its
    turn, provided the array only grows at its end. *)
Lemma forOfLive_each {A} (R : relation AstSymbolTable) `{!PreOrder R}
    (fuel : nat) (read : AstSymbolTable → list A) (body : A → M unit)
    (i : nat) (t t' : AstSymbolTable) :
  (∀ x, preserves R (body x)) →
  (∀ t1 t2 j x, R t1 t2 → read t1 !! j = Some x → read t2 !! j = Some x) →
  forOfLive fuel read i body t = Returns tt t' →
  ∀ j x, (i ≤ j)%nat → read t !! j = Some x →
         ∃ t1 t2, R t t1 ∧ body x t1 = Returns tt t2 ∧ R t2 t'.
Proof.
  intros Hb Hread. revert i t.
  induction fuel as [|fuel IH]; intros i t H j x Hij Hx; simpl in H;
    destruct (read t !! i) as [xi|] eqn:Hi; try discriminate.
  - apply lookup_ge_None in Hi. apply lookup_lt_Some in Hx. lia.
  - apply bind_Returns in H as ([] & ta & H0 & H).
    destruct (decide (j = i)) as [->|Hne].
    + rewrite Hi in Hx. injection Hx as <-. exists t, ta.
      split; [reflexivity|]. split; [done|].
      by apply (preserves_forOfLive R fuel read (S i) body Hb ta tt t').
    + destruct (IH (S i) ta H j x) as (t1 & t2 & H1 & H2 & H3); [lia| |].
      { eapply Hread; [|done]. by eapply Hb. }
      exists t1, t2. split; [|done]. etrans; [|done]. by eapply Hb.
  - apply lookup_ge_None in Hi. apply lookup_lt_Some in Hx. lia.
Qed.

Section AnalyzeIndexes.

Variable p : Provider.

(** A symbol that cannot be resolved. *)
Let unsupported (symbol : ts.Symbol) : Prop :=
  Z.land (flags p (followedSymbol (followAliases p symbol))) (discardedFlags p) ≠ 0
  ∨ isAmbient (followAliases p symbol) = true.

Lemma fetch_absent fuel symbol addIfMissing t t' :
  _fetchAstSymbol p fuel symbol addIfMissing t = Returns None t' →
  unsupported symbol.
Proof.
  intros H. unfold unsupported.
  destruct (decide (Z.land (flags p (followedSymbol (followAliases p symbol)))
                      (discardedFlags p) = 0)) as [Hf|Hf]; [|by left].
  destruct (isAmbient (followAliases p symbol)) eqn:Ha; [by right|].
  exfalso.
  destruct (_astSymbolsBySymbol t !! followedSymbol (followAliases p symbol))
    as [a0|] eqn:Hm.
  { rewrite (fetch_by_identity p fuel symbol addIfMissing t a0 Hf Ha Hm) in H.
    unfold checkImportStatus in H. by destruct (_ && _). }
  destruct (declarations p (followedSymbol (followAliases p symbol)))
    as [[|d ds]|] eqn:Hd.
  1,3: rewrite (fetch_no_declarations p fuel symbol addIfMissing t) in H by auto;
    discriminate.
  destruct (astImport (followAliases p symbol)
            ≫= (λ i, _astSymbolsByImportKey t !! AstImport_key i))
    as [a0|] eqn:Hk.
  - destruct (astImport (followAliases p symbol)) as [i|] eqn:Hi;
      [|discriminate]. simpl in Hk.
    rewrite (fetch_by_import_key p fuel symbol addIfMissing t a0 i d ds
               Hf Ha Hm Hd Hi Hk) in H.
    unfold checkImportStatus in H. by destruct (_ && _).
  - destruct (fetch_creates p fuel symbol addIfMissing t None t' Hf Ha Hm)
      as (a & _ & _ & _ & Hx & _); [|done|done].
    intros i Hi. by rewrite Hi in Hk.
Qed.

Lemma fetchAstDeclaration_indexes fuel node t r t' :
  _fetchAstDeclaration p fuel node t = Returns r t' →
  isAstDeclaration p (kind p node) = true →
  ∃ symbol, getSymbolForDeclaration p node = Some symbol
            ∧ (unsupported symbol
               ∨ is_Some (_astDeclarationsByDeclaration t' !! node)).
Proof.
  intros H Hk. unfold _fetchAstDeclaration, _fetchAstSymbolForNode in H.
  rewrite Hk in H. simpl in H.
  destruct (getSymbolForDeclaration p node) as [symbol|]; [|discriminate].
  exists symbol. split; [done|].
  apply bind_Returns in H as (x & t1 & Hf & H).
  destruct x as [a|]; [|left; by eapply fetch_absent].
  unfold bind, get in H.
  destruct (_astDeclarationsByDeclaration t1 !! node) as [h|] eqn:Hh;
    [|discriminate].
  injection H as _ <-. right. by exists h.
Qed.

Lemma indexKept_analyzeChildTree fuel node governingAstDeclaration :
  preserves indexKept (_analyzeChildTree p fuel node governingAstDeclaration).
Proof.
  apply methods_analyzeChildTree; solve_preorder;
    [intros; by apply (frame_fetchAstSymbol p indexKept indexKept_primitives)
    | apply indexKept_primitives ..].
Qed.

Lemma analyzeChildTree_step fuel node governingAstDeclaration :
  kind p node ≠ ts.JSDocComment →
  _analyzeChildTree p (S fuel) node governingAstDeclaration
  = bind (match kind p node with
          | ts.TypeReference | ts.ExpressionWithTypeArguments
          | ts.ComputedPropertyName =>
              noteReference p fuel node governingAstDeclaration
          | _ => ret tt
          end)
      (λ _, bind (_fetchAstDeclaration p fuel node)
        (λ newGoverningAstDeclaration,
           forEach (getChildren p node) (λ childNode,
             _analyzeChildTree p fuel childNode
               (default governingAstDeclaration newGoverningAstDeclaration)))).
Proof. intros Hk. cbn [_analyzeChildTree]. by destruct (kind p node). Qed.

Lemma analyzeChildTree_indexes fuel node governingAstDeclaration t t' d :
  _analyzeChildTree p fuel node governingAstDeclaration t = Returns tt t' →
  visited p node d →
  isAstDeclaration p (kind p d) = true →
  ∃ symbol, getSymbolForDeclaration p d = Some symbol
            ∧ (unsupported symbol
               ∨ is_Some (_astDeclarationsByDeclaration t' !! d)).
Proof.
  revert node governingAstDeclaration t t'.
  induction fuel as [|fuel IH]; intros node gov t t' H Hv Hd; [discriminate|].
  assert (Hk : kind p node ≠ ts.JSDocComment) by (by destruct Hv).
  rewrite (analyzeChildTree_step fuel node gov Hk) in H.
  apply bind_Returns in H as ([] & t1 & _ & H).
  apply bind_Returns in H as (newGov & t2 & Hdecl & H).
  destruct Hv as [node _|node c d _ Hc Hv].
  - destruct (fetchAstDeclaration_indexes _ _ _ _ _ Hdecl Hd)
      as (symbol & Hs & [Hu | Hi]); exists symbol; (split; [done|]);
      [by left|right].
    revert Hi. apply (preserves_forEach indexKept _ _
                        (λ c, indexKept_analyzeChildTree fuel c _) t2 tt t' H).
  - destruct (forEach_each indexKept _ _ t2 t'
                (λ c, indexKept_analyzeChildTree fuel c _) H c Hc)
      as (ta & tb & Hbody & Hkept).
    destruct (IH _ _ _ _ Hbody Hv Hd) as (symbol & Hs & [Hu | Hi]);
      exists symbol; (split; [done|]); [by left | right; by apply Hkept].
Qed.

(** After [analyze] has returned for a symbol that was not analyzed and is
    not nominal, the index covers the syntax trees of the root symbol's
    declarations: every node that [_analyzeChildTree] walks from the node
    of such a declaration and that declares something has a symbol, and
    unless that symbol is of a discarded kind or ambient, the index
    records for the node a declaration built for it. *)
Theorem analyze_indexes_tree (fuel : nat) (a : AstSymbolRef)
    (t t' : AstSymbolTable) (s r : AstSymbol) (h : AstDeclarationRef)
    (y : AstDeclaration) (d : ts.Node) :
  reachable p t →
  analyze p fuel a t = Returns tt t' →
  symbols t !! a = Some s →
  analyzed t a = false →
  nominal s = false →
  symbols t !! rootAstSymbol s = Some r →
  h ∈ astDeclarations r →
  decls t !! h = Some y →
  visited p (declaration y) d →
  isAstDeclaration p (kind p d) = true →
  ∃ symbol,
    getSymbolForDeclaration p d = Some symbol
    ∧ ((Z.land (flags p (followedSymbol (followAliases p symbol)))
          (discardedFlags p) ≠ 0
        ∨ isAmbient (followAliases p symbol) = true)
       ∨ ∃ h' y', _astDeclarationsByDeclaration t' !! d = Some h'
                  ∧ decls t' !! h' = Some y'
                  ∧ declaration y' = d).
Proof.
  intros Hreach H Hs Han Hnom Hr Hh Hy Hv Hd.
  pose proof (reachable_indexed p t'
                (reachable_analyze p fuel a t t' Hreach H)) as Hidx'.
  cut (∃ symbol, getSymbolForDeclaration p d = Some symbol
         ∧ (unsupported symbol
            ∨ is_Some (_astDeclarationsByDeclaration t' !! d))).
  { intros (symbol & Hsym & [Hu | [h' Hh']]); exists symbol;
      (split; [done|]); [by left|right].
    destruct (Hidx' d h' Hh') as (y' & Hy' & Hd'). by exists h', y'. }
  destruct fuel as [|fuel]; cbn [analyze] in H; rewrite Han in H;
    [discriminate|].
  rewrite Hs, Hnom in H.
  apply bind_Returns in H as ([] & t1 & Hloop & H).
  assert (Hrest : indexKept t1 t').
  { revert H.
    match goal with
    | |- ?m t1 = _ → _ => cut (preserves indexKept m); [intros Hp; apply Hp|]
    end.
    repeat preserves_step; try apply indexKept_primitives.
    apply methods_forEachDeclarationRecursive; solve_preorder. intros d0.
    repeat preserves_step.
    apply (frame_analyze p indexKept indexKept_primitives). }
  apply list_elem_of_lookup in Hh as [j Hj].
  destruct (forOfLive_each growsIndexed fuel
              (λ t, from_option astDeclarations [] (symbols t !! rootAstSymbol s))
              (λ astDeclaration,
                 bind get (λ t,
                   match decls t !! astDeclaration with
                   | None => throw "TypeError: Cannot read property of undefined"
                   | Some d => _analyzeChildTree p fuel (declaration d)
                                 astDeclaration
                   end))
              0 t t1) with (j := j) (x := h)
    as (ta & tb & Hta & Hbody & Htb).
  - intros x. repeat preserves_step.
    apply methods_analyzeChildTree; solve_preorder;
      [intros; by apply (frame_fetchAstSymbol p growsIndexed
                           growsIndexed_primitives)
      | apply growsIndexed_primitives ..].
  - intros t2 t3 i x [(Hg & _) _] Hx.
    destruct (symbols t2 !! rootAstSymbol s) as [r2|] eqn:Hr2;
      [|by destruct i].
    destruct (Hg _ r2 Hr2) as (r3 & Hr3 & _ & Hpre). rewrite Hr3. simpl in *.
    by eapply prefix_lookup_Some.
  - exact Hloop.
  - lia.
  - by rewrite Hr.
  - unfold bind, get in Hbody.
    destruct Hta as [(_ & Hgd & _) _].
    destruct (Hgd h y Hy) as (ya & Hya & Hsame & _).
    rewrite Hya, Hsame in Hbody.
    destruct (analyzeChildTree_indexes _ _ _ _ _ _ Hbody Hv Hd)
      as (symbol & Hsym & [Hu | Hi]); exists symbol; (split; [done|]);
      [by left|right].
    apply Hrest. by apply Htb.
Qed.

End AnalyzeIndexes.

Lemma analyze_indexes_tree_witness :
  ∃ symbol,
    getSymbolForDeclaration Demo.demo Demo.renderMethod = Some symbol
    ∧ ((Z.land (flags Demo.demo
                  (followedSymbol (followAliases Demo.demo symbol)))
          (discardedFlags Demo.demo) ≠ 0
        ∨ isAmbient (followAliases Demo.demo symbol) = true)
       ∨ ∃ h' y', _astDeclarationsByDeclaration Demo.afterAnalyze
                    !! Demo.renderMethod = Some h'
                  ∧ decls Demo.afterAnalyze !! h' = Some y'
                  ∧ declaration y' = Demo.renderMethod).
Proof.
  apply (analyze_indexes_tree Demo.demo 8 0%nat Demo.afterLocal
           Demo.afterAnalyze
           (mkAstSymbol "sym" Demo.Widget None false None 0 [0%nat] false)
           (mkAstSymbol "sym" Demo.Widget None false None 0 [0%nat] false)
           0%nat (mkAstDeclaration Demo.widgetClass 0 None [] [])).
  - apply (reachable_tryGetAstSymbol Demo.demo 1 Demo.Widget empty (Some 0%nat));
      [apply reachable_new | by vm_compute].
  - by vm_compute.
  - by vm_compute.
  - by vm_compute.
  - reflexivity.
  - by vm_compute.
  - by apply list_elem_of_singleton.
  - by vm_compute.
  - apply (visited_below Demo.demo Demo.widgetClass Demo.renderMethod);
      [discriminate | by apply list_elem_of_singleton |].
    apply visited_here. discriminate.
  - reflexivity.
Defined.
